(** * ai-platform: admission, quota accounting and classification parsing

    A shallow embedding of the service layer of the platform
    ([limit_service.py], [orchestration_service.py], [model_registry.py],
    [config.py], [database.py]) together with the properties its
    specification states about it.

    Conventions of the embedding.
    - Python [int] is [Z]; [len] of a string or list is a [nat] injected
      into [Z] where it meets an [int].  The 64-bit range of an INTEGER
      column is modelled where the code adds a number of its caller's to
      a stored one, in [record_tokens].
    - Python [str] is [string]; one character stands for one code point.
    - A Python [float] is the rational it denotes ([Q]), or an infinity
      or NaN; float arithmetic and the reading of a literal round to the
      nearest double ([round_float]).  The sign of zero is not kept.
    - Exceptions are values of [exn]; code that may raise returns a
      [result]; code that also mutates the session, the registry or both
      lives in the state-and-exception monad [M].  A raise keeps the
      mutations made before it, as in Python.
    - [date.today()] is an argument [today] of the function that reads
      it; a calendar day is a [Z]. *)

From Stdlib Require Import ZArith QArith Qabs Lia Lqa Ascii.
From stdpp Require Import gmap strings list pretty.

Local Open Scope Z_scope.

(** ** Exceptions and results *)

Inductive exn : Type :=
  | LimitExceededError (operation : string) (used limit : Z)
  | OrchestrationError (why : failure)
  | MultipleResultsFound
  | JSONDecodeError
  | KeyError
  | TypeError
  | AttributeError
  | ValueError
  | OverflowError
  | IndexError
  | FileNotFoundError
  | RuntimeError
with failure : Type :=
  | NoModelConfigured (operation : string)
  | InputExceedsHardLimit (operation : string) (len max_chars : Z)
  | InferenceFailed (cause : exn).

Inductive result (A : Type) : Type :=
  | Return (a : A)
  | Raise (e : exn).
Arguments Return {A} a.
Arguments Raise {A} e.

(** State-and-exception monad: the state survives a raise. *)
Definition M (S A : Type) : Type := S → result A * S.

Definition ret {S A} (a : A) : M S A := λ s, (Return a, s).
Definition raise {S A} (e : exn) : M S A := λ s, (Raise e, s).
Definition bind {S A B} (m : M S A) (k : A → M S B) : M S B :=
  λ s, match m s with
       | (Return a, s') => k a s'
       | (Raise e, s') => (Raise e, s')
       end.
Definition get {S} : M S S := λ s, (Return s, s).
Definition put {S} (s : S) : M S unit := λ _, (Return tt, s).
Definition lift {S A} (r : result A) : M S A := λ s, (r, s).

Declare Scope py_scope.
Delimit Scope py_scope with py.
Notation "'do' x <- m ; k" := (bind m (λ x, k))
  (at level 10, x name, m at level 100, k at level 200,
   format "'[v' 'do'  x  <-  m ; '/' k ']'") : py_scope.
Notation "'do' ' p <- m ; k" := (bind m (λ x, match x with p => k end))
  (at level 10, p pattern, m at level 100, k at level 200,
   format "'[v' 'do'  ' p  <-  m ; '/' k ']'") : py_scope.
Notation "m ;; k" := (bind m (λ _, k))
  (at level 100, k at level 200, right associativity) : py_scope.
Local Open Scope py_scope.

(** ** Configuration ([config.py])

    Every field of [Settings] can be overridden from the environment, so
    the service code is embedded over an arbitrary [Settings] value and
    [settings] is the one the source declares. *)

Record Settings : Type := {
  OPERATION_MODEL_MAP : gmap string string;
  MAX_INPUT_CHARS : gmap string Z;
  MAX_OUTPUT_TOKENS : gmap string Z;
  DEFAULT_DAILY_LIMIT : Z
}.

Definition settings : Settings := {|
  OPERATION_MODEL_MAP :=
    <["summarize" := "qwen-summarize"]>
      (<["translate" := "qwen-translate"]>
         (<["classify" := "qwen-classify"]> ∅));
  MAX_INPUT_CHARS :=
    <["summarize" := 8000]> (<["translate" := 4000]> (<["classify" := 2000]> ∅));
  MAX_OUTPUT_TOKENS :=
    <["summarize" := 512]> (<["translate" := 512]> (<["classify" := 64]> ∅));
  DEFAULT_DAILY_LIMIT := 1000
|}.

(** ** Database layer ([database.py])

    [operation_limits.operation] carries a unique constraint, so that table
    is a finite map from operation to [daily_limit].  [usage_log] has no
    unique constraint on (operation, log_date): it is the list of its rows
    in insertion order, and a row's position is its autoincrement primary
    key (rows are never deleted). *)

Record UsageLog : Type := {
  operation : string;
  log_date : Z;
  request_count : Z;
  total_tokens : Z
}.

Record Database : Type := {
  operation_limits : gmap string Z;
  usage_log : list UsageLog
}.

(** An [AsyncSession]: the durable, committed database and the session's
    own view of it, which also holds what it has flushed but not yet
    committed.  Reads and writes go to [pending]; [commit] makes it
    durable; closing the session discards what was not committed. *)
Record AsyncSession : Type := {
  committed : Database;
  pending : Database
}.

Definition open_session (db : Database) : AsyncSession :=
  {| committed := db; pending := db |}.

Definition close_session (s : AsyncSession) : Database := committed s.

Definition commit : M AsyncSession unit :=
  λ s, (Return tt, {| committed := pending s; pending := pending s |}).

Definition with_usage_log (rows : list UsageLog) (db : Database) : Database :=
  {| operation_limits := operation_limits db; usage_log := rows |}.

Definition with_operation_limits (lims : gmap string Z) (db : Database) : Database :=
  {| operation_limits := lims; usage_log := usage_log db |}.

Definition write (f : Database → Database) : M AsyncSession unit :=
  λ s, (Return tt, {| committed := committed s; pending := f (pending s) |}).

(** [select(UsageLog).where(operation == op, log_date == day)]: the
    matching rows with their primary keys, in table order. *)
Definition usage_matches (op : string) (day : Z) (r : UsageLog) : bool :=
  bool_decide (operation r = op) && bool_decide (log_date r = day).

Fixpoint select_usage_from (pk : nat) (op : string) (day : Z)
    (rows : list UsageLog) : list (nat * UsageLog) :=
  match rows with
  | [] => []
  | r :: rows' =>
      if usage_matches op day r
      then (pk, r) :: select_usage_from (S pk) op day rows'
      else select_usage_from (S pk) op day rows'
  end.

Definition select_usage (op : string) (day : Z) (rows : list UsageLog)
    : list (nat * UsageLog) :=
  select_usage_from 0 op day rows.

(** [Result.scalar_one_or_none()]. *)
Definition scalar_one_or_none {A} (rows : list A) : result (option A) :=
  match rows with
  | [] => Return None
  | [r] => Return (Some r)
  | _ :: _ :: _ => Raise MultipleResultsFound
  end.

(** ** LimitService ([limit_service.py]) *)

Definition get_daily_limit (cfg : Settings) (op : string) : M AsyncSession Z :=
  do s <- get;
  match operation_limits (pending s) !! op with
  | Some row => ret row
  | None => ret (DEFAULT_DAILY_LIMIT cfg)
  end.

(** Returns the ORM object as its primary key and its attribute values. *)
Definition _get_or_create_usage (op : string) (today : Z)
    : M AsyncSession (nat * UsageLog) :=
  do s <- get;
  do usage <- lift (scalar_one_or_none (select_usage op today (usage_log (pending s))));
  match usage with
  | Some u => ret u
  | None =>
      let u := {| operation := op; log_date := today;
                  request_count := 0; total_tokens := 0 |} in
      let rows := usage_log (pending s) in
      write (with_usage_log (rows ++ [u])) ;;
      ret (length rows, u)
  end.

Definition store_usage (pk : nat) (u : UsageLog) : M AsyncSession unit :=
  do s <- get;
  write (with_usage_log (<[pk := u]> (usage_log (pending s)))).

Definition check_and_increment (cfg : Settings) (today : Z) (op : string)
    (tokens_used : Z) : M AsyncSession unit :=
  do daily_limit <- get_daily_limit cfg op;
  if bool_decide (daily_limit = 0) then ret tt
  else
    do ' (pk, usage) <- _get_or_create_usage op today;
    if bool_decide (daily_limit ≤ request_count usage)
    then raise (LimitExceededError op (request_count usage) daily_limit)
    else
      store_usage pk {| operation := operation usage;
                        log_date := log_date usage;
                        request_count := request_count usage + 1;
                        total_tokens := total_tokens usage + tokens_used |} ;;
      commit.

(** An INTEGER column of SQLite holds 64 bits, signed, and the driver
    refuses to bind a Python [int] outside that range. *)
Definition sqlite_integer (z : Z) : bool :=
  bool_decide (- 2 ^ 63 ≤ z) && bool_decide (z < 2 ^ 63).

(** [commit] first flushes the changed row with an UPDATE that binds the
    new total: when the total does not fit the column the driver raises
    [OverflowError] and nothing is committed.  The session then takes no
    further statement, and the code only closes it, which keeps
    [committed]. *)
Definition record_tokens (today : Z) (op : string) (tokens : Z)
    : M AsyncSession unit :=
  do ' (pk, usage) <- _get_or_create_usage op today;
  store_usage pk {| operation := operation usage;
                    log_date := log_date usage;
                    request_count := request_count usage;
                    total_tokens := total_tokens usage + tokens |} ;;
  if sqlite_integer (total_tokens usage + tokens) then commit
  else raise OverflowError.

(** [UPDATE operation_limits SET daily_limit = ... WHERE operation = ...]:
    a row is changed when there is one and none is inserted. *)
Definition update_limit (op : string) (daily_limit : Z) : M AsyncSession unit :=
  do s <- get;
  write (with_operation_limits (alter (λ _, daily_limit) op (operation_limits (pending s)))) ;;
  commit.

(** Response schemas of the management interface ([response_schema.py]). *)
Record OperationLimitSchema : Type := {
  limit_operation : string;
  limit_daily_limit : Z;
  max_input_chars : Z;
  max_output_tokens : Z
}.

Record OperationUsage : Type := {
  usage_operation : string;
  usage_date : Z;
  usage_request_count : Z;
  usage_total_tokens : Z;
  usage_daily_limit : Z;
  remaining : Z
}.

(** One entry for every row of [operation_limits]; the order in which the
    database yields the rows is not modelled. *)
Definition get_limits_response (cfg : Settings)
    : M AsyncSession (list OperationLimitSchema) :=
  do s <- get;
  ret ((λ row : string * Z,
          {| limit_operation := row.1;
             limit_daily_limit := row.2;
             max_input_chars := default 0 (MAX_INPUT_CHARS cfg !! row.1);
             max_output_tokens := default 0 (MAX_OUTPUT_TOKENS cfg !! row.1) |})
       <$> map_to_list (operation_limits (pending s))).

Fixpoint usage_rows_response (cfg : Settings) (today : Z) (rows : list UsageLog)
    : M AsyncSession (list OperationUsage) :=
  match rows with
  | [] => ret []
  | row :: rows' =>
      do daily_limit <- get_daily_limit cfg (operation row);
      let remaining :=
        if bool_decide (0 < daily_limit)
        then Z.max 0 (daily_limit - request_count row) else -1 in
      do rest <- usage_rows_response cfg today rows';
      ret ({| usage_operation := operation row;
              usage_date := today;
              usage_request_count := request_count row;
              usage_total_tokens := total_tokens row;
              usage_daily_limit := daily_limit;
              remaining := remaining |} :: rest)
  end.

Definition get_usage_response (cfg : Settings) (today : Z)
    : M AsyncSession (list OperationUsage) :=
  do s <- get;
  usage_rows_response cfg today
    (filter (λ r, log_date r = today) (usage_log (pending s))).

(** [n] sequential calls of [check_and_increment] on one session, each
    outcome recorded; a raise does not stop the later calls.  A call that
    counts the request commits, so the session it leaves is the one a new
    session on the durable database would be. *)
Fixpoint admission_sequence (cfg : Settings) (today : Z) (op : string) (n : nat)
    (s : AsyncSession) : list (result unit) * AsyncSession :=
  match n with
  | O => ([], s)
  | S n' =>
      let '(r, s') := check_and_increment cfg today op 0 s in
      let '(rs, s'') := admission_sequence cfg today op n' s' in
      (r :: rs, s'')
  end.

(** The limit that governs [op] in database [db]: what [get_daily_limit]
    reads. *)
Definition limit_of (cfg : Settings) (db : Database) (op : string) : Z :=
  default (DEFAULT_DAILY_LIMIT cfg) (operation_limits db !! op).

(** The rows of (op, day), without their keys. *)
Definition usage_of (op : string) (day : Z) (db : Database) : list UsageLog :=
  (select_usage op day (usage_log db)).*2.

(** The ledger invariant of the specification: no usage row counts more
    requests than the daily limit of its operation, unless that limit
    is 0. *)
Definition quota_invariant (cfg : Settings) (db : Database) : Prop :=
  ∀ r, r ∈ usage_log db →
    limit_of cfg db (operation r) = 0 ∨
    request_count r ≤ limit_of cfg db (operation r).

(** The management interface accepts limits in 0..100000 only
    ([UpdateLimitRequest.daily_limit], [ge=0]), and the seeded default is
    positive. *)
Definition limits_nonneg (cfg : Settings) (db : Database) : Prop :=
  0 ≤ DEFAULT_DAILY_LIMIT cfg ∧
  ∀ op n, operation_limits db !! op = Some n → 0 ≤ n.

(** Auxiliary values used to state what the service writes. *)
Definition bump (tokens_used : Z) (u : UsageLog) : UsageLog :=
  {| operation := operation u; log_date := log_date u;
     request_count := request_count u + 1;
     total_tokens := total_tokens u + tokens_used |}.

Definition fresh_usage (op : string) (today : Z) : UsageLog :=
  {| operation := op; log_date := today; request_count := 0; total_tokens := 0 |}.

Definition durable (db : Database) : AsyncSession :=
  {| committed := db; pending := db |}.

(** The operations of the quota service, as requests against a session. *)
Inductive quota_op : Type :=
  | CheckAndIncrement (today : Z) (op : string) (tokens_used : Z)
  | RecordTokens (today : Z) (op : string) (tokens : Z)
  | UpdateLimit (op : string) (daily_limit : Z)
  | GetLimitsResponse
  | GetUsageResponse (today : Z).

Definition run_quota_op (cfg : Settings) (o : quota_op) (s : AsyncSession)
    : AsyncSession :=
  match o with
  | CheckAndIncrement today op t => (check_and_increment cfg today op t s).2
  | RecordTokens today op t => (record_tokens today op t s).2
  | UpdateLimit op n => (update_limit op n s).2
  | GetLimitsResponse => (get_limits_response cfg s).2
  | GetUsageResponse today => (get_usage_response cfg today s).2
  end.

(** A limit update keeps the ledger within limits when the new limit is
    0 or no recorded count of the operation is above it. *)
Definition covers_usage (o : quota_op) (s : AsyncSession) : Prop :=
  match o with
  | UpdateLimit op n =>
      0 ≤ n ∧
      (n = 0 ∨ ∀ r, r ∈ usage_log (pending s) → operation r = op → request_count r ≤ n)
  | _ => True
  end.

Definition ledger_ok (cfg : Settings) (s : AsyncSession) : Prop :=
  limits_nonneg cfg (pending s) ∧
  quota_invariant cfg (pending s) ∧
  quota_invariant cfg (committed s).

(** A ledger used in examples: [summarize] limited to 5 a day and used 5
    times on day 20000. *)
Definition ledger_at_limit : Database :=
  {| operation_limits := {["summarize" := 5]};
     usage_log := [{| operation := "summarize"; log_date := 20000;
                      request_count := 5; total_tokens := 120 |}] |}.

(** ** Python strings

    The built-in string methods the service calls, on code points below
    256. *)

Definition py_len (s : string) : Z := Z.of_nat (String.length s).

(** [str.isspace] of one character. *)
Definition py_isspace (c : ascii) : bool :=
  let n := N_of_ascii c in
  ((9 <=? n) && (n <=? 13) || (28 <=? n) && (n <=? 32) || (n =? 133) || (n =? 160))%N.

Fixpoint lstrip_with (p : ascii → bool) (s : string) : string :=
  match s with
  | EmptyString => EmptyString
  | String c s' => if p c then lstrip_with p s' else s
  end.

Definition strip_with (p : ascii → bool) (s : string) : string :=
  String.rev (lstrip_with p (String.rev (lstrip_with p s))).

(** [s.strip()]. *)
Definition py_strip (s : string) : string := strip_with py_isspace s.

Fixpoint char_in (c : ascii) (chars : string) : bool :=
  match chars with
  | EmptyString => false
  | String c' chars' => bool_decide (c = c') || char_in c chars'
  end.

(** [s.strip(chars)]: strips every leading and trailing character that
    occurs in [chars]. *)
Definition py_strip_chars (chars : string) (s : string) : string :=
  strip_with (λ c, char_in c chars) s.

Definition py_lower_char (c : ascii) : ascii :=
  let n := N_of_ascii c in
  if ((65 <=? n) && (n <=? 90) ||
      (192 <=? n) && (n <=? 222) && negb (n =? 215))%N
  then ascii_of_N (n + 32) else c.

(** [s.lower()]. *)
Fixpoint py_lower (s : string) : string :=
  match s with
  | EmptyString => EmptyString
  | String c s' => String (py_lower_char c) (py_lower s')
  end.

(** [s.split(sep)] for a separator of one character. *)
Fixpoint py_split (sep : ascii) (s : string) : list string :=
  match s with
  | EmptyString => [EmptyString]
  | String c s' =>
      if bool_decide (c = sep) then EmptyString :: py_split sep s'
      else match py_split sep s' with
           | [] => [String c EmptyString]
           | w :: ws => String c w :: ws
           end
  end.

(** [sep.join(parts)]. *)
Fixpoint py_join (sep : string) (parts : list string) : string :=
  match parts with
  | [] => EmptyString
  | [p] => p
  | p :: parts' => p +:+ sep +:+ py_join sep parts'
  end.

Definition nl : string := String (ascii_of_N 10) EmptyString.
Definition dquote : string := String (ascii_of_N 34) EmptyString.

(** ** Python values and the runtime

    What [json.loads] can return, and the three library functions the
    classify parser calls on it.  The parser is embedded over any
    [Runtime]; [cpython] further down is the one used to run examples. *)

Inductive pyfloat : Type :=
  | Finite (q : Q)
  | PosInf
  | NegInf
  | NaN.

(** *** Rounding to a double

    A double has 53 bits of mantissa and a binary exponent from -1074;
    an operation on floats yields the double nearest to the exact
    result, a tie going to the one whose mantissa is even. *)

(** [floor (log2 (n / d))] for positive [n] and [d]. *)
Definition floor_log2 (n d : Z) : Z :=
  let k := Z.log2 n - Z.log2 d in
  if (if bool_decide (0 ≤ k) then bool_decide (2 ^ k * d ≤ n)
      else bool_decide (d ≤ n * 2 ^ (- k)))
  then k else k - 1.

(** [n / d] rounded to the nearest integer, a tie to the even one. *)
Definition round_half_even (n d : Z) : Z :=
  let q := n / d in
  let r := n mod d in
  if bool_decide (2 * r < d) then q
  else if bool_decide (d < 2 * r) then q + 1
  else if Z.even q then q else q + 1.

(** The double nearest to [x], with no upper limit on the exponent. *)
Definition round_float (x : Q) : Q :=
  let n := Z.abs (Qnum x) in
  let d := Z.pos (Qden x) in
  if bool_decide (n = 0) then 0%Q
  else
    let e := Z.max (floor_log2 n d - 52) (-1074) in
    let magnitude :=
      if bool_decide (0 ≤ e)
      then inject_Z (round_half_even n (d * 2 ^ e) * 2 ^ e)
      else Qred (round_half_even (n * 2 ^ (- e)) d # Z.to_pos (2 ^ (- e))) in
    if bool_decide (Qnum x < 0) then (- magnitude)%Q else magnitude.

(** The float nearest to [x]: what rounds to 2^1024 or beyond is an
    infinity. *)
Definition binary64 (x : Q) : pyfloat :=
  let r := round_float x in
  if Qle_bool (inject_Z (2 ^ 1024)) r then PosInf
  else if Qle_bool r (- inject_Z (2 ^ 1024)) then NegInf
  else Finite r.

#[local] Set Warnings "-register-all".
Inductive PyValue : Type :=
  | PyNone
  | PyBool (b : bool)
  | PyInt (z : Z)
  | PyFloat (f : pyfloat)
  | PyStr (s : string)
  | PyList (items : list PyValue)
  | PyDict (items : list (string * PyValue)).

Record Runtime : Type := {
  json_loads : string → result PyValue;
  py_str : PyValue → string;
  py_float : PyValue → result pyfloat
}.

(** [d.get(key)] on the items of a dict. *)
Fixpoint dict_get (key : string) (items : list (string * PyValue)) : option PyValue :=
  match items with
  | [] => None
  | (k, v) :: items' => if bool_decide (k = key) then Some v else dict_get key items'
  end.

(** [d[key] = v] on the items of a dict: an existing key keeps its place. *)
Fixpoint dict_set (key : string) (v : PyValue) (items : list (string * PyValue))
    : list (string * PyValue) :=
  match items with
  | [] => [(key, v)]
  | (k, v') :: items' =>
      if bool_decide (k = key) then (k, v) :: items'
      else (k, v') :: dict_set key v items'
  end.

(** [max(0.0, min(1.0, c))].  Python's [min(a, b)] is [b] when [b < a]
    and [a] otherwise, [max(a, b)] is [b] when [b > a] and [a] otherwise,
    and every comparison with NaN is false: the result is finite for
    every [c]. *)
Definition clamp01 (c : pyfloat) : Q :=
  match c with
  | Finite q =>
      let m := if Qlt_le_dec q 1 then q else 1%Q in
      if Qlt_le_dec 0 m then m else 0%Q
  | PosInf => 1%Q
  | NegInf => 0%Q
  | NaN => 1%Q
  end.

Definition and_then {A B} (r : result A) (k : A → result B) : result B :=
  match r with
  | Return a => k a
  | Raise e => Raise e
  end.

Notation "'let!' x := r 'in' k" := (and_then r (λ x, k))
  (at level 10, x name, r at level 100, k at level 200) : py_scope.
Notation "'let!' ' p := r 'in' k" := (and_then r (λ x, match x with p => k end))
  (at level 10, p pattern, r at level 100, k at level 200) : py_scope.

(** [m[key]] on a configuration dict. *)
Definition getitem {V} (m : gmap string V) (key : string) : result V :=
  match m !! key with
  | Some v => Return v
  | None => Raise KeyError
  end.

(** [{k: v for ...}]: later bindings of a key replace earlier ones. *)
Definition dict_of {V} (kvs : list (string * V)) : gmap string V :=
  foldl (λ m kv, <[kv.1 := kv.2]> m) ∅ kvs.

(** ** The classify output parser ([orchestration_service.py]) *)

(** [categories[0]]. *)
Definition first_category (categories : list string) : result string :=
  match categories with
  | c :: _ => Return c
  | [] => Raise IndexError
  end.

Definition strip_fences (raw : string) : string :=
  py_strip (py_strip_chars "```" (py_strip_chars "```json" (py_strip raw))).

Definition lower_map (categories : list string) : gmap string string :=
  dict_of ((λ c, (py_lower c, c)) <$> categories).

(** The body of the [try] block: label and confidence. *)
Definition parse_label (py : Runtime) (raw : string) (categories : list string)
    : result (string * Q) :=
  let cleaned := strip_fences raw in
  let! data := json_loads py cleaned in
  match data with
  | PyDict items =>
      let! c0 := first_category categories in
      let label := py_str py (default (PyStr c0) (dict_get "label" items)) in
      let! confidence :=
        py_float py (default (PyFloat (Finite (1 # 2))) (dict_get "confidence" items)) in
      let confidence := clamp01 confidence in
      match lower_map categories !! py_lower label with
      | None => let! c0 := first_category categories in Return (c0, 1 # 2)
      | Some canonical => Return (canonical, confidence)
      end
  | _ => Raise AttributeError
  end.

(** [except (json.JSONDecodeError, KeyError, TypeError)]. *)
Definition handled_by_parser (e : exn) : bool :=
  match e with
  | JSONDecodeError | KeyError | TypeError => true
  | _ => false
  end.

(** [(1.0 - confidence) / max(len(categories) - 1, 1)]: a float
    subtraction, the conversion of the [int] to a float, and a float
    division.  The confidence lies between 0 and 1 and the divisor is
    below the length of a list, so no operand is near the largest
    double. *)
Definition remainder_share (confidence : Q) (categories : list string) : Q :=
  round_float
    (round_float (1 - confidence)
     / round_float (inject_Z (Z.max (Z.of_nat (length categories) - 1) 1)))%Q.

(** The [try] statement with its handler. *)
Definition guarded_parse (py : Runtime) (raw : string) (categories : list string)
    : result (string * Q) :=
  match parse_label py raw categories with
  | Return lc => Return lc
  | Raise e =>
      if handled_by_parser e
      then let! c0 := first_category categories in Return (c0, 1 # 2)
      else Raise e
  end.

(** The scores dict: every category gets the remainder share, then the
    label gets the confidence. *)
Definition build_scores (label : string) (confidence : Q)
    (categories : list string) : gmap string Q :=
  let remaining := remainder_share confidence categories in
  let scores := dict_of ((λ c, (c, remaining)) <$> categories) in
  <[label := confidence]> scores.

Definition _parse_classify_output (py : Runtime) (raw : string)
    (categories : list string) : result (string * Q * gmap string Q) :=
  let! ' (label, confidence) := guarded_parse py raw categories in
  Return (label, confidence, build_scores label confidence categories).

(** The sum of a score mapping. *)
Definition scores_total (scores : gmap string Q) : Q :=
  map_fold (λ _ v acc, (v + acc)%Q) 0%Q scores.

(** ** A reference runtime

    [cpython] implements the three library functions of [Runtime] for
    running the parser on concrete outputs: [json.loads] by recursive
    descent over the grammar the standard decoder accepts (with its [NaN],
    [Infinity] and [-Infinity] literals), [float] and [str] on the values
    it yields.  A float literal is read as the double nearest to it;
    [\u] escapes above U+00FF denote characters outside the embedding's
    strings and are rejected. *)

Definition is_digit (c : ascii) : bool :=
  let n := N_of_ascii c in ((48 <=? n) && (n <=? 57))%N.

Definition digit_val (c : ascii) : Z := Z.of_N (N_of_ascii c) - 48.

Definition is_json_ws (c : ascii) : bool :=
  let n := N_of_ascii c in ((n =? 32) || (n =? 9) || (n =? 10) || (n =? 13))%N.

Definition skip_ws (s : string) : string := lstrip_with is_json_ws s.

(** Reads a run of digits: its value after [acc], its length, the rest. *)
Fixpoint read_digits (s : string) (acc : Z) (count : nat) : Z * nat * string :=
  match s with
  | String c s' =>
      if is_digit c then read_digits s' (10 * acc + digit_val c) (S count)
      else (acc, count, s)
  | EmptyString => (acc, count, s)
  end.

Definition pow10 (e : Z) : Q :=
  if bool_decide (0 ≤ e) then inject_Z (10 ^ e)
  else (1 # Z.to_pos (10 ^ (- e)))%Q.

(** [mantissa * 10 ^ exponent]. *)
Definition decimal (mantissa exponent : Z) : Q :=
  (inject_Z mantissa * pow10 exponent)%Q.

Fixpoint strip_prefix (p s : string) : option string :=
  match p, s with
  | EmptyString, _ => Some s
  | String a p', String b s' => if bool_decide (a = b) then strip_prefix p' s' else None
  | String _ _, EmptyString => None
  end.

(** A JSON number at the head of [s]: an optional minus, an integer part
    without a leading zero unless it is 0, an optional fraction of at
    least one digit and an optional exponent.  It is an [int] when it has
    neither fraction nor exponent and a [float] otherwise. *)
Definition read_number (s : string) : option (PyValue * string) :=
  let '(negative, s1) :=
    match s with String "-" r => (true, r) | _ => (false, s) end in
  match s1 with
  | String c r =>
      if is_digit c then
        let '(int_part, _, s2) :=
          if bool_decide (c = "0"%char) then (0, 1%nat, r)
          else read_digits s1 0 0 in
        let '(frac, s3) :=
          match s2 with
          | String "." (String d r') =>
              if is_digit d
              then let '(num, cnt, rest) := read_digits (String d r') 0 0 in
                   (Some (num, cnt), rest)
              else (None, s2)
          | _ => (None, s2)
          end in
        let exponent_digits (sign : Z) (t : string) :=
          match t with
          | String d _ =>
              if is_digit d
              then let '(e, _, rest) := read_digits t 0 0 in Some (sign * e, rest)
              else None
          | EmptyString => None
          end in
        let '(expo, s4) :=
          match s3 with
          | String e t =>
              if bool_decide (e = "e"%char) || bool_decide (e = "E"%char) then
                match (match t with
                       | String "+" t' => exponent_digits 1 t'
                       | String "-" t' => exponent_digits (-1) t'
                       | _ => exponent_digits 1 t
                       end) with
                | Some (ev, rest) => (Some ev, rest)
                | None => (None, s3)
                end
              else (None, s3)
          | EmptyString => (None, s3)
          end in
        let sign := if negative : bool then -1 else 1 in
        match frac, expo with
        | None, None => Some (PyInt (sign * int_part), s4)
        | _, _ =>
            let '(num, cnt) := default (0, 0%nat) frac in
            let mantissa := int_part * 10 ^ Z.of_nat cnt + num in
            let q := decimal (sign * mantissa) (default 0 expo - Z.of_nat cnt) in
            Some (PyFloat (binary64 q), s4)
        end
      else None
  | EmptyString => None
  end.

Definition hex_val (c : ascii) : option N :=
  let n := N_of_ascii c in
  if ((48 <=? n) && (n <=? 57))%N then Some (n - 48)%N
  else if ((97 <=? n) && (n <=? 102))%N then Some (n - 87)%N
  else if ((65 <=? n) && (n <=? 70))%N then Some (n - 55)%N
  else None.

(** The body of a JSON string after its opening quote; [acc] holds the
    characters read so far, last first. *)
Fixpoint read_string (s : string) (acc : string) : option (string * string) :=
  match s with
  | EmptyString => None
  | String c r =>
      if bool_decide (c = ascii_of_N 34) then Some (String.rev acc, r)
      else if bool_decide (c = "\"%char) then
        match r with
        | String e r' =>
            let simple (x : N) := read_string r' (String (ascii_of_N x) acc) in
            if bool_decide (e = ascii_of_N 34) then simple 34%N
            else match e with
                 | "\"%char => simple 92%N
                 | "/"%char => simple 47%N
                 | "b"%char => simple 8%N
                 | "f"%char => simple 12%N
                 | "n"%char => simple 10%N
                 | "r"%char => simple 13%N
                 | "t"%char => simple 9%N
                 | "u"%char =>
                     match r' with
                     | String h1 (String h2 (String h3 (String h4 r''))) =>
                         match hex_val h1, hex_val h2, hex_val h3, hex_val h4 with
                         | Some a, Some b, Some c', Some d =>
                             let cp := (((a * 16 + b) * 16 + c') * 16 + d)%N in
                             if (cp <? 256)%N
                             then read_string r'' (String (ascii_of_N cp) acc)
                             else None
                         | _, _, _, _ => None
                         end
                     | _ => None
                     end
                 | _ => None
                 end
        | EmptyString => None
        end
      else if (N_of_ascii c <? 32)%N then None
      else read_string r (String c acc)
  end.

Definition or_decode_error {A} (o : option A) : result A :=
  match o with
  | Some a => Return a
  | None => Raise JSONDecodeError
  end.

(** The elements of an array after its first one is due: [n] bounds
    their number. *)
Fixpoint read_items (read_value : string → result (PyValue * string))
    (n : nat) (s : string) (acc : list PyValue) : result (list PyValue * string) :=
  match n with
  | O => Raise RuntimeError
  | S n' =>
      let! ' (v, rest) := read_value s in
      match skip_ws rest with
      | String "," rest' => read_items read_value n' (skip_ws rest') (acc ++ [v])
      | String "]" rest' => Return (acc ++ [v], rest')
      | _ => Raise JSONDecodeError
      end
  end.

(** The members of an object after its first key is due. *)
Fixpoint read_members (read_value : string → result (PyValue * string))
    (n : nat) (s : string) (acc : list (string * PyValue))
    : result (list (string * PyValue) * string) :=
  match n with
  | O => Raise RuntimeError
  | S n' =>
      match s with
      | String q r =>
          if bool_decide (q = ascii_of_N 34) then
            let! ' (key, rest) := or_decode_error (read_string r EmptyString) in
            match skip_ws rest with
            | String ":" rest1 =>
                let! ' (v, rest2) := read_value (skip_ws rest1) in
                match skip_ws rest2 with
                | String "," rest3 =>
                    read_members read_value n' (skip_ws rest3) (dict_set key v acc)
                | String "}" rest3 => Return (dict_set key v acc, rest3)
                | _ => Raise JSONDecodeError
                end
            | _ => Raise JSONDecodeError
            end
          else Raise JSONDecodeError
      | EmptyString => Raise JSONDecodeError
      end
  end.

(** One JSON value at the head of [s].  [fuel] bounds the nesting and is
    never exhausted when it exceeds the length of [s]; exhausting it
    stands for the interpreter's [RecursionError], a [RuntimeError]. *)
Fixpoint read_value (fuel : nat) (s : string) : result (PyValue * string) :=
  match fuel with
  | O => Raise RuntimeError
  | S fuel' =>
      match s with
      | EmptyString => Raise JSONDecodeError
      | String c r =>
          if bool_decide (c = ascii_of_N 34) then
            let! ' (str, rest) := or_decode_error (read_string r EmptyString) in
            Return (PyStr str, rest)
          else if bool_decide (c = "{"%char) then
            match skip_ws r with
            | String "}" rest => Return (PyDict [], rest)
            | r' =>
                let! ' (items, rest) :=
                  read_members (read_value fuel') (String.length s) r' [] in
                Return (PyDict items, rest)
            end
          else if bool_decide (c = "["%char) then
            match skip_ws r with
            | String "]" rest => Return (PyList [], rest)
            | r' =>
                let! ' (items, rest) :=
                  read_items (read_value fuel') (String.length s) r' [] in
                Return (PyList items, rest)
            end
          else
            match strip_prefix "null" s, strip_prefix "true" s,
                  strip_prefix "false" s with
            | Some rest, _, _ => Return (PyNone, rest)
            | _, Some rest, _ => Return (PyBool true, rest)
            | _, _, Some rest => Return (PyBool false, rest)
            | None, None, None =>
                match read_number s with
                | Some vr => Return vr
                | None =>
                    match strip_prefix "NaN" s, strip_prefix "Infinity" s,
                          strip_prefix "-Infinity" s with
                    | Some rest, _, _ => Return (PyFloat NaN, rest)
                    | _, Some rest, _ => Return (PyFloat PosInf, rest)
                    | _, _, Some rest => Return (PyFloat NegInf, rest)
                    | None, None, None => Raise JSONDecodeError
                    end
                end
            end
      end
  end.

Definition cpython_json_loads (s : string) : result PyValue :=
  let! ' (v, rest) := read_value (S (String.length s)) (skip_ws s) in
  match skip_ws rest with
  | EmptyString => Return v
  | String _ _ => Raise JSONDecodeError
  end.

(** A run of digits in which single underscores may separate digits, as
    [float] accepts it: value after [acc], number of digits, rest. *)
Fixpoint read_digitpart (s : string) (acc : Z) (count : nat) : Z * nat * string :=
  match s with
  | String c s' =>
      if is_digit c then read_digitpart s' (10 * acc + digit_val c) (S count)
      else if bool_decide (c = "_"%char) && negb (Nat.eqb count 0) then
        match s' with
        | String d s'' =>
            if is_digit d then read_digitpart s'' (10 * acc + digit_val d) (S count)
            else (acc, count, s)
        | EmptyString => (acc, count, s)
        end
      else (acc, count, s)
  | EmptyString => (acc, count, s)
  end.

(** [float(s)] on a string; [None] stands for [ValueError]. *)
Definition float_of_str (s : string) : option pyfloat :=
  let s := py_strip s in
  let '(sign, s1) :=
    match s with
    | String "-" r => (-1, r)
    | String "+" r => (1, r)
    | _ => (1, s)
    end in
  let low := py_lower s1 in
  if bool_decide (low = "inf") || bool_decide (low = "infinity")
  then Some (if bool_decide (sign = 1) then PosInf else NegInf)
  else if bool_decide (low = "nan") then Some NaN
  else
    let '(ip, ic, s2) := read_digitpart s1 0 0 in
    let '(fp, fc, s3) :=
      match s2 with
      | String "." r => read_digitpart r 0 0
      | _ => (0, 0%nat, s2)
      end in
    if Nat.eqb (ic + fc) 0 then None
    else
      let '(ev, s4) :=
        match s3 with
        | String e t =>
            if bool_decide (e = "e"%char) || bool_decide (e = "E"%char) then
              let '(esign, t') :=
                match t with
                | String "-" r => (-1, r)
                | String "+" r => (1, r)
                | _ => (1, t)
                end in
              let '(en, ec, rest) := read_digitpart t' 0 0 in
              if Nat.eqb ec 0 then (0, s3) else (esign * en, rest)
            else (0, s3)
        | EmptyString => (0, s3)
        end in
      match s4 with
      | EmptyString =>
          Some (binary64
                  (decimal (sign * (ip * 10 ^ Z.of_nat fc + fp)) (ev - Z.of_nat fc)))
      | String _ _ => None
      end.

(** [float(v)]: an [int] beyond the range of a double overflows. *)
Definition cpython_float (v : PyValue) : result pyfloat :=
  match v with
  | PyFloat f => Return f
  | PyInt z =>
      if bool_decide (Z.abs z < 2 ^ 1024 - 2 ^ 970)
      then Return (Finite (round_float (inject_Z z))) else Raise OverflowError
  | PyBool b => Return (Finite (if b then 1 else 0)%Q)
  | PyStr s =>
      match float_of_str s with
      | Some f => Return f
      | None => Raise ValueError
      end
  | PyNone | PyList _ | PyDict _ => Raise TypeError
  end.

Definition hex_digit (n : N) : ascii :=
  if (n <? 10)%N then ascii_of_N (48 + n) else ascii_of_N (87 + n).

(** One character of [repr(s)] inside quotes [quote]. *)
Definition repr_char (quote c : ascii) : string :=
  let n := N_of_ascii c in
  if bool_decide (c = quote) || bool_decide (c = "\"%char)
  then String "\" (String c EmptyString)
  else if (n =? 10)%N then "\n"
  else if (n =? 13)%N then "\r"
  else if (n =? 9)%N then "\t"
  else if ((n <? 32) || (n =? 127) || (128 <=? n) && (n <=? 160) || (n =? 173))%N
  then String "\" (String "x" (String (hex_digit (n / 16)) (String (hex_digit (n mod 16)) EmptyString)))
  else String c EmptyString.

Fixpoint concat_map_chars (f : ascii → string) (s : string) : string :=
  match s with
  | EmptyString => EmptyString
  | String c s' => f c +:+ concat_map_chars f s'
  end.

(** [repr(s)] of a string: single quotes unless the string holds one and
    no double quote. *)
Definition repr_str (s : string) : string :=
  let quote :=
    if char_in "'"%char s && negb (char_in (ascii_of_N 34) s)
    then ascii_of_N 34 else "'"%char in
  String quote (concat_map_chars (repr_char quote) s +:+ String quote EmptyString).

Fixpoint strip_trailing_zeros (n : nat) (m : Z) : Z :=
  match n with
  | O => m
  | S n' => if bool_decide (m ≠ 0 ∧ m mod 10 = 0) then strip_trailing_zeros n' (m / 10) else m
  end.

Definition zeros (n : Z) : string :=
  foldr (λ _ s, String "0" s) EmptyString (seq 0 (Z.to_nat n)).

(** The decimal point position [p] of a positive rational:
    [10 ^ (p - 1) ≤ n / d < 10 ^ p]. *)
Definition below_pow10 (n d p : Z) : bool :=
  if bool_decide (0 ≤ p) then bool_decide (n < d * 10 ^ p)
  else bool_decide (n * 10 ^ (- p) < d).

Definition decimal_point (n d : Z) : Z :=
  let guess := (Z.log2 n - Z.log2 d) * 30103 / 100000 in
  default (guess + 4)
    (head (filter (λ p, below_pow10 n d p = true)
             ((λ i, guess - 2 + Z.of_nat i) <$> seq 0 7))).

(** The [p] significant digits nearest to [n / d], whose decimal point
    is at [point], with the decimal point of the result. *)
Definition nearest_digits (n d point p : Z) : Z * Z :=
  let k := p - point in
  let m :=
    if bool_decide (0 ≤ k) then round_half_even (n * 10 ^ k) d
    else round_half_even n (d * 10 ^ (- k)) in
  if bool_decide (m = 10 ^ p) then (10 ^ (p - 1), point + 1) else (m, point).

(** The fewest significant digits, at most 17, that read back as the
    double [n / d]. *)
Definition shortest_digits (n d : Z) : Z * Z :=
  let point := decimal_point n d in
  let reads_back (p : Z) :=
    let '(m, point') := nearest_digits n d point p in
    Qeq_bool (round_float (decimal m (point' - p))) (n # Z.to_pos d) in
  let p := default 17 (head (filter (λ p, reads_back p = true)
                               ((λ i, 1 + Z.of_nat i) <$> seq 0 17))) in
  let '(m, point') := nearest_digits n d point p in
  (m * 10 ^ (17 - p), point').

(** [repr(f)] of a float: the shortest digits that read back as [f],
    in positional notation when the decimal point lies within them or
    close, with an exponent otherwise. *)
Definition repr_float (f : pyfloat) : string :=
  match f with
  | PosInf => "inf"
  | NegInf => "-inf"
  | NaN => "nan"
  | Finite q =>
      let n := Z.abs (Qnum q) in
      let d := Z.pos (Qden q) in
      if bool_decide (n = 0) then "0.0"
      else
        let sign := if bool_decide (Qnum q < 0) then "-" else "" in
        let '(m, p) := shortest_digits n d in
        let digits := pretty (strip_trailing_zeros 17 m) in
        let len := py_len digits in
        let body :=
          if bool_decide (-4 < p ≤ 16) then
            if bool_decide (p ≤ 0) then "0." +:+ zeros (- p) +:+ digits
            else if bool_decide (len ≤ p) then digits +:+ zeros (p - len) +:+ ".0"
            else String.substring 0 (Z.to_nat p) digits +:+ "." +:+
                 String.substring (Z.to_nat p) (Z.to_nat (len - p)) digits
          else
            let e := p - 1 in
            String.substring 0 1 digits
            +:+ (if bool_decide (1 < len)
                 then "." +:+ String.substring 1 (Z.to_nat (len - 1)) digits else "")
            +:+ "e" +:+ (if bool_decide (e < 0) then "-" else "+")
            +:+ (if bool_decide (Z.abs e < 10) then "0" else "")
            +:+ pretty (Z.abs e) in
        sign +:+ body
  end.

(** [repr(v)]; [fuel] bounds the nesting of [v]. *)
Fixpoint repr (fuel : nat) (v : PyValue) : string :=
  match v with
  | PyNone => "None"
  | PyBool true => "True"
  | PyBool false => "False"
  | PyInt z => pretty z
  | PyFloat f => repr_float f
  | PyStr s => repr_str s
  | PyList items =>
      match fuel with
      | O => "[...]"
      | S fuel' => "[" +:+ py_join ", " (repr fuel' <$> items) +:+ "]"
      end
  | PyDict items =>
      match fuel with
      | O => "{...}"
      | S fuel' =>
          "{" +:+ py_join ", "
                    ((λ kv : string * PyValue, repr_str kv.1 +:+ ": " +:+ repr fuel' kv.2)
                     <$> items) +:+ "}"
      end
  end.

Fixpoint depth (v : PyValue) : nat :=
  match v with
  | PyList items => S (foldr (λ x n, Nat.max (depth x) n) O items)
  | PyDict items => S (foldr (λ kv n, Nat.max (depth kv.2) n) O items)
  | _ => O
  end.

(** [str(v)]: a string is itself, anything else is its [repr]. *)
Definition cpython_str (v : PyValue) : string :=
  match v with
  | PyStr s => s
  | _ => repr (depth v) v
  end.

Definition decimal_float (mantissa exponent : Z) : pyfloat :=
  binary64 (decimal mantissa exponent).

Definition cpython : Runtime := {|
  json_loads := cpython_json_loads;
  py_str := cpython_str;
  py_float := cpython_float
|}.

(** ** Model registry ([model_registry.py]), one caller at a time

    The tokenizer and the model are opaque handles.  [loaded_at], a
    wall-clock reading, is left out. *)

Definition Any : Type := nat.

Record LoadedModel : Type := {
  folder : string;
  tokenizer : Any;
  model : Any;
  device : string
}.

Record ModelRegistry : Type := {
  _registry : gmap string LoadedModel;
  _locks : gset string
}.

(** The collaborators outside the repository: [ModelLoader.load] as far
    as it reaches the file system and the model library, and
    [InferenceEngine.generate]. *)
Record Backend : Type := {
  load : string → result (Any * Any * string);
  generate : LoadedModel → string → Z → result (string * Z)
}.

Definition _get_lock (model_folder : string) : M ModelRegistry unit :=
  do reg <- get;
  if bool_decide (model_folder ∈ _locks reg) then ret tt
  else put {| _registry := _registry reg; _locks := {[model_folder]} ∪ _locks reg |}.

(** With a single caller the lock is free when asked for and released on
    every way out of the block. *)
Definition get_or_load (be : Backend) (model_folder : string)
    : M ModelRegistry LoadedModel :=
  do reg <- get;
  match _registry reg !! model_folder with
  | Some loaded => ret loaded
  | None =>
      _get_lock model_folder ;;
      do reg <- get;
      match _registry reg !! model_folder with
      | Some loaded => ret loaded
      | None =>
          do ' (tokenizer, model, device) <- lift (load be model_folder);
          let loaded := {| folder := model_folder; tokenizer := tokenizer;
                           model := model; device := device |} in
          do reg <- get;
          put {| _registry := <[model_folder := loaded]> (_registry reg);
                 _locks := _locks reg |} ;;
          ret loaded
      end
  end.

Definition is_loaded (model_folder : string) (reg : ModelRegistry) : bool :=
  bool_decide (is_Some (_registry reg !! model_folder)).

Definition unload (model_folder : string) : M ModelRegistry bool :=
  do reg <- get;
  match _registry reg !! model_folder with
  | None => ret false
  | Some _ =>
      put {| _registry := delete model_folder (_registry reg); _locks := _locks reg |} ;;
      ret true
  end.

(** ** Prompt builders ([inference_engine.py]) *)

Definition build_summarize_prompt (text : string) (max_sentences : Z)
    (language : string) : string :=
  "You are a professional summarization assistant." +:+ nl +:+
  "Summarize the following text in exactly " +:+ pretty max_sentences +:+
  " concise sentence(s). " +:+
  "Write the summary in language code '" +:+ language +:+ "'. " +:+
  "Output only the summary text, nothing else." +:+ nl +:+ nl +:+
  "TEXT:" +:+ nl +:+ text +:+ nl +:+ nl +:+ "SUMMARY:".

Definition build_translate_prompt (text source_lang target_lang : string) : string :=
  "You are a professional translation assistant." +:+ nl +:+
  "Translate the following text from '" +:+ source_lang +:+ "' to '" +:+
  target_lang +:+ "'. " +:+
  "Output only the translated text, nothing else." +:+ nl +:+ nl +:+
  "TEXT:" +:+ nl +:+ text +:+ nl +:+ nl +:+ "TRANSLATION:".

Definition build_classify_prompt (text : string) (categories : list string) : string :=
  let category_list := py_join ", " ((λ c, dquote +:+ c +:+ dquote) <$> categories) in
  "You are a text classification assistant." +:+ nl +:+
  "Classify the following text into exactly one of these categories: " +:+
  category_list +:+ "." +:+ nl +:+
  "Respond with a JSON object only, in this exact format:" +:+ nl +:+
  "{" +:+ dquote +:+ "label" +:+ dquote +:+ ": " +:+ dquote +:+ "<chosen_category>" +:+
  dquote +:+ ", " +:+ dquote +:+ "confidence" +:+ dquote +:+ ": <0.0-1.0>}" +:+ nl +:+ nl +:+
  "TEXT:" +:+ nl +:+ text +:+ nl +:+ nl +:+ "CLASSIFICATION:".

(** ** Request and response schemas

    The fields the orchestrator reads and writes; [execution_time_ms] and
    [timestamp] are wall-clock readings and are left out.  The validators
    of [request_schema.py] run when a request is built, before the
    orchestrator sees it; the orchestrator is embedded on any value of the
    request records, validated or not. *)

Module SummarizeRequest.
Record t : Type := {
  text : string;
  max_sentences : Z;
  language : string;
  request_id : option string
}.
End SummarizeRequest.

Module TranslateRequest.
Record t : Type := {
  text : string;
  source_language : string;
  target_language : string;
  request_id : option string
}.
End TranslateRequest.

Module ClassifyRequest.
Record t : Type := {
  text : string;
  categories : list string;
  request_id : option string
}.
End ClassifyRequest.

Module OperationMeta.
Record t : Type := {
  operation : string;
  model_used : string;
  input_chars : Z;
  output_tokens : Z;
  request_id : option string
}.
End OperationMeta.

Module SummarizeResponse.
Record t : Type := {
  summary : string;
  sentence_count : Z;
  meta : OperationMeta.t
}.
End SummarizeResponse.

Module TranslateResponse.
Record t : Type := {
  translated_text : string;
  source_language : string;
  target_language : string;
  meta : OperationMeta.t
}.
End TranslateResponse.

Module ClassifyResponse.
Record t : Type := {
  label : string;
  confidence : Q;
  scores : gmap string Q;
  meta : OperationMeta.t
}.
End ClassifyResponse.

(** ** The orchestrator ([orchestration_service.py]) *)

(** What a request runs against: its database session and the
    process-wide registry. *)
Record World : Type := {
  session : AsyncSession;
  model_registry : ModelRegistry
}.

Definition in_session {A} (m : M AsyncSession A) : M World A :=
  λ w, let '(r, s) := m (session w) in
       (r, {| session := s; model_registry := model_registry w |}).

Definition in_registry {A} (m : M ModelRegistry A) : M World A :=
  λ w, let '(r, reg) := m (model_registry w) in
       (r, {| session := session w; model_registry := reg |}).

(** [date.today()] is read once at admission and once at token
    accounting. *)
Record Clock : Type := {
  admission_day : Z;
  accounting_day : Z
}.

Definition _get_model_folder (cfg : Settings) (operation : string) : result string :=
  match OPERATION_MODEL_MAP cfg !! operation with
  | Some folder =>
      if bool_decide (folder = EmptyString)
      then Raise (OrchestrationError (NoModelConfigured operation))
      else Return folder
  | None => Raise (OrchestrationError (NoModelConfigured operation))
  end.

Definition _validate_input_length (cfg : Settings) (operation text : string)
    : result unit :=
  let max_chars := default 0 (MAX_INPUT_CHARS cfg !! operation) in
  if bool_decide (max_chars ≠ 0) && bool_decide (max_chars < py_len text)
  then Raise (OrchestrationError
                (InputExceedsHardLimit operation (py_len text) max_chars))
  else Return tt.

(** [InferenceEngine.generate] under [except Exception]. *)
Definition run_inference (be : Backend) (loaded : LoadedModel) (prompt : string)
    (max_new_tokens : Z) : result (string * Z) :=
  match generate be loaded prompt max_new_tokens with
  | Return out => Return out
  | Raise exc => Raise (OrchestrationError (InferenceFailed exc))
  end.

Definition operation_meta (operation model_folder text : string) (token_count : Z)
    (request_id : option string) : OperationMeta.t :=
  {| OperationMeta.operation := operation;
     OperationMeta.model_used := model_folder;
     OperationMeta.input_chars := py_len text;
     OperationMeta.output_tokens := token_count;
     OperationMeta.request_id := request_id |}.

(** In the three pipelines [except LimitExceededError] only logs and
    re-raises, so the admission call stands for the whole [try]. *)
Definition summarize (cfg : Settings) (be : Backend) (clock : Clock)
    (request : SummarizeRequest.t) : M World SummarizeResponse.t :=
  let operation := "summarize" in
  lift (_validate_input_length cfg operation (SummarizeRequest.text request)) ;;
  in_session (check_and_increment cfg (admission_day clock) operation 0) ;;
  do model_folder <- lift (_get_model_folder cfg operation);
  do loaded <- in_registry (get_or_load be model_folder);
  do max_tokens <- lift (getitem (MAX_OUTPUT_TOKENS cfg) operation);
  let prompt :=
    build_summarize_prompt (SummarizeRequest.text request)
      (SummarizeRequest.max_sentences request) (SummarizeRequest.language request) in
  do ' (generated_text, token_count) <- lift (run_inference be loaded prompt max_tokens);
  in_session (record_tokens (accounting_day clock) operation token_count) ;;
  let sentence_count :=
    Z.of_nat (length (filter (λ s, py_strip s ≠ EmptyString)
                        (py_split "."%char generated_text))) in
  ret {| SummarizeResponse.summary := generated_text;
         SummarizeResponse.sentence_count := sentence_count;
         SummarizeResponse.meta :=
           operation_meta operation model_folder (SummarizeRequest.text request)
             token_count (SummarizeRequest.request_id request) |}.

Definition translate (cfg : Settings) (be : Backend) (clock : Clock)
    (request : TranslateRequest.t) : M World TranslateResponse.t :=
  let operation := "translate" in
  lift (_validate_input_length cfg operation (TranslateRequest.text request)) ;;
  in_session (check_and_increment cfg (admission_day clock) operation 0) ;;
  do model_folder <- lift (_get_model_folder cfg operation);
  do loaded <- in_registry (get_or_load be model_folder);
  do max_tokens <- lift (getitem (MAX_OUTPUT_TOKENS cfg) operation);
  let prompt :=
    build_translate_prompt (TranslateRequest.text request)
      (TranslateRequest.source_language request)
      (TranslateRequest.target_language request) in
  do ' (generated_text, token_count) <- lift (run_inference be loaded prompt max_tokens);
  in_session (record_tokens (accounting_day clock) operation token_count) ;;
  ret {| TranslateResponse.translated_text := generated_text;
         TranslateResponse.source_language := TranslateRequest.source_language request;
         TranslateResponse.target_language := TranslateRequest.target_language request;
         TranslateResponse.meta :=
           operation_meta operation model_folder (TranslateRequest.text request)
             token_count (TranslateRequest.request_id request) |}.

Definition classify (cfg : Settings) (py : Runtime) (be : Backend) (clock : Clock)
    (request : ClassifyRequest.t) : M World ClassifyResponse.t :=
  let operation := "classify" in
  lift (_validate_input_length cfg operation (ClassifyRequest.text request)) ;;
  in_session (check_and_increment cfg (admission_day clock) operation 0) ;;
  do model_folder <- lift (_get_model_folder cfg operation);
  do loaded <- in_registry (get_or_load be model_folder);
  do max_tokens <- lift (getitem (MAX_OUTPUT_TOKENS cfg) operation);
  let prompt :=
    build_classify_prompt (ClassifyRequest.text request)
      (ClassifyRequest.categories request) in
  do ' (generated_text, token_count) <- lift (run_inference be loaded prompt max_tokens);
  in_session (record_tokens (accounting_day clock) operation token_count) ;;
  do ' (label, confidence, scores) <-
    lift (_parse_classify_output py generated_text (ClassifyRequest.categories request));
  ret {| ClassifyResponse.label := label;
         ClassifyResponse.confidence := confidence;
         ClassifyResponse.scores := scores;
         ClassifyResponse.meta :=
           operation_meta operation model_folder (ClassifyRequest.text request)
             token_count (ClassifyRequest.request_id request) |}.

(** The steps the three pipelines share, from the hard-limit check to
    token accounting: the model folder, the generated text and its token
    count.  Each pipeline is these steps followed by the assembly of its
    response. *)
Definition run_operation (cfg : Settings) (be : Backend) (clock : Clock)
    (operation text prompt : string) : M World (string * string * Z) :=
  lift (_validate_input_length cfg operation text) ;;
  in_session (check_and_increment cfg (admission_day clock) operation 0) ;;
  do model_folder <- lift (_get_model_folder cfg operation);
  do loaded <- in_registry (get_or_load be model_folder);
  do max_tokens <- lift (getitem (MAX_OUTPUT_TOKENS cfg) operation);
  do ' (generated_text, token_count) <- lift (run_inference be loaded prompt max_tokens);
  in_session (record_tokens (accounting_day clock) operation token_count) ;;
  ret (model_folder, generated_text, token_count).

(** A request to one of the three operations, and its outcome with the
    response payload left aside. *)
Inductive request : Type :=
  | Summarize (r : SummarizeRequest.t)
  | Translate (r : TranslateRequest.t)
  | Classify (r : ClassifyRequest.t).

Definition operation_of (rq : request) : string :=
  match rq with
  | Summarize _ => "summarize"
  | Translate _ => "translate"
  | Classify _ => "classify"
  end.

Definition text_of (rq : request) : string :=
  match rq with
  | Summarize r => SummarizeRequest.text r
  | Translate r => TranslateRequest.text r
  | Classify r => ClassifyRequest.text r
  end.

Inductive response : Type :=
  | Summarized (r : SummarizeResponse.t)
  | Translated (r : TranslateResponse.t)
  | Classified (r : ClassifyResponse.t).

Definition fmap_result {A B} (f : A → B) (r : result A) : result B :=
  match r with
  | Return a => Return (f a)
  | Raise e => Raise e
  end.

(** The route of a request through the orchestrator. *)
Definition handle (cfg : Settings) (py : Runtime) (be : Backend) (clock : Clock)
    (rq : request) (w : World) : result response * World :=
  match rq with
  | Summarize r => let '(out, w') := summarize cfg be clock r w in
                   (fmap_result Summarized out, w')
  | Translate r => let '(out, w') := translate cfg be clock r w in
                   (fmap_result Translated out, w')
  | Classify r => let '(out, w') := classify cfg py be clock r w in
                  (fmap_result Classified out, w')
  end.

Definition prompt_of (rq : request) : string :=
  match rq with
  | Summarize r =>
      build_summarize_prompt (SummarizeRequest.text r)
        (SummarizeRequest.max_sentences r) (SummarizeRequest.language r)
  | Translate r =>
      build_translate_prompt (TranslateRequest.text r)
        (TranslateRequest.source_language r) (TranslateRequest.target_language r)
  | Classify r =>
      build_classify_prompt (ClassifyRequest.text r) (ClassifyRequest.categories r)
  end.

(** The steps of [rq] up to token accounting. *)
Definition steps_of (cfg : Settings) (be : Backend) (clock : Clock) (rq : request)
    : M World (string * string * Z) :=
  run_operation cfg be clock (operation_of rq) (text_of rq) (prompt_of rq).

(** ** Values used in examples *)

Fixpoint repeat_char (c : ascii) (n : nat) : string :=
  match n with
  | O => EmptyString
  | S n' => String c (repeat_char c n')
  end.

(** A backend whose loader always succeeds and whose generation always
    answers [reply] in [tokens] tokens. *)
Definition canned_backend (reply : string) (tokens : Z) : Backend :=
  {| load := λ _, Return (1%nat, 2%nat, "cpu");
     generate := λ _ _ _, Return (reply, tokens) |}.

Definition same_day (day : Z) : Clock :=
  {| admission_day := day; accounting_day := day |}.

Definition fresh_world (db : Database) : World :=
  {| session := open_session db;
     model_registry := {| _registry := ∅; _locks := ∅ |} |}.

(** The source configuration with no model mapped to any operation. *)
Definition settings_without_models : Settings :=
  {| OPERATION_MODEL_MAP := ∅;
     MAX_INPUT_CHARS := MAX_INPUT_CHARS settings;
     MAX_OUTPUT_TOKENS := MAX_OUTPUT_TOKENS settings;
     DEFAULT_DAILY_LIMIT := DEFAULT_DAILY_LIMIT settings |}.

Definition summarize_request (text : string) : request :=
  Summarize {| SummarizeRequest.text := text;
               SummarizeRequest.max_sentences := 5;
               SummarizeRequest.language := "en";
               SummarizeRequest.request_id := None |}.

(** [summarize] unlimited, with two usage rows for the same day, as two
    first requests of a day racing each other leave them. *)
Definition ledger_with_duplicates : Database :=
  {| operation_limits := {["summarize" := 0]};
     usage_log := [{| operation := "summarize"; log_date := 20000;
                      request_count := 0; total_tokens := 7 |};
                   {| operation := "summarize"; log_date := 20000;
                      request_count := 0; total_tokens := 9 |}] |}.

Definition quoted (s : string) : string := dquote +:+ s +:+ dquote.

(** The backend output of the specification's end-to-end scenario. *)
Definition scenario_output : string :=
  "{" +:+ quoted "label" +:+ ":" +:+ quoted "Positive" +:+ "," +:+
  quoted "confidence" +:+ ":0.8}".

(** An object whose confidence is a word. *)
Definition worded_confidence_output : string :=
  "{" +:+ quoted "label" +:+ ": " +:+ quoted "positive" +:+ ", " +:+
  quoted "confidence" +:+ ": " +:+ quoted "high" +:+ "}".


(** ** Model registry, concurrent callers of one key

    The event loop runs one coroutine at a time, from one suspension
    point to the next.  [get_or_load] suspends in two places: queued on
    the lock of its key when the lock is taken or has waiters
    ([asyncio.Lock.acquire]), and on the executor while [ModelLoader.load]
    runs.  What happens between two suspension points is one atomic step.
    The callers of one key share [_registry[key]], [_locks[key]] and
    nothing else, so the state is that of one key; a handle is named by
    the loader invocation that produced it. *)

Inductive caller_state : Type :=
  | Start                      (* called, not yet run *)
  | Waiting                    (* queued on the lock *)
  | Woken                      (* its turn on the lock has come, not yet resumed *)
  | Loading (invocation : nat) (* holds the lock, awaits the executor *)
  | Done (handle : nat)        (* returned this LoadedModel *)
  | Failed.                    (* the loader's exception propagated *)

Record KeyState : Type := {
  resident : option nat;       (* _registry.get(key) *)
  locked : bool;               (* _locks[key].locked() *)
  waiters : list nat;          (* the queue of the lock, first in first *)
  invocations : nat;           (* calls of ModelLoader.load so far *)
  callers : list caller_state      (* the callers *)
}.

Inductive event : Type :=
  | Resume (t : nat)                 (* the loop runs caller [t] *)
  | LoadDone (t : nat) (ok : bool).  (* the executor finished the load of [t] *)

(** [Lock._wake_up_first]. *)
Definition wake_up_first (waiters : list nat) (callers : list caller_state)
    : list caller_state :=
  match waiters with
  | [] => callers
  | t :: _ =>
      match callers !! t with
      | Some Waiting => <[t := Woken]> callers
      | _ => callers
      end
  end.

(** [deque.remove]. *)
Fixpoint remove_first (t : nat) (l : list nat) : list nat :=
  match l with
  | [] => []
  | x :: l' => if bool_decide (x = t) then l' else x :: remove_first t l'
  end.

(** Entering [async with lock] holding the lock: the second look at the
    registry, then either the way out, which releases the lock, or the
    submission of the load. *)
Definition locked_section (t : nat) (waiters : list nat) (k : KeyState) : KeyState :=
  match resident k with
  | Some h =>
      {| resident := Some h; locked := false; waiters := waiters;
         invocations := invocations k;
         callers := wake_up_first waiters (<[t := Done h]> (callers k)) |}
  | None =>
      {| resident := None; locked := true; waiters := waiters;
         invocations := S (invocations k);
         callers := <[t := Loading (invocations k)]> (callers k) |}
  end.

Definition step (e : event) (k : KeyState) : option KeyState :=
  match e with
  | Resume t =>
      match callers k !! t with
      | Some Start =>
          match resident k with
          | Some h =>
              Some {| resident := resident k; locked := locked k;
                      waiters := waiters k; invocations := invocations k;
                      callers := <[t := Done h]> (callers k) |}
          | None =>
              if negb (locked k) && bool_decide (waiters k = [])
              then Some (locked_section t (waiters k) k)
              else Some {| resident := resident k; locked := locked k;
                           waiters := waiters k ++ [t];
                           invocations := invocations k;
                           callers := <[t := Waiting]> (callers k) |}
          end
      | Some Woken => Some (locked_section t (remove_first t (waiters k)) k)
      | _ => None
      end
  | LoadDone t ok =>
      match callers k !! t with
      | Some (Loading id) =>
          Some {| resident := if ok then Some id else resident k;
                  locked := false;
                  waiters := waiters k;
                  invocations := invocations k;
                  callers := wake_up_first (waiters k)
                             (<[t := if ok then Done id else Failed]> (callers k)) |}
      | _ => None
      end
  end.

(** A schedule is a sequence of events, each enabled when its turn
    comes. *)
Fixpoint run (schedule : list event) (k : KeyState) : option KeyState :=
  match schedule with
  | [] => Some k
  | e :: schedule' =>
      match step e k with
      | Some k' => run schedule' k'
      | None => None
      end
  end.

(** [n] concurrent calls for a key that is not resident. *)
Definition concurrent_calls (n : nat) : KeyState :=
  {| resident := None; locked := false; waiters := []; invocations := 0;
     callers := replicate n Start |}.

Definition loader_succeeds (schedule : list event) : Prop :=
  ∀ t, LoadDone t false ∉ schedule.

Definition all_done (k : KeyState) : Prop :=
  ∀ t s, callers k !! t = Some s → ∃ h, s = Done h.

Definition enabled (e : event) (k : KeyState) : Prop := is_Some (step e k).

(** Steps a caller still has to take. *)
Definition weight (s : caller_state) : nat :=
  match s with
  | Start => 3
  | Waiting | Woken => 2
  | Loading _ => 1
  | Done _ | Failed => 0
  end.

Definition total_weight (ts : list caller_state) : nat :=
  foldr (λ s n, (weight s + n)%nat) O ts.

(** What holds of the key between any two steps while the loader
    succeeds. *)
Record key_invariant (k : KeyState) : Prop := {
  loading_holds_lock : ∀ t id, callers k !! t = Some (Loading id) →
    locked k = true ∧ resident k = None ∧ invocations k = 1%nat ∧ id = 0%nat;
  lock_held_by_loader : locked k = true → ∃ t id, callers k !! t = Some (Loading id);
  one_loader : ∀ t1 t2 id1 id2,
    callers k !! t1 = Some (Loading id1) → callers k !! t2 = Some (Loading id2) → t1 = t2;
  resident_is_first : ∀ h, resident k = Some h → h = 0%nat ∧ invocations k = 1%nat;
  idle_never_loaded : resident k = None → locked k = false → invocations k = 0%nat;
  woken_finds_handle : ∀ t, callers k !! t = Some Woken → is_Some (resident k);
  done_has_resident : ∀ t h, callers k !! t = Some (Done h) → resident k = Some h;
  nobody_failed : ∀ t, callers k !! t ≠ Some Failed;
  waiting_is_queued : ∀ t, callers k !! t = Some Waiting → t ∈ waiters k;
  woken_is_first : ∀ t, callers k !! t = Some Woken → ∃ rest, waiters k = t :: rest;
  queue_waits : ∀ t, t ∈ waiters k →
    callers k !! t = Some Waiting ∨ callers k !! t = Some Woken;
  queue_nodup : NoDup (waiters k);
  queue_served : waiters k ≠ [] →
    (∃ t id, callers k !! t = Some (Loading id)) ∨ (∃ t, callers k !! t = Some Woken)
}.

(** Requests served one after the other.  Each request gets a session of
    its own on the durable database ([get_session]), closed when the
    request ends; the registry lives as long as the process. *)
Fixpoint serve (cfg : Settings) (py : Runtime) (be : Backend) (clock : Clock)
    (rqs : list request) (db : Database) (reg : ModelRegistry)
    : list (result response) * Database * ModelRegistry :=
  match rqs with
  | [] => ([], db, reg)
  | rq :: rqs' =>
      let '(out, w') :=
        handle cfg py be clock rq
          {| session := open_session db; model_registry := reg |} in
      let '(outs, db', reg') :=
        serve cfg py be clock rqs' (close_session (session w')) (model_registry w') in
      (out :: outs, db', reg')
  end.

Definition classify_request (text : string) (categories : list string) : request :=
  Classify {| ClassifyRequest.text := text;
              ClassifyRequest.categories := categories;
              ClassifyRequest.request_id := None |}.

(** The label, the confidence and the scores of the listed categories in
    the outcome of a classify request. *)
Definition classified_as (categories : list string) (out : result response)
    : result (string * Q * list (option Q)) :=
  match out with
  | Return (Classified r) =>
      Return (ClassifyResponse.label r, ClassifyResponse.confidence r,
              (λ c, ClassifyResponse.scores r !! c) <$> categories)
  | Return _ => Raise TypeError
  | Raise e => Raise e
  end.

(** * Further code of the service layer *)

(** ** Seeding the limits ([database.py], [init_db])

    [Base.metadata.create_all] makes the two tables when they are missing;
    a [Database] value has both.  The loop then adds a limit row, at the
    default, for every operation of [OPERATION_MODEL_MAP] that has none,
    and commits. *)

Definition seed_limit (cfg : Settings) (op : string) : M AsyncSession unit :=
  do s <- get;
  match operation_limits (pending s) !! op with
  | Some _ => ret tt
  | None =>
      write (with_operation_limits
               (<[op := DEFAULT_DAILY_LIMIT cfg]> (operation_limits (pending s))))
  end.

Fixpoint seed_limits (cfg : Settings) (ops : list string) : M AsyncSession unit :=
  match ops with
  | [] => ret tt
  | op :: ops' => seed_limit cfg op ;; seed_limits cfg ops'
  end.

Definition init_db (cfg : Settings) (db : Database) : Database :=
  close_session
    ((seed_limits cfg (map_to_list (OPERATION_MODEL_MAP cfg)).*1 ;; commit)
       (open_session db)).2.

(** ** Reading the reports of the quota service *)

(** The entry of [get_usage_response] for one usage row. *)
Definition usage_entry (cfg : Settings) (db : Database) (today : Z) (row : UsageLog)
    : OperationUsage :=
  let daily_limit := limit_of cfg db (operation row) in
  {| usage_operation := operation row;
     usage_date := today;
     usage_request_count := request_count row;
     usage_total_tokens := total_tokens row;
     usage_daily_limit := daily_limit;
     remaining := if bool_decide (0 < daily_limit)
                  then Z.max 0 (daily_limit - request_count row) else -1 |}.

(** The usage key, operation and day, that a quota operation writes. *)
Definition written_key (o : quota_op) : option (string * Z) :=
  match o with
  | CheckAndIncrement today op _ | RecordTokens today op _ => Some (op, today)
  | UpdateLimit _ _ | GetLimitsResponse | GetUsageResponse _ => None
  end.

(** How one call of the quota service may change the usage table: not at
    all, by one new row for its key, or by an update of one row of its
    key that keeps the key and raises the count by at most one. *)
Definition log_step (op : string) (day : Z) (rows rows' : list UsageLog) : Prop :=
  rows' = rows ∨
  (∃ x, rows' = rows ++ [x] ∧ operation x = op ∧ log_date x = day) ∨
  (∃ pk u u',
     rows !! pk = Some u ∧ rows' = <[pk := u']> rows ∧
     operation u = op ∧ log_date u = day ∧
     operation u' = op ∧ log_date u' = day ∧
     request_count u ≤ request_count u' ≤ request_count u + 1).

(** The entries of the two reports. *)
Definition usage_report (cfg : Settings) (today : Z) (s : AsyncSession)
    : list OperationUsage :=
  match (get_usage_response cfg today s).1 with
  | Return entries => entries
  | Raise _ => []
  end.

Definition limits_report (cfg : Settings) (s : AsyncSession)
    : list OperationLimitSchema :=
  match (get_limits_response cfg s).1 with
  | Return entries => entries
  | Raise _ => []
  end.

(** ** The rest of the registry ([model_registry.py]) *)

(** The resident folders; their order is not modelled. *)
Definition list_loaded (reg : ModelRegistry) : list string :=
  (map_to_list (_registry reg)).*1.

(** ** The loader ([model_loader.py])

    What [ModelLoader.load] asks of the machine it runs on: whether the
    model library can be imported, which folders exist under the models
    directory, whether a GPU is there, and what the library's two
    constructors answer for a folder (the second one stands for the
    construction of the model in the given precision, its move to the
    device and its switch to evaluation mode). *)
Record Host : Type := {
  transformers_installed : bool;
  model_dirs : gset string;
  cuda_available : bool;
  tokenizer_from_pretrained : string → result Any;
  model_from_pretrained : string → string → result Any
}.

Definition _resolve_model_path (host : Host) (model_folder : string) : result string :=
  if bool_decide (model_folder ∈ model_dirs host) then Return model_folder
  else Raise FileNotFoundError.

Definition _select_device (host : Host) : string :=
  if cuda_available host then "cuda" else "cpu".

Definition ModelLoader_load (host : Host) (model_folder : string)
    : result (Any * Any * string) :=
  if negb (transformers_installed host) then Raise RuntimeError
  else
    let! model_path := _resolve_model_path host model_folder in
    let device := _select_device host in
    let! tokenizer := tokenizer_from_pretrained host model_path in
    let dtype := if bool_decide (device = "cuda") then "float16" else "float32" in
    let! model := model_from_pretrained host model_path dtype in
    Return (tokenizer, model, device).

(** The backend of a host: its loader, and a generation function. *)
Definition backend_of (host : Host)
    (generate : LoadedModel → string → Z → result (string * Z)) : Backend :=
  {| load := ModelLoader_load host; generate := generate |}.

(** ** Health ([health_check.py])

    The part of the health report that depends on the platform: the
    status of each configured model and the overall status.  Memory, CPU
    and uptime are readings of the machine.  The path of a model is
    given by its folder under the models directory. *)
Record ModelStatus : Type := {
  status_name : string;
  status_loaded : bool;
  status_path : string
}.

(** One status for every entry of the operation-to-model map; the order
    of the entries is not modelled. *)
Definition _collect_model_statuses (cfg : Settings) (reg : ModelRegistry)
    : list ModelStatus :=
  (λ entry : string * string,
     {| status_name := entry.1 +:+ " (" +:+ entry.2 +:+ ")";
        status_loaded := is_loaded entry.2 reg;
        status_path := entry.2 |})
  <$> map_to_list (OPERATION_MODEL_MAP cfg).

Definition get_health (cfg : Settings) (reg : ModelRegistry) : string * list ModelStatus :=
  let model_statuses := _collect_model_statuses cfg reg in
  let all_loaded := forallb status_loaded model_statuses in
  (if all_loaded then "healthy" else "degraded", model_statuses).

(** ** Reading a usage row, and the end of a pipeline *)

(** The request count and the token total of (op, day): those of its
    first row, 0 when it has none. *)
Definition count_of (op : string) (day : Z) (db : Database) : Z :=
  default 0 (request_count <$> head (usage_of op day db)).

Definition tokens_of (op : string) (day : Z) (db : Database) : Z :=
  default 0 (total_tokens <$> head (usage_of op day db)).

Definition request_id_of (rq : request) : option string :=
  match rq with
  | Summarize r => SummarizeRequest.request_id r
  | Translate r => TranslateRequest.request_id r
  | Classify r => ClassifyRequest.request_id r
  end.

(** What each pipeline does after token accounting: the assembly of its
    response from the model folder, the generated text and its token
    count. *)
Definition assemble (py : Runtime) (rq : request) (model_folder generated_text : string)
    (token_count : Z) : result response :=
  let meta :=
    operation_meta (operation_of rq) model_folder (text_of rq) token_count
      (request_id_of rq) in
  match rq with
  | Summarize r =>
      let sentence_count :=
        Z.of_nat (length (filter (λ s, py_strip s ≠ EmptyString)
                            (py_split "."%char generated_text))) in
      Return (Summarized {| SummarizeResponse.summary := generated_text;
                            SummarizeResponse.sentence_count := sentence_count;
                            SummarizeResponse.meta := meta |})
  | Translate r =>
      Return (Translated
                {| TranslateResponse.translated_text := generated_text;
                   TranslateResponse.source_language := TranslateRequest.source_language r;
                   TranslateResponse.target_language := TranslateRequest.target_language r;
                   TranslateResponse.meta := meta |})
  | Classify r =>
      let! ' (label, confidence, scores) :=
        _parse_classify_output py generated_text (ClassifyRequest.categories r) in
      Return (Classified {| ClassifyResponse.label := label;
                            ClassifyResponse.confidence := confidence;
                            ClassifyResponse.scores := scores;
                            ClassifyResponse.meta := meta |})
  end.

(** ** The operation routes ([routes_operations.py])

    The three routes are the same function but for the pipeline they
    call: the pipeline runs on a session of its own ([get_session]); its
    response is answered with status 200, and an exception is turned
    into a status by [_handle_operation_errors]. *)
Definition _handle_operation_errors (exc : exn) : Z :=
  match exc with
  | LimitExceededError _ _ _ => 429
  | OrchestrationError _ => 422
  | _ => 500
  end.

Definition operation_route (cfg : Settings) (py : Runtime) (be : Backend) (clock : Clock)
    (body : request) (db : Database) (reg : ModelRegistry)
    : (Z * option response) * Database * ModelRegistry :=
  let '(out, w') :=
    handle cfg py be clock body {| session := open_session db; model_registry := reg |} in
  (match out with
   | Return r => (200, Some r)
   | Raise exc => (_handle_operation_errors exc, None)
   end,
   close_session (session w'), model_registry w').

(** ** Validation of the request bodies ([request_schema.py])

    A request body is validated field by field: the constraints of the
    [Field] first, then the validators of the field in the order they
    are defined.  A failure is a validation error, which is a
    [ValueError]. *)

(** A [str] field with [min_length] and [max_length]. *)
Definition str_field (min_length max_length : Z) (value : string) : result string :=
  if bool_decide (min_length ≤ py_len value ≤ max_length) then Return value
  else Raise ValueError.

Definition text_must_not_be_whitespace_only (value : string) : result string :=
  if bool_decide (py_strip value = EmptyString) then Raise ValueError
  else Return (py_strip value).

(** The [text] field of a request with the bounds of its [Field]. *)
Definition text_field (min_length max_length : Z) (value : string) : result string :=
  let! value := str_field min_length max_length value in
  text_must_not_be_whitespace_only value.

Definition SUPPORTED_LANGUAGES : gset string :=
  {[ "en"; "ar"; "fr"; "de"; "es"; "zh"; "ja"; "ko"; "ru"; "pt" ]}.

Definition language_must_be_supported (value : string) : result string :=
  if bool_decide (value ∈ SUPPORTED_LANGUAGES) then Return value
  else Raise ValueError.

(** [data] holds the fields validated so far. *)
Definition languages_must_differ (data : gmap string string) (target : string)
    : result string :=
  match data !! "source_language" with
  | Some source =>
      if bool_decide (source ≠ EmptyString) && bool_decide (source = target)
      then Raise ValueError
      else Return target
  | None => Return target
  end.

Definition categories_must_be_unique_and_non_empty (values : list string)
    : result (list string) :=
  let cleaned := py_strip <$> filter (λ c, py_strip c ≠ EmptyString) values in
  if bool_decide (length cleaned < 2)%nat then Raise ValueError
  else if bool_decide
            (length cleaned ≠ size (list_to_set (py_lower <$> cleaned) : gset string))
  then Raise ValueError
  else Return cleaned.

(** The [request_id] field of every request: optional, at most 64
    characters. *)
Definition request_id_field (value : option string) : result (option string) :=
  match value with
  | None => Return None
  | Some id => if bool_decide (py_len id ≤ 64) then Return (Some id) else Raise ValueError
  end.

(** The [categories] field: a list of 2 to 20 strings, then its
    validator. *)
Definition categories_field (values : list string) : result (list string) :=
  if bool_decide (2 ≤ length values ≤ 20)%nat
  then categories_must_be_unique_and_non_empty values
  else Raise ValueError.

(** [TranslateRequest(...)].  Every supported language matches the
    pattern of the two language fields, so the pattern refuses nothing
    that [language_must_be_supported] accepts.  The target language is
    validated when the fields before it have been, and sees the source
    language if that one was valid. *)
Definition TranslateRequest_validate (request_id : option string)
    (text source_language target_language : string) : result TranslateRequest.t :=
  let id' := request_id_field request_id in
  let text' := text_field 1 4000 text in
  let source' := language_must_be_supported source_language in
  let data : gmap string string :=
    match source' with
    | Return source => {["source_language" := source]}
    | Raise _ => ∅
    end in
  let target' :=
    let! target := language_must_be_supported target_language in
    languages_must_differ data target in
  match id', text', source', target' with
  | Return id, Return text, Return source, Return target =>
      Return {| TranslateRequest.text := text;
                TranslateRequest.source_language := source;
                TranslateRequest.target_language := target;
                TranslateRequest.request_id := id |}
  | _, _, _, _ => Raise ValueError
  end.

(** [ClassifyRequest(...)]. *)
Definition ClassifyRequest_validate (request_id : option string)
    (text : string) (categories : list string) : result ClassifyRequest.t :=
  let id' := request_id_field request_id in
  let text' := text_field 1 2000 text in
  let categories' := categories_field categories in
  match id', text', categories' with
  | Return id, Return text, Return categories =>
      Return {| ClassifyRequest.text := text;
                ClassifyRequest.categories := categories;
                ClassifyRequest.request_id := id |}
  | _, _, _ => Raise ValueError
  end.

(** [UpdateLimitRequest(...)]: one of the three operation names, and a
    limit from 0 to 100000. *)
Module UpdateLimitRequest.
Record t : Type := {
  operation : string;
  daily_limit : Z
}.
End UpdateLimitRequest.

Definition UpdateLimitRequest_validate (operation : string) (daily_limit : Z)
    : result UpdateLimitRequest.t :=
  if bool_decide (operation ∈ ["summarize"; "translate"; "classify"])
     && bool_decide (0 ≤ daily_limit ≤ 100000)
  then Return {| UpdateLimitRequest.operation := operation;
                 UpdateLimitRequest.daily_limit := daily_limit |}
  else Raise ValueError.

(** ** The limit routes ([routes_limits.py]) *)

(** [PUT /limits]: the update, then the limits report, on one session. *)
Module routes_limits.
Definition update_limit (cfg : Settings) (body : UpdateLimitRequest.t) (db : Database)
    : list OperationLimitSchema * Database :=
  let '(_, s1) :=
    update_limit (UpdateLimitRequest.operation body)
      (UpdateLimitRequest.daily_limit body) (open_session db) in
  (limits_report cfg s1, close_session s1).
End routes_limits.

(** ** Fenced model output *)

(** A model output wrapped in a Markdown code fence with an optional
    language tag, and a JSON object with its braces. *)
Definition fenced (lang body : string) : string :=
  "```" +:+ lang +:+ nl +:+ body +:+ nl +:+ "```".

Definition braced (mid : string) : string := "{" +:+ mid +:+ "}".

Fixpoint all_chars (p : ascii → bool) (s : string) : bool :=
  match s with
  | EmptyString => true
  | String c s' => p c && all_chars p s'
  end.

(** ** Callers of one key when loads may fail *)

(** The callers whose own load failed. *)
Definition failed (s : caller_state) : nat :=
  match s with
  | Failed => 1
  | _ => 0
  end.

Definition failures (ts : list caller_state) : nat :=
  foldr (λ s n, (failed s + n)%nat) O ts.

(** Whether a handle is registered. *)
Definition registered (r : option nat) : nat :=
  match r with
  | Some _ => 1
  | None => 0
  end.

(** Every caller has returned or raised. *)
Definition all_finished (k : KeyState) : Prop :=
  ∀ t s, callers k !! t = Some s → s = Failed ∨ ∃ h, s = Done h.

(** What holds of the key between any two steps, whether loads succeed
    or fail. *)
Record retry_invariant (k : KeyState) : Prop := {
  loader_holds_lock : ∀ t id, callers k !! t = Some (Loading id) →
    locked k = true ∧ resident k = None ∧ invocations k = S id;
  lock_has_loader : locked k = true → ∃ t id, callers k !! t = Some (Loading id);
  single_loader : ∀ t1 t2 id1 id2,
    callers k !! t1 = Some (Loading id1) → callers k !! t2 = Some (Loading id2) → t1 = t2;
  returned_resident : ∀ t h, callers k !! t = Some (Done h) → resident k = Some h;
  woken_has_turn : ∀ t, callers k !! t = Some Woken →
    locked k = false ∧ ∃ rest, waiters k = t :: rest;
  waiting_in_queue : ∀ t, callers k !! t = Some Waiting → t ∈ waiters k;
  queue_is_waiting : ∀ t, t ∈ waiters k →
    callers k !! t = Some Waiting ∨ callers k !! t = Some Woken;
  queue_no_dup : NoDup (waiters k);
  queue_moves : waiters k ≠ [] → locked k = true ∨ ∃ t, callers k !! t = Some Woken;
  loads_accounted :
    invocations k =
    (failures (callers k) + (if locked k then 1 else 0)
     + registered (resident k))%nat
}.

(** * Properties *)

(** ** The reference runtime on sample outputs *)

Example strip_fences_fenced :
  strip_fences ("```json" +:+ nl +:+ "{}" +:+ nl +:+ "```") = "{}".
Proof. reflexivity. Qed.

(** [str.strip] takes a set of characters, not a prefix. *)
Example strip_fences_takes_letters : strip_fences "null" = "ull".
Proof. reflexivity. Qed.

Example loads_scenario_output :
  cpython_json_loads scenario_output =
  Return (PyDict [("label", PyStr "Positive");
                  ("confidence", PyFloat (decimal_float 8 (-1)))]).
Proof. vm_compute. reflexivity. Qed.

Example loads_nested :
  cpython_json_loads " [1, -2.5, true, null, {}, [[]]] " =
  Return (PyList [PyInt 1; PyFloat (Finite (-5 # 2)); PyBool true; PyNone;
                  PyDict []; PyList [PyList []]]).
Proof. vm_compute. reflexivity. Qed.

Example loads_rejects :
  (λ s, cpython_json_loads s) <$> ["nonsense"; "[1,]"; "01"; "1."; "{} {}"; ""] =
  replicate 6 (Raise JSONDecodeError).
Proof. reflexivity. Qed.

Example float_of_values :
  cpython_float <$> [PyStr " 1_000.5e-1 "; PyStr "high"; PyStr "-INF"; PyNone;
                     PyBool true; PyList []] =
  [Return (decimal_float 10005 (-2)); Raise ValueError; Return NegInf; Raise TypeError;
   Return (Finite 1); Raise TypeError].
Proof. vm_compute. reflexivity. Qed.

Example str_of_values :
  cpython_str <$> [PyStr "Positive"; PyInt (-5); PyNone; PyBool true;
                   PyFloat (decimal_float 8 (-1)); PyFloat (Finite 1);
                   PyFloat (decimal_float 1 22); PyList [PyInt 1; PyStr "a"]] =
  ["Positive"; "-5"; "None"; "True"; "0.8"; "1.0"; "1e+22"; "[1, 'a']"].
Proof. vm_compute. reflexivity. Qed.

(** Floats round: [1.0 - 0.8] is not [0.2], and a third of [0.5] is not
    a sixth. *)
Example float_arithmetic_rounds :
  repr_float <$> [Finite (round_float (1 - round_float (8 # 10)));
                  Finite (round_float ((1 # 2) / 3));
                  decimal_float 1 (-1); decimal_float 123456789012345678 0;
                  decimal_float 1 (-5); decimal_float 5 (-324); decimal_float 1 400] =
  ["0.19999999999999996"; "0.16666666666666666"; "0.1"; "1.2345678901234568e+17";
   "1e-05"; "5e-324"; "inf"].
Proof. vm_compute. reflexivity. Qed.

(** ** Selecting usage rows *)

Lemma select_usage_from_app pk op day rows1 rows2 :
  select_usage_from pk op day (rows1 ++ rows2) =
  select_usage_from pk op day rows1 ++
  select_usage_from (pk + length rows1) op day rows2.
Proof.
  revert pk. induction rows1 as [|r rows1 IH]; intros pk; simpl.
  - by rewrite Nat.add_0_r.
  - rewrite IH, Nat.add_succ_comm. by destruct (usage_matches op day r).
Qed.

Lemma select_usage_from_elem pk op day rows i r :
  (i, r) ∈ select_usage_from pk op day rows →
  (pk ≤ i)%nat ∧ rows !! (i - pk)%nat = Some r ∧ usage_matches op day r = true.
Proof.
  revert pk. induction rows as [|r0 rows IH]; intros pk; simpl.
  - by intros ?%elem_of_nil.
  - destruct (usage_matches op day r0) eqn:Hm.
    + intros [Heq|Hin]%elem_of_cons.
      * injection Heq as -> ->. by rewrite Nat.sub_diag.
      * destruct (IH _ Hin) as (Hle & Hlk & Hr).
        replace (i - pk)%nat with (S (i - S pk)) by lia. auto with lia.
    + intros Hin. destruct (IH _ Hin) as (Hle & Hlk & Hr).
      replace (i - pk)%nat with (S (i - S pk)) by lia. auto with lia.
Qed.

Lemma select_usage_elem op day rows i r :
  (i, r) ∈ select_usage op day rows →
  rows !! i = Some r ∧ usage_matches op day r = true.
Proof.
  intros (_ & Hlk & Hm)%select_usage_from_elem.
  by rewrite Nat.sub_0_r in Hlk.
Qed.

Lemma select_usage_from_insert pk op day rows j r u :
  select_usage_from pk op day rows = [(j, r)] →
  usage_matches op day u = true →
  select_usage_from pk op day (<[(j - pk)%nat := u]> rows) = [(j, u)].
Proof.
  revert pk. induction rows as [|r0 rows IH]; intros pk; simpl; [done|].
  destruct (usage_matches op day r0) eqn:Hm; intros Hsel Hu.
  - injection Hsel as -> -> Hnil.
    rewrite Nat.sub_diag. simpl. by rewrite Hu, Hnil.
  - assert ((j, r) ∈ select_usage_from (S pk) op day rows) as Hin
      by (rewrite Hsel; apply list_elem_of_singleton; done).
    apply select_usage_from_elem in Hin as (Hle & _ & _).
    replace (j - pk)%nat with (S (j - S pk)) by lia. simpl.
    rewrite Hm. by apply IH.
Qed.

Lemma select_usage_insert op day rows j r u :
  select_usage op day rows = [(j, r)] →
  usage_matches op day u = true →
  select_usage op day (<[j := u]> rows) = [(j, u)].
Proof.
  intros Hsel Hu. unfold select_usage.
  rewrite <-(Nat.sub_0_r j) at 1. by eapply select_usage_from_insert.
Qed.

Lemma select_usage_snoc op day rows u :
  select_usage op day rows = [] →
  usage_matches op day u = true →
  select_usage op day (rows ++ [u]) = [(length rows, u)].
Proof.
  intros Hsel Hu. unfold select_usage in *.
  rewrite select_usage_from_app, Hsel. simpl. by rewrite Hu.
Qed.

Lemma usage_matches_new op day n t :
  usage_matches op day
    {| operation := op; log_date := day; request_count := n; total_tokens := t |}
  = true.
Proof. unfold usage_matches. simpl. by rewrite !bool_decide_eq_true_2. Qed.

Lemma usage_matches_keys op day r :
  usage_matches op day r = true → operation r = op ∧ log_date r = day.
Proof.
  unfold usage_matches.
  intros [?%bool_decide_eq_true ?%bool_decide_eq_true]%andb_true_iff. done.
Qed.

Lemma insert_snoc_last {A} (l : list A) (x y : A) :
  <[length l := y]> (l ++ [x]) = l ++ [y].
Proof.
  rewrite <-(Nat.add_0_r (length l)). by rewrite insert_app_r.
Qed.

(** ** [check_and_increment], case by case *)

Lemma get_daily_limit_eq cfg op s :
  get_daily_limit cfg op s = (Return (limit_of cfg (pending s) op), s).
Proof.
  unfold get_daily_limit, limit_of, bind, get, ret.
  by destruct (operation_limits (pending s) !! op).
Qed.

Lemma check_and_increment_unlimited cfg today op t s :
  limit_of cfg (pending s) op = 0 →
  check_and_increment cfg today op t s = (Return tt, s).
Proof.
  intros Hlim. unfold check_and_increment, bind at 1.
  rewrite get_daily_limit_eq, Hlim. by rewrite bool_decide_eq_true_2.
Qed.

Lemma check_and_increment_first cfg today op t s :
  0 < limit_of cfg (pending s) op →
  select_usage op today (usage_log (pending s)) = [] →
  check_and_increment cfg today op t s =
  (Return tt,
   durable (with_usage_log (usage_log (pending s) ++ [bump t (fresh_usage op today)])
              (pending s))).
Proof.
  intros Hlim Hsel. unfold check_and_increment, bind at 1.
  rewrite get_daily_limit_eq. rewrite bool_decide_eq_false_2 by lia.
  unfold _get_or_create_usage, bind, get, lift, write, ret, store_usage, commit, raise.
  rewrite Hsel. simpl.
  rewrite bool_decide_eq_false_2 by lia. simpl.
  unfold durable, with_usage_log. simpl. by rewrite insert_snoc_last.
Qed.

Lemma check_and_increment_again cfg today op t s pk u :
  limit_of cfg (pending s) op ≠ 0 →
  select_usage op today (usage_log (pending s)) = [(pk, u)] →
  request_count u < limit_of cfg (pending s) op →
  check_and_increment cfg today op t s =
  (Return tt,
   durable (with_usage_log (<[pk := bump t u]> (usage_log (pending s))) (pending s))).
Proof.
  intros Hlim Hsel Hlt. unfold check_and_increment, bind at 1.
  rewrite get_daily_limit_eq. rewrite bool_decide_eq_false_2 by done.
  unfold _get_or_create_usage, bind, get, lift, write, ret, store_usage, commit, raise.
  rewrite Hsel. simpl.
  by rewrite bool_decide_eq_false_2 by lia.
Qed.

Lemma check_and_increment_exceeded cfg today op t s pk u :
  limit_of cfg (pending s) op ≠ 0 →
  select_usage op today (usage_log (pending s)) = [(pk, u)] →
  limit_of cfg (pending s) op ≤ request_count u →
  check_and_increment cfg today op t s =
  (Raise (LimitExceededError op (request_count u) (limit_of cfg (pending s) op)), s).
Proof.
  intros Hlim Hsel Hle. unfold check_and_increment, bind at 1.
  rewrite get_daily_limit_eq. rewrite bool_decide_eq_false_2 by done.
  unfold _get_or_create_usage, bind, get, lift, write, ret, store_usage, commit, raise.
  rewrite Hsel. simpl.
  by rewrite bool_decide_eq_true_2 by lia.
Qed.

(** ** Sequential admission up to the limit *)

Lemma admission_sequence_below cfg today op L n :
  L ≠ 0 →
  ∀ s pk u,
    limit_of cfg (pending s) op = L →
    select_usage op today (usage_log (pending s)) = [(pk, u)] →
    request_count u + Z.of_nat n ≤ L →
    ∃ s' u',
      admission_sequence cfg today op n s = (replicate n (Return tt), s') ∧
      limit_of cfg (pending s') op = L ∧
      select_usage op today (usage_log (pending s')) = [(pk, u')] ∧
      request_count u' = request_count u + Z.of_nat n.
Proof.
  intros HL0. induction n as [|n IH]; intros s pk u HL Hsel Hle.
  - exists s, u. simpl. repeat split; [done..|lia].
  - assert (usage_matches op today u = true) as Hm.
    { eapply select_usage_elem. rewrite Hsel. by apply list_elem_of_singleton. }
    destruct (usage_matches_keys _ _ _ Hm) as [Hop Hday].
    assert (limit_of cfg (pending s) op ≠ 0) as Hnz.
    { by rewrite HL. }
    destruct (Z_lt_le_dec (request_count u) L) as [Hlt|Hge]; [|lia].
    set (s1 := durable (with_usage_log (<[pk := bump 0 u]> (usage_log (pending s)))
                         (pending s))).
    destruct (IH s1 pk (bump 0 u)) as (s' & u' & Hrun & HL' & Hsel' & Hcnt).
    + done.
    + simpl. eapply select_usage_insert; [done|].
      unfold usage_matches, bump. simpl. by rewrite Hop, Hday, !bool_decide_eq_true_2.
    + simpl. lia.
    + exists s', u'. simpl.
      rewrite (check_and_increment_again _ _ _ _ _ pk u) by (done || lia).
      fold s1. rewrite Hrun. repeat split; [done..|]. rewrite Hcnt. simpl. lia.
Qed.

Lemma admission_sequence_app cfg today op n m s :
  admission_sequence cfg today op (n + m) s =
  let '(rs, s') := admission_sequence cfg today op n s in
  let '(rs', s'') := admission_sequence cfg today op m s' in
  (rs ++ rs', s'').
Proof.
  revert s. induction n as [|n IH]; intros s; simpl.
  - by destruct (admission_sequence cfg today op m s).
  - destruct (check_and_increment cfg today op 0 s) as [r s1].
    rewrite IH. destruct (admission_sequence cfg today op n s1) as [rs s2].
    by destruct (admission_sequence cfg today op m s2).
Qed.

Lemma admission_sequence_S cfg today op n s :
  admission_sequence cfg today op (S n) s =
  let '(r, s') := check_and_increment cfg today op 0 s in
  let '(rs, s'') := admission_sequence cfg today op n s' in
  (r :: rs, s'').
Proof. reflexivity. Qed.

Lemma usage_of_nil op day db :
  usage_of op day db = [] → select_usage op day (usage_log db) = [].
Proof. unfold usage_of. apply fmap_nil_inv. Qed.

Lemma admission_sequence_to_limit cfg today op (N : nat) s :
  (0 < N)%nat →
  limit_of cfg (pending s) op = Z.of_nat N →
  select_usage op today (usage_log (pending s)) = [] →
  (admission_sequence cfg today op (S N) s).1 =
  replicate N (Return tt) ++
  [Raise (LimitExceededError op (Z.of_nat N) (Z.of_nat N))].
Proof.
  intros HN Hlim Hnone.
  destruct N as [|k]; [lia|].
  rewrite admission_sequence_S.
  rewrite check_and_increment_first by (done || lia).
  set (u1 := bump 0 (fresh_usage op today)).
  set (s1 := durable _).
  replace (S k) with (k + 1)%nat by lia. rewrite admission_sequence_app.
  destruct (admission_sequence_below cfg today op (Z.of_nat (S k)) k ltac:(lia)
              s1 (length (usage_log (pending s))) u1)
    as (s2 & u2 & Hrun & HL2 & Hsel2 & Hcnt2).
  - done.
  - simpl. apply select_usage_snoc; [done|]. apply usage_matches_new.
  - simpl. lia.
  - rewrite Hrun. cbn [admission_sequence].
    assert (request_count u2 = Z.of_nat (k + 1)) as Hcnt.
    { rewrite Hcnt2. subst u1. simpl. lia. }
    rewrite (check_and_increment_exceeded _ _ _ _ _ _ u2 ltac:(rewrite HL2; lia) Hsel2)
      by (rewrite HL2; lia).
    rewrite HL2, Hcnt. simpl.
    replace (k + 1)%nat with (S k) by lia. simpl.
    done.
Qed.

(** C1.  With daily limit N > 0 and no usage row yet for the operation
    today, N + 1 sequential calls of [check_and_increment] give N normal
    returns followed by [LimitExceededError] carrying the operation,
    used = N and limit = N. *)
Theorem first_N_admissions_then_exceeded cfg today op (N : nat) s :
  (0 < N)%nat →
  (get_daily_limit cfg op s).1 = Return (Z.of_nat N) →
  usage_of op today (pending s) = [] →
  (admission_sequence cfg today op (S N) s).1 =
  replicate N (Return tt) ++
  [Raise (LimitExceededError op (Z.of_nat N) (Z.of_nat N))].
Proof.
  intros HN Hlim Hnone%usage_of_nil.
  rewrite get_daily_limit_eq in Hlim. simpl in Hlim. injection Hlim as Hlim.
  by apply admission_sequence_to_limit.
Qed.

Lemma first_N_admissions_then_exceeded_witness :
  (admission_sequence settings 20000 "classify" 3
     (open_session {| operation_limits := {["classify" := 2]}; usage_log := [] |})).1 =
  [Return tt; Return tt; Raise (LimitExceededError "classify" 2 2)].
Proof.
  apply (first_N_admissions_then_exceeded settings 20000 "classify" 2); [lia|reflexivity|reflexivity].
Defined.

(** ** Fetching or creating today's row *)

Lemma get_or_create_usage_new op today s :
  select_usage op today (usage_log (pending s)) = [] →
  _get_or_create_usage op today s =
  (Return (length (usage_log (pending s)), fresh_usage op today),
   {| committed := committed s;
      pending := with_usage_log (usage_log (pending s) ++ [fresh_usage op today])
                   (pending s) |}).
Proof.
  intros Hsel. unfold _get_or_create_usage, bind, get, lift, write, ret.
  by rewrite Hsel.
Qed.

Lemma get_or_create_usage_found op today s pk u :
  select_usage op today (usage_log (pending s)) = [(pk, u)] →
  _get_or_create_usage op today s = (Return (pk, u), s).
Proof.
  intros Hsel. unfold _get_or_create_usage, bind, get, lift, write, ret.
  by rewrite Hsel.
Qed.

Lemma get_or_create_usage_many op today s p1 p2 ps :
  select_usage op today (usage_log (pending s)) = p1 :: p2 :: ps →
  _get_or_create_usage op today s = (Raise MultipleResultsFound, s).
Proof.
  intros Hsel. unfold _get_or_create_usage, bind, get, lift, write, ret.
  by rewrite Hsel.
Qed.

Lemma check_and_increment_refused_new cfg today op t s :
  limit_of cfg (pending s) op < 0 →
  select_usage op today (usage_log (pending s)) = [] →
  check_and_increment cfg today op t s =
  (Raise (LimitExceededError op 0 (limit_of cfg (pending s) op)),
   {| committed := committed s;
      pending := with_usage_log (usage_log (pending s) ++ [fresh_usage op today])
                   (pending s) |}).
Proof.
  intros Hlim Hsel. unfold check_and_increment, bind at 1.
  rewrite get_daily_limit_eq. rewrite bool_decide_eq_false_2 by lia.
  unfold bind at 1. rewrite get_or_create_usage_new by done.
  simpl. by rewrite bool_decide_eq_true_2 by lia.
Qed.

Lemma check_and_increment_many cfg today op t s p1 p2 ps :
  limit_of cfg (pending s) op ≠ 0 →
  select_usage op today (usage_log (pending s)) = p1 :: p2 :: ps →
  check_and_increment cfg today op t s = (Raise MultipleResultsFound, s).
Proof.
  intros Hlim Hsel. unfold check_and_increment, bind at 1.
  rewrite get_daily_limit_eq. rewrite bool_decide_eq_false_2 by done.
  unfold bind at 1. by rewrite (get_or_create_usage_many _ _ _ p1 p2 ps).
Qed.

(** ** What a successful admission writes *)

(** C3, amended.  A call of [check_and_increment] for an operation whose
    daily limit is not 0 that returns normally leaves exactly one usage
    row for the operation today, in the session and durably, whose
    request_count is 1 if there was no row and one more than before
    otherwise; a call for an operation whose daily limit is 0 returns
    without touching the session at all. *)
Theorem admission_counts_once cfg today op t s :
  ((get_daily_limit cfg op s).1 = Return 0 →
   check_and_increment cfg today op t s = (Return tt, s)) ∧
  ((get_daily_limit cfg op s).1 ≠ Return 0 →
   (check_and_increment cfg today op t s).1 = Return tt →
   ∃ u',
     usage_of op today (pending (check_and_increment cfg today op t s).2) = [u'] ∧
     usage_of op today (committed (check_and_increment cfg today op t s).2) = [u'] ∧
     ((usage_of op today (pending s) = [] ∧ request_count u' = 1) ∨
      (∃ u, usage_of op today (pending s) = [u] ∧
            request_count u' = request_count u + 1))).
Proof.
  rewrite get_daily_limit_eq. simpl. split.
  - intros [= Hlim]. by apply check_and_increment_unlimited.
  - intros Hlim Hret.
    assert (limit_of cfg (pending s) op ≠ 0) as Hnz by congruence.
    unfold usage_of.
    destruct (select_usage op today (usage_log (pending s)))
      as [|[pk u] [|p2 ps]] eqn:Hsel.
    + destruct (Z_lt_le_dec 0 (limit_of cfg (pending s) op)) as [Hpos|Hneg].
      * rewrite check_and_increment_first by done. simpl.
        rewrite select_usage_snoc by (done || apply usage_matches_new). simpl.
        eexists. split; [done|]. split; [done|]. left. done.
      * rewrite check_and_increment_refused_new in Hret by (done || lia). done.
    + destruct (Z_lt_le_dec (request_count u) (limit_of cfg (pending s) op))
        as [Hlt|Hge].
      * rewrite (check_and_increment_again _ _ _ _ _ pk u) by done. simpl.
        assert (usage_matches op today (bump t u) = true) as Hm.
        { assert (usage_matches op today u = true) as Hu.
          { eapply select_usage_elem. rewrite Hsel. by apply list_elem_of_singleton. }
          destruct (usage_matches_keys _ _ _ Hu) as [Hop Hday].
          unfold usage_matches, bump. simpl.
          by rewrite Hop, Hday, !bool_decide_eq_true_2. }
        rewrite (select_usage_insert _ _ _ _ u) by done. simpl.
        eexists. split; [done|]. split; [done|]. right. by exists u.
      * rewrite (check_and_increment_exceeded _ _ _ _ _ pk u) in Hret by done. done.
    + rewrite (check_and_increment_many _ _ _ _ _ (pk, u) p2 ps) in Hret by done. done.
Qed.

Lemma admission_counts_once_witness :
  ∃ u',
    usage_of "translate" 20000
      (committed (check_and_increment settings 20000 "translate" 0
         (open_session {| operation_limits := {["translate" := 5]};
                          usage_log := [{| operation := "translate"; log_date := 20000;
                                           request_count := 3; total_tokens := 40 |}] |})).2)
    = [u'] ∧ request_count u' = 4.
Proof.
  destruct (admission_counts_once settings 20000 "translate" 0
    (open_session {| operation_limits := {["translate" := 5]};
                     usage_log := [{| operation := "translate"; log_date := 20000;
                                      request_count := 3; total_tokens := 40 |}] |}))
    as [_ H].
  destruct H as (u' & _ & Hc & [[Hnil _]|(u & Hu & Hcnt)]).
  - vm_compute. discriminate.
  - reflexivity.
  - vm_compute in Hnil. discriminate.
  - exists u'. split; [exact Hc|].
    vm_compute in Hu. injection Hu as <-. exact Hcnt.
Defined.

(** C3, as stated, fails: with daily limit 0 the call returns normally
    and no usage row exists afterwards. *)
Lemma unlimited_admission_not_recorded :
  let s := open_session {| operation_limits := {["summarize" := 0]}; usage_log := [] |} in
  let out := check_and_increment settings 20000 "summarize" 0 s in
  out.1 = Return tt ∧
  usage_of "summarize" 20000 (pending out.2) = [] ∧
  usage_of "summarize" 20000 (committed out.2) = [].
Proof. repeat split; reflexivity. Qed.

(** ** The default limit *)

(** C10.  For an operation with no row in [operation_limits],
    [get_daily_limit] returns normally with [DEFAULT_DAILY_LIMIT], leaving
    the session as it was; the source configuration sets it to 1000, so
    such an operation is limited: on a day without usage the first 1000
    sequential admissions succeed and the next is refused. *)
Theorem unseeded_operation_gets_default cfg op s :
  operation_limits (pending s) !! op = None →
  get_daily_limit cfg op s = (Return (DEFAULT_DAILY_LIMIT cfg), s) ∧
  DEFAULT_DAILY_LIMIT settings = 1000 ∧
  (∀ today, usage_of op today (pending s) = [] →
     (admission_sequence settings today op 1001 s).1 =
     replicate 1000 (Return tt) ++ [Raise (LimitExceededError op 1000 1000)]).
Proof.
  intros Hrow. split; [|split].
  - rewrite get_daily_limit_eq. unfold limit_of. by rewrite Hrow.
  - reflexivity.
  - intros today Hnone%usage_of_nil.
    apply (admission_sequence_to_limit settings today op 1000); [lia| |done].
    unfold limit_of. by rewrite Hrow.
Qed.

Lemma unseeded_operation_gets_default_witness :
  get_daily_limit settings "paraphrase"
    (open_session {| operation_limits := {["summarize" := 10]}; usage_log := [] |})
  = (Return 1000,
     open_session {| operation_limits := {["summarize" := 10]}; usage_log := [] |}).
Proof.
  apply (unseeded_operation_gets_default settings "paraphrase"
           (open_session {| operation_limits := {["summarize" := 10]}; usage_log := [] |})).
  reflexivity.
Defined.

(** ** The ledger invariant *)

Lemma limit_of_nonneg cfg db op :
  limits_nonneg cfg db → 0 ≤ limit_of cfg db op.
Proof.
  intros [Hdef Hrows]. unfold limit_of.
  destruct (operation_limits db !! op) as [n|] eqn:Hn; simpl; eauto.
Qed.

Lemma quota_invariant_snoc cfg db u :
  quota_invariant cfg db →
  limit_of cfg db (operation u) = 0 ∨ request_count u ≤ limit_of cfg db (operation u) →
  quota_invariant cfg (with_usage_log (usage_log db ++ [u]) db).
Proof.
  intros Hinv Hu r. unfold with_usage_log, limit_of in *. simpl.
  intros [Hr|Hr%list_elem_of_singleton]%elem_of_app; [by apply Hinv|by subst].
Qed.

Lemma elem_of_list_insert_inv {A} (l : list A) i x y :
  y ∈ <[i := x]> l → y = x ∨ y ∈ l.
Proof.
  intros [j Hj]%list_elem_of_lookup.
  apply list_lookup_insert_Some in Hj as [(-> & -> & _)|[_ Hj]]; [by left|].
  right. apply list_elem_of_lookup. eauto.
Qed.

Lemma quota_invariant_store cfg db pk u u' :
  quota_invariant cfg db →
  usage_log db !! pk = Some u →
  operation u' = operation u →
  limit_of cfg db (operation u) = 0 ∨ request_count u' ≤ limit_of cfg db (operation u) →
  quota_invariant cfg (with_usage_log (<[pk := u']> (usage_log db)) db).
Proof.
  intros Hinv Hpk Hop Hu r. unfold with_usage_log, limit_of in *. simpl.
  intros [->|Hr]%elem_of_list_insert_inv; [by rewrite Hop|by apply Hinv].
Qed.

Lemma record_tokens_new today op t s :
  select_usage op today (usage_log (pending s)) = [] →
  record_tokens today op t s =
  let db := with_usage_log
              (usage_log (pending s) ++
               [{| operation := op; log_date := today;
                   request_count := 0; total_tokens := 0 + t |}])
              (pending s) in
  if sqlite_integer (0 + t) then (Return tt, durable db)
  else (Raise OverflowError, {| committed := committed s; pending := db |}).
Proof.
  intros Hsel. unfold record_tokens, bind at 1.
  rewrite get_or_create_usage_new by done.
  unfold store_usage, bind, get, write, commit, raise, durable, with_usage_log.
  simpl. rewrite insert_snoc_last. by destruct (sqlite_integer _).
Qed.

Lemma record_tokens_found today op t s pk u :
  select_usage op today (usage_log (pending s)) = [(pk, u)] →
  record_tokens today op t s =
  let db := with_usage_log
              (<[pk := {| operation := operation u; log_date := log_date u;
                          request_count := request_count u;
                          total_tokens := total_tokens u + t |}]>
                 (usage_log (pending s)))
              (pending s) in
  if sqlite_integer (total_tokens u + t) then (Return tt, durable db)
  else (Raise OverflowError, {| committed := committed s; pending := db |}).
Proof.
  intros Hsel. unfold record_tokens, bind at 1.
  rewrite (get_or_create_usage_found _ _ _ pk u) by done.
  unfold store_usage, bind, get, write, commit, raise, durable, with_usage_log.
  simpl. by destruct (sqlite_integer _).
Qed.

Lemma record_tokens_many today op t s p1 p2 ps :
  select_usage op today (usage_log (pending s)) = p1 :: p2 :: ps →
  record_tokens today op t s = (Raise MultipleResultsFound, s).
Proof.
  intros Hsel. unfold record_tokens, bind at 1.
  by rewrite (get_or_create_usage_many _ _ _ p1 p2 ps).
Qed.

Lemma usage_rows_response_state cfg today rows s :
  (usage_rows_response cfg today rows s).2 = s.
Proof.
  induction rows as [|r rows IH]; simpl; [done|].
  unfold bind at 1. rewrite get_daily_limit_eq.
  unfold bind at 1. destruct (usage_rows_response cfg today rows s) as [[rest|e] s'].
  - simpl in *. by subst.
  - simpl in *. by subst.
Qed.

Lemma select_usage_singleton_lookup op today rows pk u :
  select_usage op today rows = [(pk, u)] →
  rows !! pk = Some u ∧ operation u = op.
Proof.
  intros Hsel.
  assert ((pk, u) ∈ select_usage op today rows) as Hin
    by (rewrite Hsel; by apply list_elem_of_singleton).
  apply select_usage_elem in Hin as [Hlk Hm].
  by destruct (usage_matches_keys _ _ _ Hm).
Qed.

Lemma ledger_ok_durable cfg db :
  limits_nonneg cfg db → quota_invariant cfg db → ledger_ok cfg (durable db).
Proof. intros ??. split; [done|]. by split. Qed.

Lemma check_and_increment_ledger cfg today op t s :
  ledger_ok cfg s → ledger_ok cfg (check_and_increment cfg today op t s).2.
Proof.
  intros (Hnn & Hp & Hc).
  destruct (decide (limit_of cfg (pending s) op = 0)) as [Hz|Hnz].
  { by rewrite check_and_increment_unlimited. }
  pose proof (limit_of_nonneg cfg _ op Hnn) as Hge.
  destruct (select_usage op today (usage_log (pending s)))
    as [|[pk u] [|p2 ps]] eqn:Hsel.
  - rewrite check_and_increment_first by (done || lia). simpl.
    apply ledger_ok_durable; [done|].
    apply quota_invariant_snoc; [done|]. simpl. right. lia.
  - destruct (select_usage_singleton_lookup _ _ _ _ _ Hsel) as [Hlk Hop].
    destruct (Z_lt_le_dec (request_count u) (limit_of cfg (pending s) op)) as [Hlt|Hle].
    + rewrite (check_and_increment_again _ _ _ _ _ pk u) by done. simpl.
      apply ledger_ok_durable; [done|].
      eapply quota_invariant_store; [done..|]. simpl. right. rewrite Hop. lia.
    + by rewrite (check_and_increment_exceeded _ _ _ _ _ pk u).
  - by rewrite (check_and_increment_many _ _ _ _ _ (pk, u) p2 ps).
Qed.

Lemma ledger_ok_pending cfg s db :
  limits_nonneg cfg db → quota_invariant cfg db → quota_invariant cfg (committed s) →
  ledger_ok cfg {| committed := committed s; pending := db |}.
Proof. intros ???. split; [done|]. by split. Qed.

Lemma record_tokens_ledger cfg today op t s :
  ledger_ok cfg s → ledger_ok cfg (record_tokens today op t s).2.
Proof.
  intros (Hnn & Hp & Hc).
  pose proof (limit_of_nonneg cfg _ op Hnn) as Hge.
  destruct (select_usage op today (usage_log (pending s)))
    as [|[pk u] [|p2 ps]] eqn:Hsel.
  - rewrite record_tokens_new by done. cbv zeta.
    match goal with |- context [durable ?d] => set (db := d) end.
    assert (quota_invariant cfg db) as Hdb.
    { apply quota_invariant_snoc; [done|]. simpl. by right. }
    destruct (sqlite_integer _); simpl.
    + by apply ledger_ok_durable.
    + by apply ledger_ok_pending.
  - destruct (select_usage_singleton_lookup _ _ _ _ _ Hsel) as [Hlk Hop].
    rewrite (record_tokens_found _ _ _ _ pk u) by done. cbv zeta.
    match goal with |- context [durable ?d] => set (db := d) end.
    assert (quota_invariant cfg db) as Hdb.
    { eapply quota_invariant_store; [done..|]. simpl.
      apply Hp. apply list_elem_of_lookup. eauto. }
    destruct (sqlite_integer _); simpl.
    + by apply ledger_ok_durable.
    + by apply ledger_ok_pending.
  - by rewrite (record_tokens_many _ _ _ _ (pk, u) p2 ps).
Qed.

Lemma update_limit_ledger cfg op n s :
  ledger_ok cfg s → covers_usage (UpdateLimit op n) s →
  ledger_ok cfg (update_limit op n s).2.
Proof.
  intros (Hnn & Hp & Hc) [Hn Hcov].
  unfold update_limit, bind, get, write, commit. simpl.
  assert (∀ op', limit_of cfg
            (with_operation_limits
               (alter (λ _ : Z, n) op (operation_limits (pending s))) (pending s)) op'
          = if decide (op = op') then
              match operation_limits (pending s) !! op with
              | Some _ => n | None => DEFAULT_DAILY_LIMIT cfg end
            else limit_of cfg (pending s) op') as Hlim.
  { intros op'. unfold limit_of, with_operation_limits. simpl.
    rewrite lookup_alter. destruct (decide (op = op')) as [->|Hne]; [|done].
    by destruct (operation_limits (pending s) !! op'). }
  apply ledger_ok_durable.
  - destruct Hnn as [Hdef Hrows]. split; [done|]. simpl. intros op' m.
    rewrite lookup_alter. destruct (decide (op = op')) as [->|Hne]; [|by apply Hrows].
    destruct (operation_limits (pending s) !! op') eqn:Hrow; simpl; [|done].
    by intros [= <-].
  - intros r Hr. rewrite Hlim. simpl in Hr.
    destruct (decide (op = operation r)) as [Heq|Hne]; [|by apply Hp].
    destruct (operation_limits (pending s) !! op) as [old|] eqn:Hrow.
    + destruct Hcov as [->|Hcov]; [by left|]. right. by apply Hcov.
    + specialize (Hp r Hr). unfold limit_of in Hp. by rewrite <-Heq, Hrow in Hp.
Qed.

(** C2, amended.  With non-negative limits, the invariant "no usage row
    counts more requests than the daily limit of its operation, unless
    that limit is 0" holds of the session and of the durable database
    after [check_and_increment], [record_tokens] and the two reporting
    operations whenever it held before, and after [update_limit] whenever
    the new limit is 0 or no recorded count of the operation is above it. *)
Theorem quota_invariant_preserved cfg (o : quota_op) s :
  ledger_ok cfg s → covers_usage o s → ledger_ok cfg (run_quota_op cfg o s).
Proof.
  intros Hok Hcov. destruct o as [today op t|today op t|op n| |today]; simpl.
  - by apply check_and_increment_ledger.
  - by apply record_tokens_ledger.
  - by apply update_limit_ledger.
  - done.
  - unfold get_usage_response, bind, get. by rewrite usage_rows_response_state.
Qed.

Lemma ledger_at_limit_ok : ledger_ok settings (open_session ledger_at_limit).
Proof.
  assert (quota_invariant settings ledger_at_limit) as Hinv.
  { intros r ->%list_elem_of_singleton. right. vm_compute. discriminate. }
  split; [|by split]. split; [by vm_compute|].
  intros op n. simpl. intros [_ <-]%lookup_singleton_Some. lia.
Qed.

Lemma quota_invariant_preserved_witness :
  ledger_ok settings
    (run_quota_op settings (UpdateLimit "summarize" 7) (open_session ledger_at_limit)).
Proof.
  apply (quota_invariant_preserved settings (UpdateLimit "summarize" 7)
           (open_session ledger_at_limit)).
  - exact ledger_at_limit_ok.
  - split; [lia|]. right.
    intros r ->%list_elem_of_singleton _. simpl. lia.
Defined.

(** Why the limits have to be non-negative: a negative limit can be
    stored, though not through the management interface, and then the row
    that [record_tokens] creates with count 0 is above it. *)
Lemma negative_limit_is_exceeded_at_once :
  let db := {| operation_limits := {["summarize" := -1]}; usage_log := [] |} in
  quota_invariant settings db ∧
  ¬ quota_invariant settings
      (committed (run_quota_op settings (RecordTokens 20000 "summarize" 7)
                    (open_session db))).
Proof.
  split.
  - by intros r ?%elem_of_nil.
  - intros Hinv.
    destruct (Hinv {| operation := "summarize"; log_date := 20000;
                      request_count := 0; total_tokens := 7 |}) as [H|H].
    + by apply list_elem_of_singleton.
    + vm_compute in H. discriminate.
    + vm_compute in H. by apply H.
Qed.

(** C2, as stated, fails: lowering the limit of an operation below the
    count already recorded for it leaves a row above its limit. *)
Lemma lowering_limit_breaks_invariant :
  let s := open_session ledger_at_limit in
  let s' := run_quota_op settings (UpdateLimit "summarize" 3) s in
  quota_invariant settings (pending s) ∧
  quota_invariant settings (committed s) ∧
  ¬ quota_invariant settings (pending s') ∧
  ¬ quota_invariant settings (committed s').
Proof.
  destruct ledger_at_limit_ok as (_ & Hp & Hc).
  split; [done|]. split; [done|].
  assert (¬ quota_invariant settings
            {| operation_limits := alter (λ _, 3) "summarize" {["summarize" := 5]};
               usage_log := usage_log ledger_at_limit |}) as Hbroken.
  { intros Hinv.
    destruct (Hinv {| operation := "summarize"; log_date := 20000;
                      request_count := 5; total_tokens := 120 |}) as [H|H].
    - by apply list_elem_of_singleton.
    - vm_compute in H. discriminate.
    - vm_compute in H. by apply H. }
  split; exact Hbroken.
Qed.

(** ** The pipelines and their shared steps *)

Lemma bind_eq {S A B} (m : M S A) (k : A → M S B) s :
  bind m k s =
  match m s with
  | (Return a, s') => k a s'
  | (Raise e, s') => (Raise e, s')
  end.
Proof. reflexivity. Qed.

(** Runs the next step of a pipeline on both sides of the goal. *)
Ltac next_step :=
  rewrite !bind_eq;
  match goal with
  | |- context [match ?m ?w with (_, _) => _ end] =>
      destruct (m w) as [[?|?] ?] eqn:?
  end;
  repeat match goal with p : _ * _ |- _ => destruct p end;
  cbv beta iota.

(** A raise on the shared steps is the outcome of the request. *)
Lemma handle_raise cfg py be clock rq w e w' :
  steps_of cfg be clock rq w = (Raise e, w') →
  handle cfg py be clock rq w = (Raise e, w').
Proof.
  unfold steps_of, run_operation, handle.
  destruct rq as [r|r|r]; simpl;
    unfold summarize, translate, classify;
    repeat next_step; unfold ret; simpl; intros; by simplify_eq.
Qed.

Lemma steps_rejected cfg be clock rq w e :
  _validate_input_length cfg (operation_of rq) (text_of rq) = Raise e →
  steps_of cfg be clock rq w = (Raise e, w).
Proof.
  intros Hv. unfold steps_of, run_operation.
  rewrite bind_eq. unfold lift at 1. by rewrite Hv.
Qed.

Lemma in_session_eq {A} (m : M AsyncSession A) w r s :
  m (session w) = (r, s) →
  in_session m w = (r, {| session := s; model_registry := model_registry w |}).
Proof. intros H. unfold in_session. by rewrite H. Qed.

Lemma in_registry_eq {A} (m : M ModelRegistry A) w r reg :
  m (model_registry w) = (r, reg) →
  in_registry m w = (r, {| session := session w; model_registry := reg |}).
Proof. intros H. unfold in_registry. by rewrite H. Qed.

Lemma steps_without_model cfg be clock rq w s1 e :
  _validate_input_length cfg (operation_of rq) (text_of rq) = Return tt →
  check_and_increment cfg (admission_day clock) (operation_of rq) 0 (session w)
    = (Return tt, s1) →
  _get_model_folder cfg (operation_of rq) = Raise e →
  steps_of cfg be clock rq w =
  (Raise e, {| session := s1; model_registry := model_registry w |}).
Proof.
  intros Hv Hadm Hf. unfold steps_of, run_operation.
  rewrite bind_eq. unfold lift at 1. rewrite Hv. cbv beta iota.
  rewrite bind_eq, (in_session_eq _ _ _ _ Hadm). cbv beta iota.
  rewrite bind_eq. unfold lift at 1. by rewrite Hf.
Qed.

Lemma steps_accounting_raises cfg be clock rq w s1 f loaded reg1 m text n e s2 :
  _validate_input_length cfg (operation_of rq) (text_of rq) = Return tt →
  check_and_increment cfg (admission_day clock) (operation_of rq) 0 (session w)
    = (Return tt, s1) →
  _get_model_folder cfg (operation_of rq) = Return f →
  get_or_load be f (model_registry w) = (Return loaded, reg1) →
  getitem (MAX_OUTPUT_TOKENS cfg) (operation_of rq) = Return m →
  run_inference be loaded (prompt_of rq) m = Return (text, n) →
  record_tokens (accounting_day clock) (operation_of rq) n s1 = (Raise e, s2) →
  steps_of cfg be clock rq w =
  (Raise e, {| session := s2; model_registry := reg1 |}).
Proof.
  intros Hv Hadm Hf Hload Hm Hinf Hrec. unfold steps_of, run_operation.
  rewrite bind_eq. unfold lift at 1. rewrite Hv. cbv beta iota.
  rewrite bind_eq, (in_session_eq _ _ _ _ Hadm). cbv beta iota.
  rewrite bind_eq. unfold lift at 1. rewrite Hf. cbv beta iota.
  rewrite bind_eq. erewrite in_registry_eq by (simpl; exact Hload). cbv beta iota.
  rewrite bind_eq. unfold lift at 1. rewrite Hm. cbv beta iota.
  rewrite bind_eq. unfold lift at 1. rewrite Hinf. cbv beta iota.
  rewrite bind_eq. erewrite in_session_eq by (simpl; exact Hrec). done.
Qed.

(** ** Validation, admission and accounting in the pipelines *)

(** C9.  With the source configuration, whose hard cap for summarize is
    8000 characters, a text of exactly 8000 characters passes
    [_validate_input_length], and a summarize request with a text of 8001
    characters is rejected with the input-too-large error before
    anything else runs: the session, and with it every usage row, and
    the registry are as they were. *)
Theorem summarize_hard_cap be clock (at_cap over_cap : SummarizeRequest.t) w :
  py_len (SummarizeRequest.text at_cap) = 8000 →
  py_len (SummarizeRequest.text over_cap) = 8001 →
  MAX_INPUT_CHARS settings !! "summarize" = Some 8000 ∧
  _validate_input_length settings "summarize" (SummarizeRequest.text at_cap)
    = Return tt ∧
  summarize settings be clock over_cap w =
  (Raise (OrchestrationError (InputExceedsHardLimit "summarize" 8001 8000)), w).
Proof.
  intros Hcap Hover. split; [reflexivity|]. split.
  - unfold _validate_input_length. rewrite Hcap. reflexivity.
  - unfold summarize. rewrite bind_eq. unfold lift at 1.
    unfold _validate_input_length. rewrite Hover. reflexivity.
Qed.

Lemma summarize_hard_cap_witness :
  let request text :=
    {| SummarizeRequest.text := text; SummarizeRequest.max_sentences := 5;
       SummarizeRequest.language := "en"; SummarizeRequest.request_id := None |} in
  let w := fresh_world ledger_at_limit in
  _validate_input_length settings "summarize" (repeat_char "a" (Z.to_nat 8000)) = Return tt ∧
  summarize settings (canned_backend "Done." 3) (same_day 20000)
    (request (repeat_char "a" (Z.to_nat 8001))) w =
  (Raise (OrchestrationError (InputExceedsHardLimit "summarize" 8001 8000)), w).
Proof.
  intros request w.
  destruct (summarize_hard_cap (canned_backend "Done." 3) (same_day 20000)
              (request (repeat_char "a" (Z.to_nat 8000))) (request (repeat_char "a" (Z.to_nat 8001))) w)
    as (_ & Hcap & Hover).
  - vm_compute. reflexivity.
  - vm_compute. reflexivity.
  - split; [exact Hcap|exact Hover].
Defined.

(** C4, amended.  In each of the three pipelines the input-length check
    runs before the admission call: a request that fails it ends with
    that error and leaves the session and the registry untouched, so no
    quota is consumed.  The check that a model is configured runs after
    admission: a request that fails it ends with that error in the
    session as the admission call left it. *)
Theorem length_check_precedes_admission cfg py be clock rq w :
  (∀ e,
     _validate_input_length cfg (operation_of rq) (text_of rq) = Raise e →
     handle cfg py be clock rq w = (Raise e, w)) ∧
  (∀ s1 e,
     _validate_input_length cfg (operation_of rq) (text_of rq) = Return tt →
     check_and_increment cfg (admission_day clock) (operation_of rq) 0 (session w)
       = (Return tt, s1) →
     _get_model_folder cfg (operation_of rq) = Raise e →
     handle cfg py be clock rq w =
     (Raise e, {| session := s1; model_registry := model_registry w |})).
Proof.
  split.
  - intros e Hv. apply handle_raise. by apply steps_rejected.
  - intros s1 e Hv Hadm Hf. apply handle_raise. by apply steps_without_model.
Qed.

Lemma length_check_precedes_admission_witness :
  let w := fresh_world ledger_at_limit in
  let be := canned_backend "Done." 3 in
  handle settings cpython be (same_day 20000)
    (summarize_request (repeat_char "a" (Z.to_nat 8001))) w =
  (Raise (OrchestrationError (InputExceedsHardLimit "summarize" 8001 8000)), w) ∧
  handle settings_without_models cpython be (same_day 20001)
    (summarize_request (repeat_char "a" 60)) w =
  (Raise (OrchestrationError (NoModelConfigured "summarize")),
   {| session :=
        (check_and_increment settings_without_models 20001 "summarize" 0 (session w)).2;
      model_registry := model_registry w |}).
Proof.
  intros w be. split.
  - apply (proj1 (length_check_precedes_admission settings cpython be
                    (same_day 20000)
                    (summarize_request (repeat_char "a" (Z.to_nat 8001))) w)).
    vm_compute. reflexivity.
  - apply (proj2 (length_check_precedes_admission settings_without_models cpython be
                    (same_day 20001) (summarize_request (repeat_char "a" 60)) w)).
    + vm_compute. reflexivity.
    + vm_compute. reflexivity.
    + vm_compute. reflexivity.
Defined.

(** C4, as stated, fails: with no model configured for summarize, a
    request that passes the length check is counted against the quota
    before the missing model is noticed. *)
Lemma unconfigured_operation_consumes_quota :
  let w := fresh_world {| operation_limits := {["summarize" := 5]}; usage_log := [] |} in
  let out := handle settings_without_models cpython (canned_backend "Done." 3)
               (same_day 20000) (summarize_request (repeat_char "a" 60)) w in
  out.1 = Raise (OrchestrationError (NoModelConfigured "summarize")) ∧
  usage_of "summarize" 20000 (committed (session w)) = [] ∧
  usage_of "summarize" 20000 (committed (session out.2)) =
  [{| operation := "summarize"; log_date := 20000;
      request_count := 1; total_tokens := 0 |}].
Proof. vm_compute. repeat split; reflexivity. Qed.

(** C7, amended.  In each of the three pipelines token accounting is not
    guarded: when inference has completed and [record_tokens] raises,
    that exception is the outcome of the request and no response is
    returned. *)
Theorem accounting_failure_fails_request
    cfg py be clock rq w s1 f loaded reg1 m text n e s2 :
  _validate_input_length cfg (operation_of rq) (text_of rq) = Return tt →
  check_and_increment cfg (admission_day clock) (operation_of rq) 0 (session w)
    = (Return tt, s1) →
  _get_model_folder cfg (operation_of rq) = Return f →
  get_or_load be f (model_registry w) = (Return loaded, reg1) →
  getitem (MAX_OUTPUT_TOKENS cfg) (operation_of rq) = Return m →
  run_inference be loaded (prompt_of rq) m = Return (text, n) →
  record_tokens (accounting_day clock) (operation_of rq) n s1 = (Raise e, s2) →
  handle cfg py be clock rq w =
  (Raise e, {| session := s2; model_registry := reg1 |}).
Proof.
  intros. apply handle_raise. by eapply steps_accounting_raises.
Qed.

Lemma accounting_failure_fails_request_witness :
  let w := fresh_world ledger_with_duplicates in
  (handle settings cpython (canned_backend "Done." 3) (same_day 20000)
     (summarize_request (repeat_char "a" 60)) w).1 = Raise MultipleResultsFound.
Proof.
  intros w.
  pose (loaded := {| folder := "qwen-summarize"; tokenizer := 1%nat;
                     model := 2%nat; device := "cpu" |}).
  rewrite (accounting_failure_fails_request settings cpython
             (canned_backend "Done." 3) (same_day 20000)
             (summarize_request (repeat_char "a" 60)) w
             (session w) "qwen-summarize" loaded
             {| _registry := {["qwen-summarize" := loaded]};
                _locks := {["qwen-summarize"]} |}
             512 "Done." 3 MultipleResultsFound (session w)).
  - reflexivity.
  - vm_compute. reflexivity.
  - vm_compute. reflexivity.
  - vm_compute. reflexivity.
  - vm_compute. reflexivity.
  - vm_compute. reflexivity.
  - vm_compute. reflexivity.
  - vm_compute. reflexivity.
Defined.

(** C7, as stated, fails: inference has produced its text, token
    accounting raises, and the request ends with that exception. *)
Lemma accounting_failure_is_not_swallowed :
  let w := fresh_world ledger_with_duplicates in
  let be := canned_backend "Done." 3 in
  let rq := summarize_request (repeat_char "a" 60) in
  (∀ loaded, run_inference be loaded (prompt_of rq) 512 = Return ("Done.", 3)) ∧
  (record_tokens 20000 "summarize" 3 (session w)).1 = Raise MultipleResultsFound ∧
  (handle settings cpython be (same_day 20000) rq w).1 = Raise MultipleResultsFound.
Proof. split; [done|]. split; vm_compute; reflexivity. Qed.

(** ** Dict comprehensions *)

Lemma dict_of_snoc {V} (kvs : list (string * V)) k v :
  dict_of (kvs ++ [(k, v)]) = <[k := v]> (dict_of kvs).
Proof. unfold dict_of. by rewrite foldl_snoc. Qed.

Lemma dict_of_lookup_Some {V} (kvs : list (string * V)) k v :
  dict_of kvs !! k = Some v → (k, v) ∈ kvs.
Proof.
  induction kvs as [|[k' v'] kvs IH] using rev_ind; [done|].
  rewrite dict_of_snoc, lookup_insert. case_decide as Hk.
  - intros [= ->]. subst. apply elem_of_app. right. by apply list_elem_of_singleton.
  - intros H. apply elem_of_app. left. by apply IH.
Qed.


Lemma dict_of_lookup_is_Some {V} (kvs : list (string * V)) k :
  k ∈ kvs.*1 → is_Some (dict_of kvs !! k).
Proof.
  induction kvs as [|[k' v'] kvs IH] using rev_ind.
  - by intros ?%elem_of_nil.
  - rewrite fmap_app, dict_of_snoc, lookup_insert. simpl.
    intros [Hk|Hk%list_elem_of_singleton]%elem_of_app; case_decide; eauto.
    congruence.
Qed.

Lemma dict_of_dom {V} (kvs : list (string * V)) :
  dom (dict_of kvs) = list_to_set kvs.*1.
Proof.
  induction kvs as [|[k v] kvs IH] using rev_ind.
  - unfold dict_of. simpl. by rewrite dom_empty_L.
  - rewrite dict_of_snoc, dom_insert_L, IH, fmap_app, list_to_set_app_L. simpl.
    by rewrite (right_id_L ∅ (∪)), (comm_L (∪)).
Qed.

Lemma constant_dict_lookup {V} (cats : list string) (r : V) c :
  c ∈ cats → dict_of ((λ c, (c, r)) <$> cats) !! c = Some r.
Proof.
  intros Hc.
  destruct (dict_of_lookup_is_Some ((λ c, (c, r)) <$> cats) c) as [v Hv].
  - rewrite <-list_fmap_compose. by rewrite list_fmap_id.
  - rewrite Hv. f_equal.
    apply dict_of_lookup_Some, list_elem_of_fmap in Hv as (c' & [= _ ->] & _). done.
Qed.


Lemma constant_dict_size {V} (cats : list string) (r : V) :
  NoDup cats → size (dict_of ((λ c, (c, r)) <$> cats)) = length cats.
Proof.
  intros Hnd. rewrite <-size_dom, dict_of_dom.
  rewrite <-list_fmap_compose, list_fmap_id. by apply size_list_to_set.
Qed.

Lemma lower_map_Some cats k c :
  lower_map cats !! k = Some c → c ∈ cats ∧ py_lower c = k.
Proof.
  intros (c' & [= -> ->] & Hc)%dict_of_lookup_Some%list_elem_of_fmap. done.
Qed.


(** ** The sum of the scores *)

Lemma scores_total_insert (m : gmap string Q) k v :
  m !! k = None → (scores_total (<[k := v]> m) == v + scores_total m)%Q.
Proof.
  intros Hk. unfold scores_total.
  apply (map_fold_insert Qeq (λ _ v acc, (v + acc)%Q)); [| |done].
  - intros _ z a b Hab. by rewrite Hab.
  - intros. ring.
Qed.

Lemma scores_total_constant (m : gmap string Q) (r : Q) :
  (∀ k v, m !! k = Some v → v = r) →
  (scores_total m == inject_Z (Z.of_nat (size m)) * r)%Q.
Proof.
  induction m as [|k v m Hk IH] using map_ind; intros Hall.
  - unfold scores_total. rewrite map_fold_empty, map_size_empty. simpl. ring.
  - rewrite scores_total_insert by done.
    rewrite map_size_insert_None by done.
    rewrite IH.
    + rewrite (Hall k v) by apply lookup_insert_eq.
      rewrite Nat2Z.inj_succ, <-Z.add_1_r, inject_Z_plus. ring.
    + intros k' v' Hk'. apply (Hall k'). rewrite lookup_insert_ne; [done|].
      intros ->. congruence.
Qed.

(** ** The classify output parser *)

(** ** Rounding to a double *)

Lemma floor_log2_below n d :
  0 < n → 0 < d →
  (0 ≤ floor_log2 n d → 2 ^ floor_log2 n d * d ≤ n) ∧
  (floor_log2 n d < 0 → d ≤ n * 2 ^ (- floor_log2 n d)).
Proof.
  intros Hn Hd. unfold floor_log2.
  set (k := Z.log2 n - Z.log2 d).
  destruct (Z.log2_spec n Hn) as [Hn1 Hn2]. destruct (Z.log2_spec d Hd) as [Hd1 Hd2].
  pose proof (Z.log2_nonneg n) as Hln. pose proof (Z.log2_nonneg d) as Hld.
  case_bool_decide as Hk.
  - case_bool_decide as Htest; [split; [done|lia]|].
    split; [|intros Hlt].
    + intros Hk1.
      assert (2 ^ Z.log2 n = 2 ^ (k - 1) * 2 ^ Z.succ (Z.log2 d)) as Heq.
      { rewrite <-Z.pow_add_r by lia. f_equal. lia. }
      assert (0 < 2 ^ (k - 1)) by (apply Z.pow_pos_nonneg; lia).
      nia.
    + assert (k = 0) as Hk0 by lia.
      replace (- (k - 1)) with 1 by lia.
      assert (2 ^ Z.succ (Z.log2 d) ≤ 2 ^ Z.log2 n * 2 ^ 1) as Hle.
      { rewrite <-Z.pow_add_r by lia. apply Z.pow_le_mono_r; lia. }
      nia.
  - case_bool_decide as Htest; [split; [lia|done]|].
    split; [lia|]. intros _.
    assert (2 ^ Z.succ (Z.log2 d) = 2 ^ Z.log2 n * 2 ^ (- (k - 1))) as Heq.
    { rewrite <-Z.pow_add_r by lia. f_equal. lia. }
    assert (0 < 2 ^ (- (k - 1))) by (apply Z.pow_pos_nonneg; lia).
    nia.
Qed.

Lemma round_half_even_cases n d :
  0 < d →
  (round_half_even n d = n / d ∧ 2 * (n mod d) ≤ d) ∨
  (round_half_even n d = n / d + 1 ∧ d ≤ 2 * (n mod d)).
Proof.
  intros Hd. unfold round_half_even.
  repeat case_bool_decide; [left|right|destruct (Z.even (n / d)); [left|right]];
    split; (done || lia).
Qed.

Lemma round_half_even_le n d k :
  0 < d → n ≤ k * d → round_half_even n d ≤ k.
Proof.
  intros Hd Hle. pose proof (Z.div_mod n d ltac:(lia)) as Hdm.
  pose proof (Z.mod_pos_bound n d Hd) as Hmod.
  destruct (round_half_even_cases n d Hd) as [[-> _]|[-> Hhalf]]; nia.
Qed.

Lemma round_half_even_ge n d k :
  0 < d → k * d ≤ n → k ≤ round_half_even n d.
Proof.
  intros Hd Hle. pose proof (Z.div_mod n d ltac:(lia)) as Hdm.
  pose proof (Z.mod_pos_bound n d Hd) as Hmod.
  destruct (round_half_even_cases n d Hd) as [[-> _]|[-> Hhalf]]; nia.
Qed.

Lemma round_half_even_error n d :
  0 < d → 2 * Z.abs (round_half_even n d * d - n) ≤ d.
Proof.
  intros Hd. pose proof (Z.div_mod n d ltac:(lia)) as Hdm.
  pose proof (Z.mod_pos_bound n d Hd) as Hmod.
  destruct (round_half_even_cases n d Hd) as [[-> Hhalf]|[-> Hhalf]]; nia.
Qed.

Lemma round_half_even_exact k d : 0 < d → round_half_even (k * d) d = k.
Proof.
  intros Hd. unfold round_half_even.
  rewrite Z.div_mul, Z.mod_mul by lia.
  by rewrite bool_decide_eq_true_2 by lia.
Qed.

Lemma round_half_even_one k : round_half_even k 1 = k.
Proof.
  pose proof (round_half_even_exact k 1 ltac:(lia)) as H. by rewrite Z.mul_1_r in H.
Qed.

(** A non-negative rational, its numerator and its denominator. *)
Lemma round_float_pos x :
  (0 < x)%Q →
  let n := Qnum x in
  let d := Z.pos (Qden x) in
  let e := Z.max (floor_log2 n d - 52) (-1074) in
  0 < n ∧
  (0 ≤ e → round_float x = inject_Z (round_half_even n (d * 2 ^ e) * 2 ^ e)) ∧
  (e < 0 → (round_float x == round_half_even (n * 2 ^ (- e)) d # Z.to_pos (2 ^ (- e)))%Q).
Proof.
  intros Hpos n d e. assert (0 < n) as Hn.
  { unfold Qlt in Hpos. simpl in Hpos. subst n. lia. }
  split; [done|]. unfold round_float. fold n. fold d.
  rewrite (Z.abs_eq n) by lia. fold e.
  rewrite (bool_decide_eq_false_2 (n = 0)) by lia.
  rewrite (bool_decide_eq_false_2 (n < 0)) by lia.
  split; intros He.
  - by rewrite bool_decide_eq_true_2.
  - rewrite bool_decide_eq_false_2 by lia. apply Qred_correct.
Qed.

Lemma round_float_zero x : (x == 0)%Q → round_float x = 0%Q.
Proof.
  intros Hx. unfold round_float.
  rewrite bool_decide_eq_true_2; [done|]. unfold Qeq in Hx. simpl in Hx. lia.
Qed.

Lemma Qle_cases x : (0 <= x)%Q → (x == 0)%Q ∨ (0 < x)%Q.
Proof.
  intros Hx. destruct (Qlt_le_dec 0 x) as [?|Hle]; [by right|left].
  by apply Qle_antisym.
Qed.

Lemma round_float_nonneg x : (0 <= x)%Q → (0 <= round_float x)%Q.
Proof.
  intros [Hz|Hpos]%Qle_cases; [by rewrite round_float_zero|].
  destruct (round_float_pos x Hpos) as (Hn & Hhi & Hlo).
  set (n := Qnum x) in *. set (d := Z.pos (Qden x)) in *.
  set (e := Z.max (floor_log2 n d - 52) (-1074)) in *.
  destruct (decide (0 ≤ e)) as [He|He].
  - rewrite (Hhi He). change 0%Q with (inject_Z 0). rewrite <-Zle_Qle.
    assert (0 < 2 ^ e) by (apply Z.pow_pos_nonneg; lia).
    assert (0 ≤ round_half_even n (d * 2 ^ e)).
    { apply (round_half_even_ge _ _ 0); subst d; nia. }
    nia.
  - rewrite (Hlo ltac:(lia)). unfold Qle. simpl.
    assert (0 < 2 ^ (- e)) by (apply Z.pow_pos_nonneg; lia).
    assert (0 ≤ round_half_even (n * 2 ^ (- e)) d).
    { apply (round_half_even_ge _ _ 0); subst d; nia. }
    lia.
Qed.

(** Below 1 the exponent is at most -53. *)
Lemma exponent_below_one n d :
  0 < n → 0 < d → n < d → Z.max (floor_log2 n d - 52) (-1074) ≤ -53.
Proof.
  intros Hn Hd Hlt. destruct (floor_log2_below n d Hn Hd) as [Hhi _].
  destruct (decide (0 ≤ floor_log2 n d)) as [Hk|Hk]; [|lia].
  specialize (Hhi Hk).
  assert (0 < 2 ^ floor_log2 n d) by (apply Z.pow_pos_nonneg; lia). nia.
Qed.

Lemma round_float_le_one x : (0 <= x <= 1)%Q → (round_float x <= 1)%Q.
Proof.
  intros [[Hz|Hpos]%Qle_cases H1]; [by rewrite round_float_zero|].
  destruct (round_float_pos x Hpos) as (Hn & Hhi & Hlo).
  set (n := Qnum x) in *. set (d := Z.pos (Qden x)) in *.
  set (e := Z.max (floor_log2 n d - 52) (-1074)) in *.
  assert (n ≤ d) as Hnd. { unfold Qle in H1. simpl in H1. subst n d. lia. }
  destruct (decide (n = d)) as [Heq|Hne].
  - (* x = 1 *)
    destruct (decide (0 ≤ e)) as [He|He].
    + rewrite (Hhi He). change 1%Q with (inject_Z 1). rewrite <-Zle_Qle.
      assert (0 < 2 ^ e) by (apply Z.pow_pos_nonneg; lia).
      destruct (floor_log2_below n d Hn ltac:(subst d; lia)) as [Hk _].
      assert (0 ≤ floor_log2 n d) as Hk0 by (subst e; lia).
      specialize (Hk Hk0).
      assert (0 < 2 ^ floor_log2 n d) by (apply Z.pow_pos_nonneg; lia).
      assert (floor_log2 n d = 0) as Hzero.
      { destruct (decide (floor_log2 n d = 0)) as [|Hnz]; [done|].
        assert (2 ^ 1 ≤ 2 ^ floor_log2 n d) by (apply Z.pow_le_mono_r; lia).
        subst d. nia. }
      subst e. lia.
    + rewrite (Hlo ltac:(lia)). unfold Qle. simpl.
      assert (0 < 2 ^ (- e)) as Hp by (apply Z.pow_pos_nonneg; lia).
      rewrite Z2Pos.id by done.
      replace (n * 2 ^ (- e)) with (2 ^ (- e) * d) by (rewrite Heq; ring).
      rewrite round_half_even_exact by (subst d; lia). lia.
  - assert (e ≤ -53) as He by (apply exponent_below_one; subst d; lia).
    rewrite (Hlo ltac:(lia)). unfold Qle. simpl.
    assert (0 < 2 ^ (- e)) as Hp by (apply Z.pow_pos_nonneg; lia).
    rewrite Z2Pos.id by done.
    assert (round_half_even (n * 2 ^ (- e)) d ≤ 2 ^ (- e)).
    { apply round_half_even_le; subst d; nia. }
    lia.
Qed.

Lemma round_float_ge_one x : (1 <= x)%Q → (1 <= round_float x)%Q.
Proof.
  intros H1. assert (0 < x)%Q as Hpos by (eapply Qlt_le_trans; [|exact H1]; reflexivity).
  destruct (round_float_pos x Hpos) as (Hn & Hhi & Hlo).
  set (n := Qnum x) in *. set (d := Z.pos (Qden x)) in *.
  set (e := Z.max (floor_log2 n d - 52) (-1074)) in *.
  assert (0 < d) as Hd by (subst d; lia).
  assert (d ≤ n) as Hnd. { unfold Qle in H1. simpl in H1. subst n d. lia. }
  destruct (floor_log2_below n d Hn Hd) as [Hk Hk'].
  destruct (decide (0 ≤ e)) as [He|He].
  - rewrite (Hhi He). change 1%Q with (inject_Z 1). rewrite <-Zle_Qle.
    assert (0 < 2 ^ e) by (apply Z.pow_pos_nonneg; lia).
    assert (1 ≤ round_half_even n (d * 2 ^ e)).
    { apply round_half_even_ge; [nia|].
      assert (0 ≤ floor_log2 n d) as Hk0 by (subst e; lia).
      specialize (Hk Hk0).
      assert (2 ^ e ≤ 2 ^ floor_log2 n d) by (apply Z.pow_le_mono_r; subst e; lia).
      nia. }
    nia.
  - rewrite (Hlo ltac:(lia)). unfold Qle. simpl.
    assert (0 < 2 ^ (- e)) as Hp by (apply Z.pow_pos_nonneg; lia).
    rewrite Z2Pos.id by done.
    assert (2 ^ (- e) ≤ round_half_even (n * 2 ^ (- e)) d).
    { apply round_half_even_ge; nia. }
    lia.
Qed.

Lemma round_float_range x : (0 <= x <= 1)%Q → (0 <= round_float x <= 1)%Q.
Proof.
  intros H. split; [apply round_float_nonneg; by destruct H|by apply round_float_le_one].
Qed.

(** Between 0 and 1 rounding moves a number by at most 2^-54. *)
Lemma round_float_error x :
  (0 <= x <= 1)%Q → (Qabs (round_float x - x) <= 1 # Z.to_pos (2 ^ 54))%Q.
Proof.
  intros [[Hz|Hpos]%Qle_cases H1].
  { rewrite round_float_zero by done. rewrite Hz. done. }
  destruct (round_float_pos x Hpos) as (Hn & Hhi & Hlo).
  set (n := Qnum x) in *. set (d := Z.pos (Qden x)) in *.
  set (e := Z.max (floor_log2 n d - 52) (-1074)) in *.
  assert (0 < d) as Hd by (subst d; lia).
  assert (n ≤ d) as Hnd. { unfold Qle in H1. simpl in H1. subst n d. lia. }
  destruct (decide (n = d)) as [Heq|Hne].
  - assert (x == 1)%Q as Hx1. { unfold Qeq. simpl. fold n. fold d. lia. }
    assert (round_float x == 1)%Q as Hr1.
    { apply Qle_antisym.
      - apply round_float_le_one. split; [by apply Qlt_le_weak|done].
      - apply round_float_ge_one. by rewrite Hx1. }
    rewrite Hr1, Hx1. done.
  - assert (e ≤ -53) as He by (apply exponent_below_one; lia).
    rewrite (Hlo ltac:(lia)).
    assert (0 < 2 ^ (- e)) as Hp by (apply Z.pow_pos_nonneg; lia).
    assert (2 ^ 53 ≤ 2 ^ (- e)) as Hbig by (apply Z.pow_le_mono_r; lia).
    pose proof (round_half_even_error (n * 2 ^ (- e)) d Hd) as Herr.
    set (m := round_half_even (n * 2 ^ (- e)) d) in *.
    set (P := 2 ^ (- e)) in *.
    assert (Z.pos (Z.to_pos (2 ^ 54)) = 2 * 2 ^ 53) as HT by (by vm_compute).
    set (T := Z.to_pos (2 ^ 54)) in *. set (B := 2 ^ 53) in *.
    assert (0 < B) as HB by (by vm_compute).
    clearbody T B.
    apply Qabs_Qle_condition. unfold Qle, Qminus, Qplus, Qopp. simpl.
    rewrite !Pos2Z.inj_mul, !Z2Pos.id by lia. rewrite HT.
    fold n d. split; nia.
Qed.

Lemma round_float_int z :
  0 ≤ z < 2 ^ 53 → (round_float (inject_Z z) == inject_Z z)%Q.
Proof.
  intros [Hz Hlt]. destruct (decide (z = 0)) as [->|Hnz]; [done|].
  assert (0 < inject_Z z)%Q as Hpos.
  { change 0%Q with (inject_Z 0). rewrite <-Zlt_Qlt. lia. }
  destruct (round_float_pos _ Hpos) as (Hn & Hhi & Hlo). simpl in Hn, Hhi, Hlo.
  set (e := Z.max (floor_log2 z 1 - 52) (-1074)) in *.
  destruct (floor_log2_below z 1 Hn ltac:(lia)) as [Hk _].
  assert (e ≤ 0) as He.
  { destruct (decide (0 ≤ floor_log2 z 1)) as [Hk0|Hk0]; [|subst e; lia].
    specialize (Hk Hk0).
    destruct (decide (floor_log2 z 1 < 53)) as [|Hbig]; [subst e; lia|].
    assert (2 ^ 53 ≤ 2 ^ floor_log2 z 1) by (apply Z.pow_le_mono_r; lia). lia. }
  destruct (decide (e = 0)) as [He0|He0].
  - rewrite Hhi by lia. rewrite He0. change (2 ^ 0) with 1.
    by rewrite !Z.mul_1_r, round_half_even_one.
  - rewrite Hlo by lia. rewrite round_half_even_one.
    assert (0 < 2 ^ (- e)) as Hp by (apply Z.pow_pos_nonneg; lia).
    unfold Qeq. simpl. rewrite Z2Pos.id by done. lia.
Qed.

Section ClassifyParser.

Context (py : Runtime).

Lemma first_category_elem cats c0 :
  first_category cats = Return c0 → c0 ∈ cats.
Proof. destruct cats as [|c cats]; [done|]. intros [= ->]. apply list_elem_of_here. Qed.

Lemma parse_label_elem raw cats label confidence :
  parse_label py raw cats = Return (label, confidence) → label ∈ cats.
Proof.
  unfold parse_label, and_then.
  destruct (json_loads py (strip_fences raw)) as [[| | | | | |items]|]; try done.
  destruct (first_category cats) as [c0|] eqn:Hc0; [|done].
  destruct (py_float py _) as [f|]; [|done].
  destruct (lower_map cats !! _) as [canonical|] eqn:Hlow.
  - intros [= <- _]. by apply lower_map_Some in Hlow as [? _].
  - intros [= <- _]. by apply first_category_elem.
Qed.

Lemma guarded_parse_elem raw cats label confidence :
  guarded_parse py raw cats = Return (label, confidence) → label ∈ cats.
Proof.
  unfold guarded_parse.
  destruct (parse_label py raw cats) as [[l c]|e] eqn:Hp.
  - intros [= <- <-]. by eapply parse_label_elem.
  - destruct (handled_by_parser e); [|done]. unfold and_then.
    destruct (first_category cats) as [c0|] eqn:Hc0; [|done].
    intros [= <- _]. by apply first_category_elem.
Qed.

Lemma remainder_share_eq confidence cats :
  (2 ≤ length cats)%nat →
  remainder_share confidence cats =
  round_float (round_float (1 - confidence)
               / round_float (inject_Z (Z.of_nat (length cats) - 1)))%Q.
Proof. intros HN. unfold remainder_share. by rewrite Z.max_l by lia. Qed.

Lemma remainder_share_range confidence cats :
  (0 <= confidence <= 1)%Q → (0 <= remainder_share confidence cats <= 1)%Q.
Proof.
  intros [H0 H1]. unfold remainder_share.
  set (z := Z.max (Z.of_nat (length cats) - 1) 1).
  assert (1 <= round_float (inject_Z z))%Q as Hd.
  { apply round_float_ge_one. change 1%Q with (inject_Z 1). rewrite <-Zle_Qle. lia. }
  assert (0 <= round_float (1 - confidence) <= 1)%Q as [Hs0 Hs1].
  { apply round_float_range. split; lra. }
  generalize dependent (round_float (inject_Z z)). intros d Hd.
  generalize dependent (round_float (1 - confidence)). intros s Hs0 Hs1.
  apply round_float_range. split.
  - apply Qle_shift_div_l; lra.
  - apply Qle_shift_div_r; lra.
Qed.

(** The exact sum of the scores. *)
Lemma build_scores_sum label confidence cats :
  NoDup cats → (2 ≤ length cats)%nat → label ∈ cats →
  (scores_total (build_scores label confidence cats) ==
   confidence + inject_Z (Z.of_nat (length cats) - 1) * remainder_share confidence cats)%Q.
Proof.
  intros Hnd HN Hl. unfold build_scores.
  set (r := remainder_share confidence cats).
  set (base := dict_of ((λ c, (c, r)) <$> cats)).
  rewrite <-(insert_delete_eq base).
  rewrite scores_total_insert by apply lookup_delete_eq.
  rewrite (scores_total_constant _ r).
  - assert (base !! label = Some r) as Hbase by by apply constant_dict_lookup.
    pose proof (map_size_delete_Some label base ltac:(eauto)) as Hsize.
    unfold base in Hsize at 2. rewrite constant_dict_size in Hsize by done.
    replace (Z.of_nat (size (delete label base)))
      with (Z.of_nat (length cats) - 1) by lia.
    reflexivity.
  - intros k v [_ Hk]%lookup_delete_Some.
    apply dict_of_lookup_Some, list_elem_of_fmap in Hk as (c' & [= _ ->] & _). done.
Qed.

(** The scores sum to 1 up to the two roundings: each moves a number
    between 0 and 1 by at most 2^-54, the second one once for every
    other category. *)
Lemma build_scores_near_one label confidence cats :
  NoDup cats → (2 ≤ length cats)%nat → label ∈ cats →
  (0 <= confidence <= 1)%Q →
  Z.of_nat (length cats) ≤ 2 ^ 53 →
  (Qabs (scores_total (build_scores label confidence cats) - 1)
   <= inject_Z (Z.of_nat (length cats)) * (1 # Z.to_pos (2 ^ 54)))%Q.
Proof.
  intros Hnd HN Hl [H0 H1] Hbig.
  rewrite build_scores_sum by done. rewrite remainder_share_eq by done.
  set (z := Z.of_nat (length cats) - 1).
  assert (1 ≤ z < 2 ^ 53) as Hz by (subst z; lia).
  pose proof (round_float_int z ltac:(lia)) as Hd.
  assert (0 <= round_float (1 - confidence) <= 1)%Q as [Hs0 Hs1].
  { apply round_float_range. split; lra. }
  pose proof (round_float_error (1 - confidence) ltac:(split; lra)) as He1.
  assert (1 <= inject_Z z)%Q as Hz1.
  { change 1%Q with (inject_Z 1). rewrite <-Zle_Qle. lia. }
  assert (0 <= round_float (1 - confidence) / round_float (inject_Z z) <= 1)%Q as Hx.
  { rewrite Hd. split; [apply Qle_shift_div_l|apply Qle_shift_div_r]; lra. }
  pose proof (round_float_error _ Hx) as He2.
  assert (inject_Z z * (round_float (1 - confidence) / round_float (inject_Z z))
          == round_float (1 - confidence))%Q as Hmul.
  { rewrite Hd. field. lra. }
  replace (inject_Z (Z.of_nat (length cats))) with (inject_Z (z + 1))
    by (f_equal; subst z; lia).
  rewrite inject_Z_plus.
  set (eps := (1 # Z.to_pos (2 ^ 54))%Q) in *.
  set (s := round_float (1 - confidence)) in *.
  set (x := (s / round_float (inject_Z z))%Q) in *.
  set (r := round_float x) in *.
  apply Qabs_Qle_condition in He1 as [He1 He1'].
  apply Qabs_Qle_condition in He2 as [He2 He2'].
  assert (0 <= eps)%Q as Heps by done.
  clearbody eps s x r. clear Hd. revert Hz1 Hmul.
  generalize (inject_Z z). intros w Hw1 Hmul.
  apply Qabs_Qle_condition.
  assert (w * r - w * x <= w * eps)%Q as Hup.
  { assert (w * (r - x) <= w * eps)%Q as H by (apply Qmult_le_l; lra). lra. }
  assert (- (w * eps) <= w * r - w * x)%Q as Hdown.
  { assert (w * - eps <= w * (r - x))%Q as H by (apply Qmult_le_l; lra). lra. }
  rewrite Hmul in Hup, Hdown. change (inject_Z 1) with 1%Q.
  assert ((w + 1) * eps == w * eps + eps)%Q as -> by ring.
  split; lra.
Qed.

Lemma clamp01_range f : (0 <= clamp01 f <= 1)%Q.
Proof.
  destruct f as [q| | |]; simpl; try (split; discriminate).
  destruct (Qlt_le_dec q 1) as [Hlt|Hge].
  - destruct (Qlt_le_dec 0 q) as [Hpos|Hneg].
    + split; by apply Qlt_le_weak.
    + split; [apply Qle_refl|discriminate].
  - destruct (Qlt_le_dec 0 1); split; try apply Qle_refl; discriminate.
Qed.

Lemma lower_map_unique cats c label :
  NoDup (py_lower <$> cats) →
  c ∈ cats → label ∈ cats → py_lower label = py_lower c → label = c.
Proof.
  intros Hnd [i Hi]%list_elem_of_lookup [j Hj]%list_elem_of_lookup Heq.
  assert (i = j) as ->.
  { eapply NoDup_lookup; [exact Hnd| |].
    - by rewrite list_lookup_fmap, Hi.
    - rewrite list_lookup_fmap, Hj. simpl. by rewrite Heq. }
  congruence.
Qed.

Lemma parse_label_confidence raw cats label confidence :
  parse_label py raw cats = Return (label, confidence) →
  (0 <= confidence <= 1)%Q.
Proof.
  unfold parse_label, and_then.
  destruct (json_loads py (strip_fences raw)) as [[| | | | | |items]|]; try done.
  destruct (first_category cats) as [c0|] eqn:Hc0; [|done].
  destruct (py_float py _) as [f|]; [|done].
  destruct (lower_map cats !! _) as [canonical|] eqn:Hlow.
  - intros [= _ <-]. apply clamp01_range.
  - intros [= _ <-]. split; discriminate.
Qed.

Lemma guarded_parse_confidence raw cats label confidence :
  guarded_parse py raw cats = Return (label, confidence) →
  (0 <= confidence <= 1)%Q.
Proof.
  unfold guarded_parse.
  destruct (parse_label py raw cats) as [[l c]|e] eqn:Hp.
  - intros [= <- <-]. by eapply parse_label_confidence.
  - destruct (handled_by_parser e); [|done]. unfold and_then.
    destruct (first_category cats) as [c0|] eqn:Hc0; [|done].
    intros [= _ <-]. split; discriminate.
Qed.




End ClassifyParser.



(** What the handler of the parser does cover: undecodable output, and a
    label that matches no category. *)
Lemma undecodable_output_falls_back py raw c0 cats :
  json_loads py (strip_fences raw) = Raise JSONDecodeError →
  _parse_classify_output py raw (c0 :: cats) =
  Return (c0, (1 # 2)%Q, build_scores c0 (1 # 2) (c0 :: cats)).
Proof.
  intros Hjson. unfold _parse_classify_output, guarded_parse, parse_label, and_then.
  by rewrite Hjson.
Qed.

Lemma unmatched_label_falls_back py raw c0 cats items f :
  json_loads py (strip_fences raw) = Return (PyDict items) →
  py_float py (default (PyFloat (Finite (1 # 2))) (dict_get "confidence" items))
    = Return f →
  (∀ c, c ∈ c0 :: cats →
     py_lower c ≠ py_lower (py_str py (default (PyStr c0) (dict_get "label" items)))) →
  _parse_classify_output py raw (c0 :: cats) =
  Return (c0, (1 # 2)%Q, build_scores c0 (1 # 2) (c0 :: cats)).
Proof.
  intros Hjson Hf Hno.
  unfold _parse_classify_output, guarded_parse, parse_label, and_then.
  rewrite Hjson. simpl. rewrite Hf.
  destruct (lower_map (c0 :: cats) !! _) as [canonical|] eqn:Hlow; [|done].
  apply lower_map_Some in Hlow as [Hin Heq]. by destruct (Hno canonical Hin).
Qed.

Lemma unconvertible_confidence_falls_back py raw c0 cats items :
  json_loads py (strip_fences raw) = Return (PyDict items) →
  py_float py (default (PyFloat (Finite (1 # 2))) (dict_get "confidence" items))
    = Raise TypeError →
  _parse_classify_output py raw (c0 :: cats) =
  Return (c0, (1 # 2)%Q, build_scores c0 (1 # 2) (c0 :: cats)).
Proof.
  intros Hjson Hf.
  unfold _parse_classify_output, guarded_parse, parse_label, and_then.
  rewrite Hjson. simpl. by rewrite Hf.
Qed.

(** What it does not cover: output that decodes to something else than
    an object, and a confidence that [float] rejects with [ValueError]. *)
Lemma non_object_output_raises py raw cats v :
  json_loads py (strip_fences raw) = Return v →
  (∀ items, v ≠ PyDict items) →
  _parse_classify_output py raw cats = Raise AttributeError.
Proof.
  intros Hjson Hv. unfold _parse_classify_output, guarded_parse, parse_label, and_then.
  rewrite Hjson. destruct v; try done. by destruct (Hv items).
Qed.

(** C5.  The parser does not always return: on the output [123], which
    decodes to a number, it raises [AttributeError], and on an object
    whose confidence is the word "high" it raises [ValueError]; neither
    is caught by its handler, so no fallback label is returned. *)
Theorem malformed_output_escapes_fallback :
  _parse_classify_output cpython "123" ["positive"; "negative"] = Raise AttributeError ∧
  _parse_classify_output cpython worded_confidence_output ["positive"; "negative"]
    = Raise ValueError.
Proof. split; vm_compute; reflexivity. Qed.

(** ** Concurrent callers of one key *)

Lemma wake_up_first_lookup ws ts t s :
  wake_up_first ws ts !! t = Some s →
  ts !! t = Some s ∨
  (s = Woken ∧ ts !! t = Some Waiting ∧ ∃ rest, ws = t :: rest).
Proof.
  unfold wake_up_first. destruct ws as [|w rest]; [by left|].
  destruct (ts !! w) as [[| | | | |]|] eqn:Hw; try by left.
  intros [(-> & <- & _)|[_ H]]%list_lookup_insert_Some; [|by left].
  right. eauto.
Qed.

Lemma wake_up_first_keeps ws ts t s :
  ts !! t = Some s → s ≠ Waiting → wake_up_first ws ts !! t = Some s.
Proof.
  intros Ht Hs. unfold wake_up_first. destruct ws as [|w rest]; [done|].
  destruct (ts !! w) as [[| | | | |]|] eqn:Hw; try done.
  rewrite list_lookup_insert_ne; [done|]. intros ->. congruence.
Qed.

Lemma wake_up_first_head w rest ts :
  ts !! w = Some Waiting → wake_up_first (w :: rest) ts !! w = Some Woken.
Proof.
  intros Hw. unfold wake_up_first. rewrite Hw.
  apply list_lookup_insert_eq. by eapply lookup_lt_Some.
Qed.

Lemma wake_up_first_other w rest ts t :
  t ≠ w → wake_up_first (w :: rest) ts !! t = ts !! t.
Proof.
  intros Hne. unfold wake_up_first.
  destruct (ts !! w) as [[| | | | |]|]; try done.
  by rewrite list_lookup_insert_ne.
Qed.

Lemma total_weight_insert ts t s s' :
  ts !! t = Some s →
  (total_weight (<[t := s']> ts) + weight s = total_weight ts + weight s')%nat.
Proof.
  revert t. induction ts as [|s0 ts IH]; intros [|t] Ht; simplify_eq/=; [lia|].
  specialize (IH _ Ht). unfold total_weight in *. lia.
Qed.

Lemma total_weight_wake ws ts :
  total_weight (wake_up_first ws ts) = total_weight ts.
Proof.
  unfold wake_up_first. destruct ws as [|w rest]; [done|].
  destruct (ts !! w) as [[| | | | |]|] eqn:Hw; try done.
  pose proof (total_weight_insert ts w Waiting Woken Hw) as H. simpl in H. lia.
Qed.

(** Every step brings its caller nearer to its return. *)
Lemma step_weight e k k' :
  step e k = Some k' →
  (total_weight (callers k') < total_weight (callers k))%nat.
Proof.
  destruct e as [t|t ok]; simpl.
  - destruct (callers k !! t) as [[| | | | |]|] eqn:Ht; try done.
    + destruct (resident k) as [h|] eqn:Hres.
      * intros [= <-]. simpl.
        pose proof (total_weight_insert _ _ _ (Done h) Ht) as H. simpl in H. lia.
      * destruct (negb (locked k) && bool_decide (waiters k = [])).
        -- intros [= <-]. unfold locked_section. rewrite Hres. simpl.
           pose proof (total_weight_insert _ _ _ (Loading (invocations k)) Ht) as H.
           simpl in H. lia.
        -- intros [= <-]. simpl.
           pose proof (total_weight_insert _ _ _ Waiting Ht) as H. simpl in H. lia.
    + intros [= <-]. unfold locked_section.
      destruct (resident k) as [h|]; simpl.
      * rewrite total_weight_wake.
        pose proof (total_weight_insert _ _ _ (Done h) Ht) as H. simpl in H. lia.
      * pose proof (total_weight_insert _ _ _ (Loading (invocations k)) Ht) as H.
        simpl in H. lia.
  - destruct (callers k !! t) as [[| | |id| |]|] eqn:Ht; try done.
    intros [= <-]. simpl. rewrite total_weight_wake.
    pose proof (total_weight_insert _ _ _ (if ok then Done id else Failed) Ht) as H.
    destruct ok; simpl in H; lia.
Qed.

Lemma run_length schedule k k' :
  run schedule k = Some k' →
  (length schedule + total_weight (callers k') ≤ total_weight (callers k))%nat.
Proof.
  revert k. induction schedule as [|e schedule IH]; intros k; simpl.
  - intros [= ->]. lia.
  - destruct (step e k) as [k1|] eqn:Hstep; [|done].
    intros Hrun. specialize (IH _ Hrun). apply step_weight in Hstep. lia.
Qed.

Lemma total_weight_start n : total_weight (replicate n Start) = (3 * n)%nat.
Proof. induction n as [|n IH]; simpl; [done|]. unfold total_weight in *. lia. Qed.

Lemma lookup_insert_other (ts : list caller_state) t t' s s' x :
  ts !! t = Some s → ts !! t' = Some s' → s ≠ s' → <[t := x]> ts !! t' = Some s'.
Proof.
  intros Ht Ht' Hne. rewrite list_lookup_insert_ne; [done|]. intros ->. congruence.
Qed.

Ltac split_lookup H :=
  apply list_lookup_insert_Some in H as [(? & ? & ?)|[? H]]; simplify_eq.

Lemma key_invariant_initial n : key_invariant (concurrent_calls n).
Proof.
  assert (∀ t s, replicate n Start !! t = Some s → s = Start) as Hstart.
  { intros t s [-> _]%lookup_replicate. done. }
  split; simpl; try done.
  - intros t id Ht. by apply Hstart in Ht.
  - intros t1 t2 id1 id2 Ht. by apply Hstart in Ht.
  - intros t Ht. by apply Hstart in Ht.
  - intros t h Ht. by apply Hstart in Ht.
  - intros t Ht. by apply Hstart in Ht.
  - intros t Ht. by apply Hstart in Ht.
  - intros t Ht. by apply Hstart in Ht.
  - intros t Ht. by apply elem_of_nil in Ht.
  - apply NoDup_nil_2.
Qed.

Lemma key_invariant_fast_path k t h :
  key_invariant k → callers k !! t = Some Start → resident k = Some h →
  key_invariant {| resident := resident k; locked := locked k;
                   waiters := waiters k; invocations := invocations k;
                   callers := <[t := Done h]> (callers k) |}.
Proof.
  intros Hinv Ht Hres. destruct Hinv. split; simpl.
  - intros t' id H. split_lookup H. eauto.
  - intros Hl. destruct (lock_held_by_loader0 Hl) as (t' & id & H).
    exists t', id. by eapply lookup_insert_other.
  - intros t1 t2 id1 id2 H1 H2. split_lookup H1. split_lookup H2. eauto.
  - done.
  - done.
  - intros t' H. split_lookup H. eauto.
  - intros t' h' H. split_lookup H; eauto.
  - intros t' H. split_lookup H. by eapply nobody_failed0.
  - intros t' H. split_lookup H. eauto.
  - intros t' H. split_lookup H. eauto.
  - intros t' Hin. destruct (queue_waits0 _ Hin) as [H|H]; [left|right];
      by eapply lookup_insert_other.
  - done.
  - intros Hne. destruct (queue_served0 Hne) as [(t' & id & H)|(t' & H)];
      [left; exists t', id|right; exists t']; by eapply lookup_insert_other.
Qed.

Lemma key_invariant_queue k t :
  key_invariant k → callers k !! t = Some Start → resident k = None →
  negb (locked k) && bool_decide (waiters k = []) = false →
  key_invariant {| resident := resident k; locked := locked k;
                   waiters := waiters k ++ [t]; invocations := invocations k;
                   callers := <[t := Waiting]> (callers k) |}.
Proof.
  intros Hinv Ht Hres Hbusy. destruct Hinv. split; simpl.
  - intros t' id H. split_lookup H. eauto.
  - intros Hl. destruct (lock_held_by_loader0 Hl) as (t' & id & H).
    exists t', id. by eapply lookup_insert_other.
  - intros t1 t2 id1 id2 H1 H2. split_lookup H1. split_lookup H2. eauto.
  - done.
  - done.
  - intros t' H. split_lookup H. eauto.
  - intros t' h' H. split_lookup H; eauto.
  - intros t' H. split_lookup H. by eapply nobody_failed0.
  - intros t' H. apply elem_of_app. split_lookup H.
    + right. by apply list_elem_of_singleton.
    + left. eauto.
  - intros t' H. split_lookup H. destruct (woken_is_first0 _ H) as [rest ->].
    by exists (rest ++ [t]).
  - intros t' [Hin | ->%list_elem_of_singleton]%elem_of_app.
    + destruct (queue_waits0 _ Hin) as [H|H]; [left|right];
        by eapply lookup_insert_other.
    + left. apply list_lookup_insert_eq. by eapply lookup_lt_Some.
  - apply NoDup_app. split; [done|]. split; [|apply NoDup_singleton].
    intros t' Hin ->%list_elem_of_singleton.
    destruct (queue_waits0 _ Hin); congruence.
  - intros _.
    assert ((∃ t' id, callers k !! t' = Some (Loading id)) ∨
            (∃ t', callers k !! t' = Some Woken)) as [(t' & id & H)|(t' & H)].
    { destruct (locked k) eqn:Hl; [left; by apply lock_held_by_loader0|].
      apply queue_served0. intros Hnil. simpl in Hbusy.
      by rewrite bool_decide_eq_true_2 in Hbusy. }
    + left. exists t', id. by eapply lookup_insert_other.
    + right. exists t'. by eapply lookup_insert_other.
Qed.

Lemma key_invariant_submit k t :
  key_invariant k → callers k !! t = Some Start → resident k = None →
  locked k = false →
  key_invariant {| resident := None; locked := true; waiters := waiters k;
                   invocations := S (invocations k);
                   callers := <[t := Loading (invocations k)]> (callers k) |}.
Proof.
  intros Hinv Ht Hres Hfree. destruct Hinv.
  assert (∀ t' id, callers k !! t' ≠ Some (Loading id)) as Hnone.
  { intros t' id H. apply loading_holds_lock0 in H as [? _]. congruence. }
  pose proof (idle_never_loaded0 Hres Hfree) as Hzero.
  split; simpl.
  - intros t' id H. split_lookup H; [by rewrite Hzero|by destruct (Hnone t' id)].
  - intros _. exists t, (invocations k).
    apply list_lookup_insert_eq. by eapply lookup_lt_Some.
  - intros t1 t2 id1 id2 H1 H2.
    split_lookup H1; [|by destruct (Hnone t1 id1)].
    split_lookup H2; [done|by destruct (Hnone t2 id2)].
  - done.
  - done.
  - intros t' H. split_lookup H. apply woken_finds_handle0 in H.
    rewrite Hres in H. by destruct H.
  - intros t' h H. split_lookup H. apply done_has_resident0 in H. congruence.
  - intros t' H. split_lookup H. by eapply nobody_failed0.
  - intros t' H. split_lookup H. eauto.
  - intros t' H. split_lookup H. eauto.
  - intros t' Hin. destruct (queue_waits0 _ Hin) as [H|H]; [left|right];
      by eapply lookup_insert_other.
  - done.
  - intros _. left. exists t, (invocations k).
    apply list_lookup_insert_eq. by eapply lookup_lt_Some.
Qed.

(** Leaving the locked section with the handle in the registry. *)
Lemma key_invariant_release k t s h rest :
  callers k !! t = Some s →
  (∀ t' id, t' ≠ t → callers k !! t' ≠ Some (Loading id)) →
  (∀ t', t' ≠ t → callers k !! t' ≠ Some Woken) →
  (∀ t' h', callers k !! t' = Some (Done h') → h' = h) →
  (∀ t', callers k !! t' ≠ Some Failed) →
  h = 0%nat → invocations k = 1%nat →
  (∀ t', t' ≠ t → callers k !! t' = Some Waiting → t' ∈ rest) →
  (∀ t', t' ∈ rest → t' ≠ t ∧ callers k !! t' = Some Waiting) →
  NoDup rest →
  key_invariant {| resident := Some h; locked := false; waiters := rest;
                   invocations := invocations k;
                   callers := wake_up_first rest (<[t := Done h]> (callers k)) |}.
Proof.
  intros Ht Hload Hwoken Hdone Hfail Hh Hinv Hqueued Hrest Hnd.
  set (ts1 := <[t := Done h]> (callers k)).
  assert (∀ t' s', ts1 !! t' = Some s' →
            (t' = t ∧ s' = Done h) ∨ (t' ≠ t ∧ callers k !! t' = Some s')) as Hts1.
  { intros t' s' H. subst ts1. split_lookup H; eauto. }
  assert (∀ t', t' ∈ rest → ts1 !! t' = Some Waiting) as Hrest1.
  { intros t' Hin. destruct (Hrest _ Hin) as [Hne Hw].
    subst ts1. by rewrite list_lookup_insert_ne. }
  split; simpl.
  - intros t' id [H|(? & _)]%wake_up_first_lookup; [|done].
    apply Hts1 in H as [[_ ?]|[Hne H]]; [done|]. by destruct (Hload t' id).
  - done.
  - intros t1 t2 id1 id2 [H|(? & _)]%wake_up_first_lookup; [|done].
    apply Hts1 in H as [[_ ?]|[Hne H]]; [done|]. by destruct (Hload t1 id1).
  - intros h' [= <-]. done.
  - done.
  - intros. eauto.
  - intros t' h' [H|(? & _)]%wake_up_first_lookup; [|done].
    apply Hts1 in H as [[_ [= ->]]|[Hne H]]; [done|]. f_equal. symmetry. eauto.
  - intros t' [H|(? & _)]%wake_up_first_lookup; [|done].
    apply Hts1 in H as [[_ ?]|[Hne H]]; [done|]. by destruct (Hfail t').
  - intros t' [H|(? & _)]%wake_up_first_lookup; [|done].
    apply Hts1 in H as [[_ ?]|[Hne H]]; [done|]. eauto.
  - intros t' [H|(_ & _ & Hhead)]%wake_up_first_lookup; [|done].
    apply Hts1 in H as [[_ ?]|[Hne H]]; [done|]. by destruct (Hwoken t').
  - intros t' Hin. destruct rest as [|w rest']; [by apply elem_of_nil in Hin|].
    destruct (decide (t' = w)) as [->|Hne].
    + right. apply wake_up_first_head. apply Hrest1, list_elem_of_here.
    + left. rewrite wake_up_first_other by done. by apply Hrest1.
  - done.
  - intros Hne. right. destruct rest as [|w rest']; [done|].
    exists w. apply wake_up_first_head. apply Hrest1, list_elem_of_here.
Qed.

Lemma key_invariant_woken k t :
  key_invariant k → callers k !! t = Some Woken →
  key_invariant (locked_section t (remove_first t (waiters k)) k).
Proof.
  intros Hinv Ht. destruct Hinv.
  destruct (woken_finds_handle0 _ Ht) as [h Hres].
  destruct (woken_is_first0 _ Ht) as [rest Hws].
  destruct (resident_is_first0 _ Hres) as [Hh Hone].
  unfold locked_section. rewrite Hres, Hws. simpl.
  rewrite bool_decide_eq_true_2 by done.
  rewrite Hws in queue_nodup0. apply NoDup_cons in queue_nodup0 as [Hnotin Hnd].
  eapply key_invariant_release; try done.
  - intros t' id _ H. apply loading_holds_lock0 in H as (_ & ? & _). congruence.
  - intros t' Hne H. destruct (woken_is_first0 _ H) as [rest' Hws'].
    rewrite Hws in Hws'. congruence.
  - intros t' h' H. apply done_has_resident0 in H. congruence.
  - intros t' Hne H. apply waiting_is_queued0 in H. rewrite Hws in H.
    by apply elem_of_cons in H as [?|?].
  - intros t' Hin. assert (t' ≠ t) as Hne by (intros ->; done).
    split; [done|].
    destruct (queue_waits0 t') as [H|H]; [rewrite Hws; by apply list_elem_of_further|done|].
    destruct (woken_is_first0 _ H) as [rest' Hws']. rewrite Hws in Hws'. congruence.
Qed.

Lemma key_invariant_load_done k t id :
  key_invariant k → callers k !! t = Some (Loading id) →
  key_invariant {| resident := Some id; locked := false; waiters := waiters k;
                   invocations := invocations k;
                   callers := wake_up_first (waiters k) (<[t := Done id]> (callers k)) |}.
Proof.
  intros Hinv Ht. pose proof Hinv as Hinv'. destruct Hinv.
  destruct (loading_holds_lock0 _ _ Ht) as (Hl & Hres & Hone & Hid).
  assert (∀ t', callers k !! t' ≠ Some Woken) as Hnowoken.
  { intros t' H. apply woken_finds_handle0 in H. rewrite Hres in H. by destruct H. }
  eapply key_invariant_release; try done.
  - intros t' id' Hne H. by destruct (Hne (one_loader0 _ _ _ _ H Ht)).
  - intros t' h' H. apply done_has_resident0 in H. congruence.
  - intros t' _. apply waiting_is_queued0.
  - intros t' Hin. destruct (queue_waits0 _ Hin) as [H|H].
    + split; [|done]. intros ->. congruence.
    + by destruct (Hnowoken t').
Qed.

(** The invariant survives every step while the loader succeeds. *)
Lemma key_invariant_step e k k' :
  key_invariant k → step e k = Some k' → (∀ t, e ≠ LoadDone t false) →
  key_invariant k'.
Proof.
  intros Hinv Hstep Hok. destruct e as [t|t ok]; simpl in Hstep.
  - destruct (callers k !! t) as [[| | | | |]|] eqn:Ht; try done.
    + destruct (resident k) as [h|] eqn:Hres.
      * injection Hstep as <-. rewrite <-Hres at 1. by apply key_invariant_fast_path.
      * destruct (negb (locked k) && bool_decide (waiters k = [])) eqn:Hfree.
        -- injection Hstep as <-. unfold locked_section. rewrite Hres.
           apply andb_true_iff in Hfree as [Hl _].
           apply key_invariant_submit; [done..|]. by destruct (locked k).
        -- injection Hstep as <-. rewrite <-Hres. by apply key_invariant_queue.
    + injection Hstep as <-. by apply key_invariant_woken.
  - destruct (callers k !! t) as [[| | |id| |]|] eqn:Ht; try done.
    destruct ok; [|by destruct (Hok t)].
    injection Hstep as <-. by apply key_invariant_load_done.
Qed.

Lemma key_invariant_run schedule k k' :
  key_invariant k → loader_succeeds schedule → run schedule k = Some k' →
  key_invariant k'.
Proof.
  revert k. induction schedule as [|e schedule IH]; intros k Hinv Hok; simpl.
  - by intros [= <-].
  - destruct (step e k) as [k1|] eqn:Hstep; [|done].
    apply IH.
    + eapply key_invariant_step; [done..|].
      intros t ->. apply (Hok t), list_elem_of_here.
    + intros t Hin. apply (Hok t). by apply list_elem_of_further.
Qed.

Lemma pending_caller (ts : list caller_state) :
  (∀ t s, ts !! t = Some s → ∃ h, s = Done h) ∨
  (∃ t s, ts !! t = Some s ∧ ∀ h, s ≠ Done h).
Proof.
  induction ts as [|s ts [IH|(t & s' & Ht & Hs)]].
  - left. intros t s Ht. by rewrite lookup_nil in Ht.
  - destruct s as [| | |id|h|];
      try (right; exists 0%nat; eexists; split; [reflexivity|done]).
    left. intros [|t] s'; simpl; [intros [= <-]; eauto|apply IH].
  - right. exists (S t), s'. done.
Qed.

(** No deadlock: while a caller has not returned, some step is enabled. *)
Lemma key_invariant_progress k :
  key_invariant k →
  all_done k ∨ ∃ e, enabled e k ∧ loader_succeeds [e].
Proof.
  intros Hinv.
  destruct (pending_caller (callers k)) as [Hall|(t & s & Ht & Hs)]; [by left|].
  right.
  assert (∀ t', callers k !! t' = Some Start ∨ callers k !! t' = Some Woken →
            enabled (Resume t') k ∧ loader_succeeds [Resume t']) as Hresume.
  { intros t' Ht'. split.
    - unfold enabled. simpl. destruct Ht' as [-> | ->]; [|done].
      destruct (resident k); [done|by destruct (negb _ && _)].
    - by intros t0 [?|?%elem_of_nil]%elem_of_cons. }
  assert (∀ t' id, callers k !! t' = Some (Loading id) →
            enabled (LoadDone t' true) k ∧ loader_succeeds [LoadDone t' true])
    as Hload.
  { intros t' id Ht'. split.
    - unfold enabled. simpl. by rewrite Ht'.
    - by intros t0 [?|?%elem_of_nil]%elem_of_cons. }
  destruct s as [| | |id|h|].
  - exists (Resume t). auto.
  - assert (waiters k ≠ []) as Hne.
    { intros Hnil. apply (waiting_is_queued k Hinv) in Ht.
      rewrite Hnil in Ht. by apply elem_of_nil in Ht. }
    destruct (queue_served k Hinv Hne) as [(t' & id & H)|(t' & H)].
    + exists (LoadDone t' true). eauto.
    + exists (Resume t'). auto.
  - exists (Resume t). auto.
  - exists (LoadDone t true). eauto.
  - by destruct (Hs h).
  - by destruct (nobody_failed k Hinv t).
Qed.

(** C8, amended.  Concurrent [get_or_load] calls for one key that is
    not yet resident, two or any number [n] of them, under every
    interleaving the event loop allows and with a loader that succeeds: the loader is
    invoked at most once at every instant and exactly once as soon as a
    caller has returned; all callers that have returned hold the same
    handle, the one in the registry; no interleaving is longer than
    3 n steps, and as long as a caller has not returned some step is
    enabled, so every caller returns. *)
Theorem concurrent_calls_load_once (n : nat) (schedule : list event) (k : KeyState) :
  run schedule (concurrent_calls n) = Some k →
  loader_succeeds schedule →
  (invocations k ≤ 1)%nat ∧
  (∀ t1 t2 h1 h2,
     callers k !! t1 = Some (Done h1) → callers k !! t2 = Some (Done h2) → h1 = h2) ∧
  (∀ t h, callers k !! t = Some (Done h) →
     resident k = Some h ∧ invocations k = 1%nat) ∧
  (length schedule ≤ 3 * n)%nat ∧
  (all_done k ∨ ∃ e, enabled e k ∧ loader_succeeds [e]).
Proof.
  intros Hrun Hok.
  assert (key_invariant k) as Hinv.
  { eapply key_invariant_run; [apply key_invariant_initial|done..]. }
  split; [|split; [|split; [|split]]].
  - destruct (resident k) as [h|] eqn:Hres.
    + destruct (resident_is_first k Hinv h Hres) as [_ ->]. lia.
    + destruct (locked k) eqn:Hl.
      * destruct (lock_held_by_loader k Hinv Hl) as (t & id & Ht).
        destruct (loading_holds_lock k Hinv t id Ht) as (_ & _ & -> & _). lia.
      * rewrite (idle_never_loaded k Hinv Hres Hl). lia.
  - intros t1 t2 h1 h2 H1 H2.
    apply (done_has_resident k Hinv) in H1, H2. congruence.
  - intros t h Ht. pose proof (done_has_resident k Hinv t h Ht) as Hres.
    split; [done|]. by destruct (resident_is_first k Hinv h Hres).
  - pose proof (run_length _ _ _ Hrun) as Hlen. simpl in Hlen.
    rewrite total_weight_start in Hlen. lia.
  - by apply key_invariant_progress.
Qed.

Lemma concurrent_calls_load_once_witness :
  run [Resume 0; Resume 1; LoadDone 0 true; Resume 1] (concurrent_calls 2) =
  Some {| resident := Some 0%nat; locked := false; waiters := []; invocations := 1;
          callers := [Done 0; Done 0] |} ∧
  (1 ≤ 1)%nat ∧ (4 ≤ 3 * 2)%nat.
Proof.
  assert (run [Resume 0; Resume 1; LoadDone 0 true; Resume 1] (concurrent_calls 2) =
          Some {| resident := Some 0%nat; locked := false; waiters := [];
                  invocations := 1; callers := [Done 0; Done 0] |}) as Hrun
    by (vm_compute; reflexivity).
  destruct (concurrent_calls_load_once 2 _ _ Hrun) as (Hinv & _ & _ & Hlen & _).
  - intros t Hin. repeat (apply elem_of_cons in Hin as [Heq|Hin]; [discriminate Heq|]).
    by apply elem_of_nil in Hin.
  - split; [exact Hrun|]. split; [exact Hinv|exact Hlen].
Defined.

(** C8, as stated, fails: when the first load fails, the caller queued
    behind it loads again.  Two concurrent callers then invoke the loader
    twice, one after the other, and they do not receive the same handle:
    the first one fails, and the second one receives the handle of the
    second load, or fails as well. *)
Lemma failed_load_is_retried :
  run [Resume 0; Resume 1; LoadDone 0 false; Resume 1; LoadDone 1 true]
    (concurrent_calls 2) =
  Some {| resident := Some 1%nat; locked := false; waiters := []; invocations := 2;
          callers := [Failed; Done 1] |} ∧
  run [Resume 0; Resume 1; LoadDone 0 false; Resume 1; LoadDone 1 false]
    (concurrent_calls 2) =
  Some {| resident := None; locked := false; waiters := []; invocations := 2;
          callers := [Failed; Failed] |}.
Proof. split; vm_compute; reflexivity. Qed.

(** ** The end-to-end scenario of the specification, one request after
    the other

    With a daily limit of 2 for classify, categories positive and
    negative and the backend answering the scenario output, the first two
    requests are classified as positive with confidence 0.8 and scores
    0.8 and 1.0 - 0.8 (the double 0.19999999999999996), and the third is
    refused with used = 2 and limit = 2. *)
Example scenario_in_sequence :
  let cats := ["positive"; "negative"] in
  let rq := classify_request "I liked it a lot" cats in
  let db := {| operation_limits := {["classify" := 2]}; usage_log := [] |} in
  classified_as cats <$>
    (serve settings cpython (canned_backend scenario_output 12) (same_day 20000)
       [rq; rq; rq] db {| _registry := ∅; _locks := ∅ |}).1.1 =
  let confidence := round_float (8 # 10) in
  let other := round_float (1 - confidence) in
  [Return ("positive", confidence, [Some confidence; Some other]);
   Return ("positive", confidence, [Some confidence; Some other]);
   Raise (LimitExceededError "classify" 2 2)].
Proof. vm_compute. reflexivity. Qed.

(** * Further properties of the code *)

(** ** Token accounting *)

Lemma usage_of_select op day db :
  usage_of op day db = (select_usage op day (usage_log db)).*2.
Proof. reflexivity. Qed.

Lemma usage_of_singleton op day db u :
  usage_of op day db = [u] → ∃ pk, select_usage op day (usage_log db) = [(pk, u)].
Proof.
  unfold usage_of. destruct (select_usage op day (usage_log db)) as [|[pk u'] [|? ?]];
    simpl; intros [= <-]. by exists pk.
Qed.

Lemma sqlite_integer_true z : sqlite_integer z = true ↔ - 2 ^ 63 ≤ z < 2 ^ 63.
Proof.
  unfold sqlite_integer.
  rewrite andb_true_iff, !bool_decide_eq_true. tauto.
Qed.

Lemma sqlite_integer_false z : sqlite_integer z = false ↔ ¬ (- 2 ^ 63 ≤ z < 2 ^ 63).
Proof. rewrite <-sqlite_integer_true. by destruct (sqlite_integer z). Qed.

(** X1.  Take at most one usage row for the operation today, and let
    the new total be its total_tokens (0 without a row) plus the tokens.
    When the new total fits a 64-bit signed INTEGER column,
    [record_tokens] returns normally and leaves exactly one row, durably,
    whose total_tokens is the new total and whose request_count is what
    it was (0 when created): accounting never counts a request.  When it
    does not fit, [record_tokens] raises [OverflowError] and the durable
    database is what it was. *)
Theorem record_tokens_adds_tokens_only today op t s :
  (length (usage_of op today (pending s)) ≤ 1)%nat →
  let total := default 0 (total_tokens <$> head (usage_of op today (pending s))) + t in
  (- 2 ^ 63 ≤ total < 2 ^ 63 →
   (record_tokens today op t s).1 = Return tt ∧
   ∃ u',
     usage_of op today (pending (record_tokens today op t s).2) = [u'] ∧
     usage_of op today (committed (record_tokens today op t s).2) = [u'] ∧
     request_count u' =
       default 0 (request_count <$> head (usage_of op today (pending s))) ∧
     total_tokens u' = total) ∧
  (¬ (- 2 ^ 63 ≤ total < 2 ^ 63) →
   (record_tokens today op t s).1 = Raise OverflowError ∧
   committed (record_tokens today op t s).2 = committed s).
Proof.
  unfold usage_of.
  destruct (select_usage op today (usage_log (pending s)))
    as [|[pk u] [|p2 ps]] eqn:Hsel; simpl; intros Hlen; [| |lia].
  - rewrite record_tokens_new by done. cbv zeta. split.
    + intros ->%sqlite_integer_true. simpl. split; [done|].
      rewrite select_usage_snoc by (done || apply usage_matches_new). simpl. eauto.
    + by intros ->%sqlite_integer_false.
  - rewrite (record_tokens_found _ _ _ _ pk u) by done. cbv zeta. split.
    + intros ->%sqlite_integer_true. simpl. split; [done|].
      destruct (select_usage_singleton_lookup _ _ _ _ _ Hsel) as [Hlk Hop].
      assert (usage_matches op today u = true) as Hm.
      { eapply select_usage_elem. rewrite Hsel. by apply list_elem_of_singleton. }
      destruct (usage_matches_keys _ _ _ Hm) as [_ Hday].
      erewrite select_usage_insert; [|done|].
      * simpl. eauto.
      * unfold usage_matches. simpl. by rewrite Hop, Hday, !bool_decide_eq_true_2.
    + by intros ->%sqlite_integer_false.
Qed.

Lemma record_tokens_adds_tokens_only_witness :
  (∃ u',
     usage_of "summarize" 20000
       (committed (record_tokens 20000 "summarize" 30 (open_session ledger_at_limit)).2)
     = [u'] ∧ request_count u' = 5 ∧ total_tokens u' = 150) ∧
  (record_tokens 20000 "summarize" (2 ^ 63 - 120) (open_session ledger_at_limit)).1
    = Raise OverflowError ∧
  committed (record_tokens 20000 "summarize" (2 ^ 63 - 120)
               (open_session ledger_at_limit)).2 = ledger_at_limit.
Proof.
  split.
  - destruct (record_tokens_adds_tokens_only 20000 "summarize" 30
                (open_session ledger_at_limit)) as [Hfits _].
    + vm_compute. lia.
    + destruct Hfits as (_ & u' & _ & Hc & Hcnt & Htok).
      * split; [apply Z.leb_le|apply Z.ltb_lt]; vm_compute; reflexivity.
      * exists u'. split; [exact Hc|]. split; [exact Hcnt|exact Htok].
  - destruct (record_tokens_adds_tokens_only 20000 "summarize" (2 ^ 63 - 120)
                (open_session ledger_at_limit)) as [_ Hover].
    + vm_compute. lia.
    + apply Hover. intros [_ Hlt%Z.ltb_lt]. vm_compute in Hlt. discriminate Hlt.
Defined.

(** With two rows for the operation and the day, accounting raises and
    writes nothing. *)
Lemma record_tokens_duplicates today op t s :
  (2 ≤ length (usage_of op today (pending s)))%nat →
  record_tokens today op t s = (Raise MultipleResultsFound, s).
Proof.
  unfold usage_of.
  destruct (select_usage op today (usage_log (pending s)))
    as [|p1 [|p2 ps]] eqn:Hsel; simpl; intros Hlen; [lia..|].
  by apply (record_tokens_many _ _ _ _ p1 p2 ps).
Qed.

(** ** What the quota service leaves alone *)

Lemma select_usage_found_keys op day rows pk u :
  select_usage op day rows = [(pk, u)] →
  rows !! pk = Some u ∧ operation u = op ∧ log_date u = day.
Proof.
  intros Hsel.
  assert ((pk, u) ∈ select_usage op day rows) as Hin
    by (rewrite Hsel; by apply list_elem_of_singleton).
  apply select_usage_elem in Hin as [Hlk Hm].
  by destruct (usage_matches_keys _ _ _ Hm).
Qed.

Lemma check_and_increment_log_step cfg today op t s :
  log_step op today (usage_log (pending s))
    (usage_log (pending (check_and_increment cfg today op t s).2)) ∧
  operation_limits (pending (check_and_increment cfg today op t s).2) =
  operation_limits (pending s).
Proof.
  destruct (decide (limit_of cfg (pending s) op = 0)) as [Hz|Hnz].
  { rewrite check_and_increment_unlimited by done. split; [by left|done]. }
  destruct (select_usage op today (usage_log (pending s)))
    as [|[pk u] [|p2 ps]] eqn:Hsel.
  - destruct (Z_lt_le_dec 0 (limit_of cfg (pending s) op)) as [Hpos|Hneg].
    + rewrite check_and_increment_first by done. simpl. split; [|done].
      right. left. eexists. split; [done|]. done.
    + rewrite check_and_increment_refused_new by (done || lia). simpl. split; [|done].
      right. left. eexists. split; [done|]. done.
  - destruct (select_usage_found_keys _ _ _ _ _ Hsel) as (Hlk & Hop & Hday).
    destruct (Z_lt_le_dec (request_count u) (limit_of cfg (pending s) op)) as [Hlt|Hle].
    + rewrite (check_and_increment_again _ _ _ _ _ pk u) by done. simpl.
      split; [|done]. right. right. exists pk, u, (bump t u). simpl.
      repeat split; try done; lia.
    + rewrite (check_and_increment_exceeded _ _ _ _ _ pk u) by done.
      split; [by left|done].
  - rewrite (check_and_increment_many _ _ _ _ _ (pk, u) p2 ps) by done.
    split; [by left|done].
Qed.

Lemma record_tokens_log_step today op t s :
  log_step op today (usage_log (pending s))
    (usage_log (pending (record_tokens today op t s).2)) ∧
  operation_limits (pending (record_tokens today op t s).2) =
  operation_limits (pending s).
Proof.
  destruct (select_usage op today (usage_log (pending s)))
    as [|[pk u] [|p2 ps]] eqn:Hsel.
  - rewrite record_tokens_new by done. cbv zeta.
    destruct (sqlite_integer _); simpl; (split; [|done]);
      right; left; eexists; (split; [done|]); done.
  - destruct (select_usage_found_keys _ _ _ _ _ Hsel) as (Hlk & Hop & Hday).
    rewrite (record_tokens_found _ _ _ _ pk u) by done. cbv zeta.
    destruct (sqlite_integer _); simpl; (split; [|done]); right; right;
      exists pk, u, {| operation := operation u; log_date := log_date u;
                       request_count := request_count u;
                       total_tokens := total_tokens u + t |};
      simpl; repeat split; try done; lia.
  - rewrite (record_tokens_many _ _ _ _ (pk, u) p2 ps) by done.
    split; [by left|done].
Qed.

Lemma select_usage_from_insert_other pk0 op day rows i r u :
  rows !! i = Some r →
  usage_matches op day r = false → usage_matches op day u = false →
  select_usage_from pk0 op day (<[i := u]> rows) = select_usage_from pk0 op day rows.
Proof.
  revert pk0 i. induction rows as [|r0 rows IH]; intros pk0 [|i] Hr Hmr Hmu;
    simplify_eq/=.
  - by rewrite Hmr, Hmu.
  - by rewrite (IH (S pk0) i).
Qed.

Lemma usage_matches_other op day op' day' u :
  operation u = op → log_date u = day → (op, day) ≠ (op', day') →
  usage_matches op' day' u = false.
Proof.
  intros <- <- Hne. unfold usage_matches.
  apply andb_false_iff.
  destruct (decide (operation u = op')) as [Hop|Hop];
    [right|left]; apply bool_decide_eq_false_2; [|done].
  intros Hday. apply Hne. by rewrite Hop, Hday.
Qed.

Lemma log_step_other op day op' day' rows rows' :
  log_step op day rows rows' → (op, day) ≠ (op', day') →
  select_usage op' day' rows' = select_usage op' day' rows.
Proof.
  intros [->|[(x & -> & Hop & Hday)|(pk & u & u' & Hlk & -> & Hop & Hday & Hop' & Hday' & _)]]
    Hne; [done| |].
  - unfold select_usage. rewrite select_usage_from_app. simpl.
    rewrite (usage_matches_other op day) by done. by rewrite app_nil_r.
  - apply (select_usage_from_insert_other _ _ _ _ _ u); [done|..];
      by apply (usage_matches_other op day).
Qed.

(** X2.  Admission and token accounting write one key only: whatever
    the outcome of the call, the rows of every other operation and of
    every other day are as they were, and so is every limit; the two
    reports and [update_limit] change no usage row at all. *)
Theorem quota_ops_write_one_key cfg (o : quota_op) s op' day' :
  written_key o ≠ Some (op', day') →
  usage_of op' day' (pending (run_quota_op cfg o s)) = usage_of op' day' (pending s) ∧
  ((∀ op n, o ≠ UpdateLimit op n) →
   operation_limits (pending (run_quota_op cfg o s)) = operation_limits (pending s)).
Proof.
  intros Hkey. unfold usage_of.
  destruct o as [today op t|today op t|op n| |today]; simpl in *.
  - destruct (check_and_increment_log_step cfg today op t s) as [Hstep Hlim].
    split; [|done]. f_equal. apply (log_step_other op today); [done|congruence].
  - destruct (record_tokens_log_step today op t s) as [Hstep Hlim].
    split; [|done]. f_equal. apply (log_step_other op today); [done|congruence].
  - split; [done|]. intros Hne. by destruct (Hne op n).
  - done.
  - unfold get_usage_response, bind, get. by rewrite usage_rows_response_state.
Qed.

Lemma quota_ops_write_one_key_witness :
  usage_of "summarize" 20000
    (pending (run_quota_op settings (CheckAndIncrement 20001 "summarize" 0)
                (open_session ledger_at_limit))) =
  usage_of "summarize" 20000 (pending (open_session ledger_at_limit)).
Proof.
  apply (quota_ops_write_one_key settings (CheckAndIncrement 20001 "summarize" 0)
           (open_session ledger_at_limit) "summarize" 20000).
  simpl. discriminate.
Defined.

(** X3.  No operation of the quota service deletes a usage row or takes
    a request back: a row keeps its place, its operation and its day, and
    its request_count stays or grows by one. *)
Theorem usage_rows_only_grow cfg (o : quota_op) s i r :
  usage_log (pending s) !! i = Some r →
  ∃ r',
    usage_log (pending (run_quota_op cfg o s)) !! i = Some r' ∧
    operation r' = operation r ∧ log_date r' = log_date r ∧
    request_count r ≤ request_count r' ≤ request_count r + 1.
Proof.
  intros Hi.
  assert (∀ op day rows',
            log_step op day (usage_log (pending s)) rows' →
            ∃ r', rows' !! i = Some r' ∧ operation r' = operation r ∧
                  log_date r' = log_date r ∧
                  request_count r ≤ request_count r' ≤ request_count r + 1) as Hstep.
  { intros op day rows'
      [->|[(x & -> & _)|(pk & u & u' & Hlk & -> & Hop & Hday & Hop' & Hday' & Hcnt)]].
    - exists r. repeat split; try done; lia.
    - exists r. rewrite lookup_app_l by (by eapply lookup_lt_Some).
      repeat split; try done; lia.
    - destruct (decide (pk = i)) as [->|Hne].
      + exists u'. rewrite list_lookup_insert_eq by (by eapply lookup_lt_Some).
        simplify_eq. repeat split; try congruence; lia.
      + exists r. rewrite list_lookup_insert_ne by done.
        repeat split; try done; lia. }
  destruct o as [today op t|today op t|op n| |today]; simpl.
  - eapply Hstep, check_and_increment_log_step.
  - eapply Hstep, record_tokens_log_step.
  - exists r. repeat split; try done; lia.
  - exists r. repeat split; try done; lia.
  - unfold get_usage_response, bind, get. rewrite usage_rows_response_state.
    exists r. repeat split; try done; lia.
Qed.

Lemma usage_rows_only_grow_witness :
  ∃ r',
    usage_log (pending (run_quota_op settings (RecordTokens 20000 "summarize" 9)
                          (open_session ledger_at_limit))) !! 0%nat = Some r' ∧
    request_count r' = 5.
Proof.
  destruct (usage_rows_only_grow settings (RecordTokens 20000 "summarize" 9)
              (open_session ledger_at_limit) 0
              {| operation := "summarize"; log_date := 20000;
                 request_count := 5; total_tokens := 120 |})
    as (r' & Hlk & _ & _ & Hcnt).
  - reflexivity.
  - exists r'. split; [exact Hlk|].
    vm_compute in Hlk. injection Hlk as <-. reflexivity.
Defined.

(** ** Setting and seeding limits *)

(** X4.  [update_limit] returns normally and commits.  For an operation
    that has a limit row, [get_daily_limit] answers the new limit
    afterwards; for an operation without a row nothing is inserted, so
    the update is lost and [get_daily_limit] keeps answering the default.
    The limits of the other operations and all usage rows are as before. *)
Theorem update_limit_effect cfg op n s op' :
  (update_limit op n s).1 = Return tt ∧
  (get_daily_limit cfg op' (update_limit op n s).2).1 =
    (if bool_decide (op' = op ∧ is_Some (operation_limits (pending s) !! op))
     then Return n else (get_daily_limit cfg op' s).1) ∧
  committed (update_limit op n s).2 = pending (update_limit op n s).2 ∧
  usage_log (pending (update_limit op n s).2) = usage_log (pending s).
Proof.
  split; [done|]. split; [|done].
  rewrite !get_daily_limit_eq. simpl. unfold limit_of. simpl.
  rewrite lookup_alter. case_bool_decide as Hc.
  - destruct Hc as [-> [old Hold]]. rewrite decide_True by done. by rewrite Hold.
  - destruct (decide (op = op')) as [<-|Hne]; [|done].
    destruct (operation_limits (pending s) !! op) as [old|] eqn:Hold; [|done].
    destruct Hc. eauto.
Qed.

Lemma seed_limits_spec cfg ops s :
  (seed_limits cfg ops s).1 = Return tt ∧
  committed (seed_limits cfg ops s).2 = committed s ∧
  usage_log (pending (seed_limits cfg ops s).2) = usage_log (pending s) ∧
  ∀ op, operation_limits (pending (seed_limits cfg ops s).2) !! op =
        match operation_limits (pending s) !! op with
        | Some n => Some n
        | None => if bool_decide (op ∈ ops) then Some (DEFAULT_DAILY_LIMIT cfg) else None
        end.
Proof.
  revert s. induction ops as [|op0 ops IH]; intros s; simpl.
  - repeat split; try done. intros op. by destruct (_ !! op).
  - rewrite bind_eq. unfold seed_limit at 1 2 3 4. rewrite bind_eq. unfold get at 1 2 3 4.
    cbv beta iota.
    destruct (operation_limits (pending s) !! op0) as [n0|] eqn:H0.
    + unfold ret at 1 2 3 4. cbv beta iota.
      destruct (IH s) as (Hr & Hc & Hu & Hl). repeat split; try done.
      intros op. rewrite Hl. destruct (operation_limits (pending s) !! op) eqn:Hop; [done|].
      assert (op ≠ op0) as Hne by congruence.
      destruct (decide (op ∈ ops)) as [Hin|Hin].
      * rewrite !bool_decide_eq_true_2; [done|by apply list_elem_of_further|done].
      * rewrite !bool_decide_eq_false_2; [done| |done].
        by intros [?|?]%elem_of_cons.
    + unfold write at 1 2 3 4. cbv beta iota.
      set (s1 := {| committed := committed s; pending := _ |}).
      destruct (IH s1) as (Hr & Hc & Hu & Hl). repeat split; try done.
      intros op. rewrite Hl. subst s1. simpl.
      destruct (decide (op0 = op)) as [<-|Hne].
      * rewrite lookup_insert_eq, H0.
        by rewrite bool_decide_eq_true_2 by apply list_elem_of_here.
      * rewrite lookup_insert_ne by done.
        destruct (operation_limits (pending s) !! op); [done|].
        destruct (decide (op ∈ ops)) as [Hin|Hin].
        -- rewrite !bool_decide_eq_true_2; [done|by apply list_elem_of_further|done].
        -- rewrite !bool_decide_eq_false_2; [done| |done].
           intros [?|?]%elem_of_cons; congruence.
Qed.

Lemma init_db_limits cfg db op :
  operation_limits (init_db cfg db) !! op =
  match operation_limits db !! op with
  | Some n => Some n
  | None => (λ _, DEFAULT_DAILY_LIMIT cfg) <$> OPERATION_MODEL_MAP cfg !! op
  end.
Proof.
  unfold init_db, close_session. rewrite bind_eq.
  destruct (seed_limits_spec cfg (map_to_list (OPERATION_MODEL_MAP cfg)).*1
              (open_session db)) as (Hr & Hc & Hu & Hl).
  destruct (seed_limits _ _ _) as [r s1]. simpl in *. subst r. simpl.
  rewrite Hl. destruct (operation_limits db !! op); [done|].
  destruct (OPERATION_MODEL_MAP cfg !! op) as [f|] eqn:Hf; simpl.
  - rewrite bool_decide_eq_true_2; [done|].
    apply list_elem_of_fmap. exists (op, f). split; [done|].
    by apply elem_of_map_to_list.
  - rewrite bool_decide_eq_false_2; [done|].
    intros ([op1 f] & -> & Hin%elem_of_map_to_list)%list_elem_of_fmap.
    simpl in *. congruence.
Qed.

Lemma init_db_usage cfg db : usage_log (init_db cfg db) = usage_log db.
Proof.
  unfold init_db, close_session. rewrite bind_eq.
  destruct (seed_limits_spec cfg (map_to_list (OPERATION_MODEL_MAP cfg)).*1
              (open_session db)) as (Hr & Hc & Hu & Hl).
  destruct (seed_limits _ _ _) as [r s1]. simpl in *. by subst r.
Qed.

Lemma database_eq (a b : Database) :
  operation_limits a = operation_limits b → usage_log a = usage_log b → a = b.
Proof. destruct a, b. simpl. by intros -> ->. Qed.

(** X5.  [init_db] gives every operation of [OPERATION_MODEL_MAP] that
    has no limit row a row at the default and changes nothing else: a
    limit an administrator has set survives a restart, the usage rows are
    untouched, and running it again changes nothing. *)
Theorem init_db_seeds_missing_limits cfg db :
  operation_limits (init_db cfg db) =
    operation_limits db ∪ ((λ _, DEFAULT_DAILY_LIMIT cfg) <$> OPERATION_MODEL_MAP cfg) ∧
  usage_log (init_db cfg db) = usage_log db ∧
  init_db cfg (init_db cfg db) = init_db cfg db.
Proof.
  split; [|split].
  - apply map_eq. intros op. rewrite init_db_limits, lookup_union, lookup_fmap.
    destruct (operation_limits db !! op), (OPERATION_MODEL_MAP cfg !! op); done.
  - apply init_db_usage.
  - apply database_eq.
    + apply map_eq. intros op. rewrite !init_db_limits.
      destruct (operation_limits db !! op); [done|].
      by destruct (OPERATION_MODEL_MAP cfg !! op).
    + by rewrite !init_db_usage.
Qed.

(** ** The reports *)

Lemma usage_rows_response_eq cfg today rows s :
  usage_rows_response cfg today rows s =
  (Return (usage_entry cfg (pending s) today <$> rows), s).
Proof.
  induction rows as [|r rows IH]; simpl; [done|].
  rewrite bind_eq, get_daily_limit_eq. cbv beta iota.
  rewrite bind_eq, IH. done.
Qed.

Lemma usage_report_eq cfg today s :
  usage_report cfg today s =
  usage_entry cfg (pending s) today <$>
    filter (λ r, log_date r = today) (usage_log (pending s)).
Proof.
  unfold usage_report, get_usage_response. rewrite bind_eq. unfold get at 1.
  cbv beta iota. by rewrite usage_rows_response_eq.
Qed.

Lemma select_usage_from_elem_of pk0 op day rows i r :
  rows !! i = Some r → usage_matches op day r = true →
  ((pk0 + i)%nat, r) ∈ select_usage_from pk0 op day rows.
Proof.
  revert pk0 i. induction rows as [|r0 rows IH]; intros pk0 [|i] Hr Hm; simplify_eq/=.
  - rewrite Hm, Nat.add_0_r. apply list_elem_of_here.
  - replace (pk0 + S i)%nat with (S pk0 + i)%nat by lia.
    destruct (usage_matches op day r0); [apply list_elem_of_further|]; by apply IH.
Qed.

Lemma select_usage_singleton_unique op day rows pk u r :
  select_usage op day rows = [(pk, u)] →
  r ∈ rows → operation r = op → log_date r = day → r = u.
Proof.
  intros Hsel [i Hi]%list_elem_of_lookup Hop Hday.
  assert (((0 + i)%nat, r) ∈ select_usage_from 0 op day rows) as Hin.
  { apply select_usage_from_elem_of; [done|].
    unfold usage_matches. by rewrite !bool_decide_eq_true_2. }
  unfold select_usage in Hsel. rewrite Hsel in Hin.
  by apply list_elem_of_singleton in Hin as [= _ ->].
Qed.

(** X6.  The usage report and the admission check agree.  When the
    operation has one usage row today, every entry of the report for it
    carries the count of that row and the limit [get_daily_limit]
    answers; with a positive limit its [remaining] is the room left, never
    negative, and it is 0 exactly when the next [check_and_increment]
    raises [LimitExceededError]; with limit 0 it is -1 and the next call
    is admitted. *)
Theorem usage_report_predicts_admission cfg today s op pk u e :
  select_usage op today (usage_log (pending s)) = [(pk, u)] →
  e ∈ usage_report cfg today s → usage_operation e = op →
  usage_request_count e = request_count u ∧
  (get_daily_limit cfg op s).1 = Return (usage_daily_limit e) ∧
  (0 < usage_daily_limit e →
     remaining e = Z.max 0 (usage_daily_limit e - request_count u) ∧
     (remaining e = 0 ↔
      (check_and_increment cfg today op 0 s).1 =
      Raise (LimitExceededError op (request_count u) (usage_daily_limit e)))) ∧
  (usage_daily_limit e = 0 →
     remaining e = -1 ∧ check_and_increment cfg today op 0 s = (Return tt, s)).
Proof.
  intros Hsel He Hop. rewrite usage_report_eq in He.
  apply list_elem_of_fmap in He as (r & -> & Hr).
  apply list_elem_of_filter in Hr as [Hday Hr]. simpl in Hop.
  assert (r = u) as -> by by eapply select_usage_singleton_unique.
  simpl. rewrite Hop, get_daily_limit_eq. simpl.
  split; [done|]. split; [done|]. split.
  - intros Hpos. rewrite bool_decide_eq_true_2 by done. split; [done|].
    destruct (Z_lt_le_dec (request_count u) (limit_of cfg (pending s) op)) as [Hlt|Hle].
    + rewrite (check_and_increment_again _ _ _ _ _ pk u) by (done || lia). simpl.
      split; [lia|done].
    + rewrite (check_and_increment_exceeded _ _ _ _ _ pk u) by (done || lia). simpl.
      split; [done|lia].
  - intros Hz. rewrite Hz, bool_decide_eq_false_2 by lia. split; [done|].
    by apply check_and_increment_unlimited.
Qed.

Lemma usage_report_predicts_admission_witness :
  ∃ e, e ∈ usage_report settings 20000 (open_session ledger_at_limit) ∧
       remaining e = 0 ∧
       (check_and_increment settings 20000 "summarize" 0
          (open_session ledger_at_limit)).1
       = Raise (LimitExceededError "summarize" 5 5).
Proof.
  pose (u := {| operation := "summarize"; log_date := 20000;
                request_count := 5; total_tokens := 120 |}).
  pose (e := usage_entry settings ledger_at_limit 20000 u).
  destruct (usage_report_predicts_admission settings 20000
              (open_session ledger_at_limit) "summarize" 0 u e)
    as (_ & _ & Hpos & _).
  - reflexivity.
  - vm_compute. apply list_elem_of_here.
  - reflexivity.
  - exists e. split; [vm_compute; apply list_elem_of_here|].
    split; [reflexivity|].
    apply (proj1 (proj2 (Hpos ltac:(vm_compute; reflexivity)))). reflexivity.
Defined.

(** X7.  The usage report has one entry for each usage row dated today,
    in table order, and none for any other day: an operation nobody has
    used today is missing from the report whatever its limit.  Asking
    for the report changes nothing. *)
Theorem usage_report_lists_today cfg today s :
  (get_usage_response cfg today s).2 = s ∧
  (λ e, (usage_operation e, usage_date e, usage_request_count e, usage_total_tokens e))
    <$> usage_report cfg today s =
  (λ r, (operation r, log_date r, request_count r, total_tokens r))
    <$> filter (λ r, log_date r = today) (usage_log (pending s)).
Proof.
  split.
  - unfold get_usage_response. rewrite bind_eq. unfold get at 1. cbv beta iota.
    by rewrite usage_rows_response_eq.
  - rewrite usage_report_eq, <-list_fmap_compose.
    apply list_fmap_ext. intros i r Hr. simpl.
    apply list_elem_of_lookup_2, list_elem_of_filter in Hr as [-> _]. done.
Qed.

(** X8.  The limits report has exactly one entry for each stored limit
    row, with the limit [get_daily_limit] answers for it and the hard caps
    of the configuration, 0 where the configuration has none.  An
    operation without a row is not listed, though [get_daily_limit]
    answers the default for it. *)
Theorem limits_report_lists_rows cfg s :
  NoDup (limit_operation <$> limits_report cfg s) ∧
  (∀ e, e ∈ limits_report cfg s ↔
        operation_limits (pending s) !! limit_operation e = Some (limit_daily_limit e) ∧
        max_input_chars e = default 0 (MAX_INPUT_CHARS cfg !! limit_operation e) ∧
        max_output_tokens e = default 0 (MAX_OUTPUT_TOKENS cfg !! limit_operation e)) ∧
  (∀ e, e ∈ limits_report cfg s →
        (get_daily_limit cfg (limit_operation e) s).1 = Return (limit_daily_limit e)).
Proof.
  assert (limits_report cfg s =
          (λ row : string * Z,
             {| limit_operation := row.1; limit_daily_limit := row.2;
                max_input_chars := default 0 (MAX_INPUT_CHARS cfg !! row.1);
                max_output_tokens := default 0 (MAX_OUTPUT_TOKENS cfg !! row.1) |})
          <$> map_to_list (operation_limits (pending s))) as -> by reflexivity.
  assert (∀ e, e ∈ (λ row : string * Z,
             {| limit_operation := row.1; limit_daily_limit := row.2;
                max_input_chars := default 0 (MAX_INPUT_CHARS cfg !! row.1);
                max_output_tokens := default 0 (MAX_OUTPUT_TOKENS cfg !! row.1) |})
          <$> map_to_list (operation_limits (pending s)) ↔
        operation_limits (pending s) !! limit_operation e = Some (limit_daily_limit e) ∧
        max_input_chars e = default 0 (MAX_INPUT_CHARS cfg !! limit_operation e) ∧
        max_output_tokens e = default 0 (MAX_OUTPUT_TOKENS cfg !! limit_operation e))
    as Hiff.
  { intros e. rewrite list_elem_of_fmap. split.
    - intros ([op n] & -> & Hin%elem_of_map_to_list). done.
    - intros (Hrow & Hc & Ht). exists (limit_operation e, limit_daily_limit e).
      split; [|by apply elem_of_map_to_list]. destruct e. simpl in *. by subst. }
  split; [|split; [done|]].
  - rewrite <-list_fmap_compose. apply NoDup_fst_map_to_list.
  - intros e (Hrow & _)%Hiff. rewrite get_daily_limit_eq. simpl.
    unfold limit_of. by rewrite Hrow.
Qed.

(** ** The registry, one caller at a time *)

Lemma get_or_load_hit be f reg loaded :
  _registry reg !! f = Some loaded → get_or_load be f reg = (Return loaded, reg).
Proof. intros H. unfold get_or_load, bind, get, ret. by rewrite H. Qed.

Lemma get_lock_registry f reg :
  (_get_lock f reg).1 = Return tt ∧
  _registry (_get_lock f reg).2 = _registry reg ∧
  _locks (_get_lock f reg).2 = {[f]} ∪ _locks reg.
Proof.
  unfold _get_lock, bind, get, ret, put. case_bool_decide as Hin; simpl; [|done].
  repeat split; try done. apply set_eq. intros x.
  rewrite elem_of_union, elem_of_singleton. split; [auto|]. by intros [->|?].
Qed.

Lemma get_or_load_miss be f reg :
  _registry reg !! f = None →
  get_or_load be f reg =
  match load be f with
  | Return (tokenizer, model, device) =>
      let loaded := {| folder := f; tokenizer := tokenizer;
                       model := model; device := device |} in
      (Return loaded,
       {| _registry := <[f := loaded]> (_registry (_get_lock f reg).2);
          _locks := _locks (_get_lock f reg).2 |})
  | Raise e => (Raise e, (_get_lock f reg).2)
  end.
Proof.
  intros Hmiss. destruct (get_lock_registry f reg) as (Hr & Hreg & _).
  unfold get_or_load, bind, get, ret, put, lift. rewrite Hmiss.
  destruct (_get_lock f reg) as [r reg1]. simpl in *. subst r. rewrite Hreg, Hmiss.
  destruct (load be f) as [[[t m] d]|e]; by rewrite ?Hreg.
Qed.

(** X9.  [get_or_load] caches: when the folder is not resident and the
    loader succeeds, the call returns a handle for that folder and
    registers it, leaving the handles of all other folders alone; from
    then on every call for the folder returns that same handle without
    asking the loader, whatever the loader would now answer. *)
Theorem get_or_load_caches be f reg tokenizer model device :
  _registry reg !! f = None →
  load be f = Return (tokenizer, model, device) →
  let loaded := {| folder := f; tokenizer := tokenizer;
                   model := model; device := device |} in
  (get_or_load be f reg).1 = Return loaded ∧
  _registry (get_or_load be f reg).2 = <[f := loaded]> (_registry reg) ∧
  is_loaded f (get_or_load be f reg).2 = true ∧
  ∀ be', get_or_load be' f (get_or_load be f reg).2 =
         (Return loaded, (get_or_load be f reg).2).
Proof.
  intros Hmiss Hload loaded. rewrite get_or_load_miss by done. rewrite Hload.
  destruct (get_lock_registry f reg) as (_ & Hreg & _). simpl. rewrite Hreg.
  split; [done|]. split; [done|]. split.
  - unfold is_loaded. simpl. rewrite lookup_insert_eq. by apply bool_decide_eq_true_2.
  - intros be'. apply get_or_load_hit. simpl. by rewrite lookup_insert_eq.
Qed.

Lemma get_or_load_caches_witness :
  let be := canned_backend "Done." 3 in
  let failing := {| load := λ _, Raise RuntimeError; generate := generate be |} in
  let reg := {| _registry := ∅; _locks := ∅ |} in
  get_or_load failing "qwen-summarize" (get_or_load be "qwen-summarize" reg).2 =
  (Return {| folder := "qwen-summarize"; tokenizer := 1%nat;
             model := 2%nat; device := "cpu" |},
   (get_or_load be "qwen-summarize" reg).2).
Proof.
  intros be failing reg.
  destruct (get_or_load_caches be "qwen-summarize" reg 1%nat 2%nat "cpu")
    as (_ & _ & _ & Hagain).
  - reflexivity.
  - reflexivity.
  - exact (Hagain failing).
Defined.

(** X10.  When the folder is not resident and the loader raises,
    [get_or_load] raises that very exception, registers nothing and
    leaves every resident handle in place: the folder stays not loaded,
    and the next call asks the loader again. *)
Theorem get_or_load_failure_registers_nothing be f reg e :
  _registry reg !! f = None →
  load be f = Raise e →
  (get_or_load be f reg).1 = Raise e ∧
  _registry (get_or_load be f reg).2 = _registry reg ∧
  is_loaded f (get_or_load be f reg).2 = false ∧
  ∀ be', get_or_load be' f (get_or_load be f reg).2 =
         match load be' f with
         | Return (tokenizer, model, device) =>
             let loaded := {| folder := f; tokenizer := tokenizer;
                              model := model; device := device |} in
             (Return loaded,
              {| _registry := <[f := loaded]> (_registry reg);
                 _locks := {[f]} ∪ _locks reg |})
         | Raise e' => (Raise e', (get_or_load be f reg).2)
         end.
Proof.
  intros Hmiss Hload. rewrite get_or_load_miss by done. rewrite Hload.
  destruct (get_lock_registry f reg) as (_ & Hreg & Hlocks). simpl.
  split; [done|]. split; [done|]. split.
  - unfold is_loaded. rewrite Hreg, Hmiss. apply bool_decide_eq_false_2. by intros [? ?].
  - intros be'. rewrite get_or_load_miss by (by rewrite Hreg).
    destruct (get_lock_registry f (_get_lock f reg).2) as (_ & Hreg2 & Hlocks2).
    assert ((_get_lock f (_get_lock f reg).2).2 = (_get_lock f reg).2) as Hsame.
    { unfold _get_lock at 1. unfold bind, get, ret, put.
      rewrite bool_decide_eq_true_2; [done|]. rewrite Hlocks.
      apply elem_of_union. left. by apply elem_of_singleton. }
    rewrite Hsame. destruct (load be' f) as [[[t m] d]|e']; [|done].
    by rewrite Hreg, Hlocks.
Qed.

Lemma get_or_load_failure_registers_nothing_witness :
  let host := {| transformers_installed := true; model_dirs := ∅;
                 cuda_available := false;
                 tokenizer_from_pretrained := λ _, Return 1%nat;
                 model_from_pretrained := λ _ _, Return 2%nat |} in
  let be := backend_of host (λ _ _ _, Return ("Done.", 3)) in
  (get_or_load be "qwen-summarize" {| _registry := ∅; _locks := ∅ |}).1 =
  Raise FileNotFoundError.
Proof.
  intros host be.
  apply (get_or_load_failure_registers_nothing be "qwen-summarize"
           {| _registry := ∅; _locks := ∅ |} FileNotFoundError).
  - reflexivity.
  - reflexivity.
Defined.

(** X11.  [unload] answers whether the folder was resident; afterwards
    the folder is not resident, a second [unload] answers False, and the
    handles of all other folders are where they were: [list_loaded] lists
    what it listed before, without the folder.  The lock of the folder is
    never removed. *)
Theorem unload_forgets_one_folder f reg f' :
  (unload f reg).1 = Return (is_loaded f reg) ∧
  is_loaded f (unload f reg).2 = false ∧
  (unload f (unload f reg).2).1 = Return false ∧
  (f' ≠ f → _registry (unload f reg).2 !! f' = _registry reg !! f') ∧
  (f' ∈ list_loaded (unload f reg).2 ↔ f' ≠ f ∧ f' ∈ list_loaded reg) ∧
  _locks (unload f reg).2 = _locks reg.
Proof.
  assert (∀ r, f' ∈ list_loaded r ↔ is_Some (_registry r !! f')) as Hlist.
  { intros r. unfold list_loaded. rewrite list_elem_of_fmap. split.
    - intros ([g l] & -> & Hin%elem_of_map_to_list). by eexists.
    - intros [l Hl]. exists (f', l). split; [done|]. by apply elem_of_map_to_list. }
  assert (_registry (unload f reg).2 = delete f (_registry reg)) as Hreg.
  { unfold unload, bind, get, ret, put.
    destruct (_registry reg !! f) as [loaded|] eqn:Hf; simpl; [done|].
    symmetry. by apply delete_id. }
  split; [|split; [|split; [|split; [|split]]]].
  - unfold unload, bind, get, ret, put, is_loaded.
    destruct (_registry reg !! f) as [loaded|] eqn:Hf; simpl.
    + done.
    + rewrite ?Hf. by rewrite ?bool_decide_eq_false_2 by (by intros [? ?]).
  - unfold is_loaded. rewrite Hreg, lookup_delete_eq.
    apply bool_decide_eq_false_2. by intros [? ?].
  - unfold unload at 1. unfold bind, get, ret, put.
    by rewrite Hreg, lookup_delete_eq.
  - intros Hne. by rewrite Hreg, lookup_delete_ne.
  - rewrite !Hlist, Hreg. destruct (decide (f' = f)) as [->|Hne].
    + rewrite lookup_delete_eq. split; [by intros [? ?]|by intros [? _]].
    + rewrite lookup_delete_ne by done. split; [done|by intros [_ ?]].
  - unfold unload, bind, get, ret, put. by destruct (_registry reg !! f).
Qed.

(** ** The health report *)

(** X12.  The health report says healthy exactly when the folder of
    every configured operation is resident in the registry, and degraded
    otherwise; it has one model status per configured operation, whose
    flag is the residency of that operation's folder.  Models are loaded
    on first use, so with an empty registry and at least one configured
    operation the report is degraded. *)
Theorem health_reports_residency cfg reg :
  ((get_health cfg reg).1 = "healthy" ↔
   ∀ op f, OPERATION_MODEL_MAP cfg !! op = Some f → is_loaded f reg = true) ∧
  ((get_health cfg reg).1 ≠ "healthy" → (get_health cfg reg).1 = "degraded") ∧
  (∀ st, st ∈ (get_health cfg reg).2 ↔
         ∃ op f, OPERATION_MODEL_MAP cfg !! op = Some f ∧
                 st = {| status_name := op +:+ " (" +:+ f +:+ ")";
                         status_loaded := is_loaded f reg;
                         status_path := f |}) ∧
  (_registry reg = ∅ → OPERATION_MODEL_MAP cfg ≠ ∅ →
   (get_health cfg reg).1 = "degraded").
Proof.
  assert (∀ st, st ∈ _collect_model_statuses cfg reg ↔
            ∃ op f, OPERATION_MODEL_MAP cfg !! op = Some f ∧
                    st = {| status_name := op +:+ " (" +:+ f +:+ ")";
                            status_loaded := is_loaded f reg;
                            status_path := f |}) as Hst.
  { intros st. unfold _collect_model_statuses. rewrite list_elem_of_fmap. split.
    - intros ([op f] & -> & Hin). apply elem_of_map_to_list in Hin. by exists op, f.
    - intros (op & f & Hin & ->). exists (op, f). split; [done|].
      by apply elem_of_map_to_list. }
  assert (forallb status_loaded (_collect_model_statuses cfg reg) = true ↔
          ∀ op f, OPERATION_MODEL_MAP cfg !! op = Some f → is_loaded f reg = true)
    as Hall.
  { rewrite forallb_forall. split.
    - intros H op f Hin. apply (H {| status_name := op +:+ " (" +:+ f +:+ ")";
                                      status_loaded := is_loaded f reg;
                                      status_path := f |}).
      apply list_elem_of_In, Hst. by exists op, f.
    - intros H st Hin. apply list_elem_of_In, Hst in Hin as (op & f & Hin & ->).
      simpl. by apply (H op f). }
  unfold get_health. simpl.
  destruct (forallb status_loaded (_collect_model_statuses cfg reg)) eqn:Hb.
  - split; [|split; [done|split; [done|]]].
    + split; [intros _; by apply Hall|done].
    + intros Hempty Hne. destruct (map_choose _ Hne) as (op & f & Hin).
      assert (is_loaded f reg = true) as Hl by (by apply (proj1 Hall eq_refl op f)).
      unfold is_loaded in Hl. rewrite Hempty, lookup_empty in Hl.
      apply bool_decide_eq_true_1 in Hl. by destruct Hl.
  - split; [|split; [done|split; [done|done]]].
    split; [done|]. intros H. apply Hall in H. congruence.
Qed.

(** ** The pipelines after admission *)

Lemma steps_loader_raises cfg be clock rq w s1 f e reg1 :
  _validate_input_length cfg (operation_of rq) (text_of rq) = Return tt →
  check_and_increment cfg (admission_day clock) (operation_of rq) 0 (session w)
    = (Return tt, s1) →
  _get_model_folder cfg (operation_of rq) = Return f →
  get_or_load be f (model_registry w) = (Raise e, reg1) →
  steps_of cfg be clock rq w =
  (Raise e, {| session := s1; model_registry := reg1 |}).
Proof.
  intros Hv Hadm Hf Hload. unfold steps_of, run_operation.
  rewrite bind_eq. unfold lift at 1. rewrite Hv. cbv beta iota.
  rewrite bind_eq, (in_session_eq _ _ _ _ Hadm). cbv beta iota.
  rewrite bind_eq. unfold lift at 1. rewrite Hf. cbv beta iota.
  rewrite bind_eq. by erewrite in_registry_eq by (simpl; exact Hload).
Qed.

Lemma steps_inference_raises cfg be clock rq w s1 f loaded reg1 m e :
  _validate_input_length cfg (operation_of rq) (text_of rq) = Return tt →
  check_and_increment cfg (admission_day clock) (operation_of rq) 0 (session w)
    = (Return tt, s1) →
  _get_model_folder cfg (operation_of rq) = Return f →
  get_or_load be f (model_registry w) = (Return loaded, reg1) →
  getitem (MAX_OUTPUT_TOKENS cfg) (operation_of rq) = Return m →
  run_inference be loaded (prompt_of rq) m = Raise e →
  steps_of cfg be clock rq w =
  (Raise e, {| session := s1; model_registry := reg1 |}).
Proof.
  intros Hv Hadm Hf Hload Hm Hinf. unfold steps_of, run_operation.
  rewrite bind_eq. unfold lift at 1. rewrite Hv. cbv beta iota.
  rewrite bind_eq, (in_session_eq _ _ _ _ Hadm). cbv beta iota.
  rewrite bind_eq. unfold lift at 1. rewrite Hf. cbv beta iota.
  rewrite bind_eq. erewrite in_registry_eq by (simpl; exact Hload). cbv beta iota.
  rewrite bind_eq. unfold lift at 1. rewrite Hm. cbv beta iota.
  rewrite bind_eq. unfold lift at 1. by rewrite Hinf.
Qed.

Lemma steps_return cfg be clock rq w s1 f loaded reg1 m text n s2 :
  _validate_input_length cfg (operation_of rq) (text_of rq) = Return tt →
  check_and_increment cfg (admission_day clock) (operation_of rq) 0 (session w)
    = (Return tt, s1) →
  _get_model_folder cfg (operation_of rq) = Return f →
  get_or_load be f (model_registry w) = (Return loaded, reg1) →
  getitem (MAX_OUTPUT_TOKENS cfg) (operation_of rq) = Return m →
  run_inference be loaded (prompt_of rq) m = Return (text, n) →
  record_tokens (accounting_day clock) (operation_of rq) n s1 = (Return tt, s2) →
  steps_of cfg be clock rq w =
  (Return (f, text, n), {| session := s2; model_registry := reg1 |}).
Proof.
  intros Hv Hadm Hf Hload Hm Hinf Hrec. unfold steps_of, run_operation.
  rewrite bind_eq. unfold lift at 1. rewrite Hv. cbv beta iota.
  rewrite bind_eq, (in_session_eq _ _ _ _ Hadm). cbv beta iota.
  rewrite bind_eq. unfold lift at 1. rewrite Hf. cbv beta iota.
  rewrite bind_eq. erewrite in_registry_eq by (simpl; exact Hload). cbv beta iota.
  rewrite bind_eq. unfold lift at 1. rewrite Hm. cbv beta iota.
  rewrite bind_eq. unfold lift at 1. rewrite Hinf. cbv beta iota.
  rewrite bind_eq. erewrite in_session_eq by (simpl; exact Hrec). done.
Qed.

(** When the shared steps return, the outcome of the request is the
    assembly of its response. *)
Lemma handle_return cfg py be clock rq w f text n w' :
  steps_of cfg be clock rq w = (Return (f, text, n), w') →
  handle cfg py be clock rq w = (assemble py rq f text n, w').
Proof.
  unfold steps_of, run_operation, handle, assemble.
  destruct rq as [r|r|r]; simpl;
    unfold summarize, translate, classify;
    repeat next_step; unfold ret, lift; simpl; intros; simplify_eq; try done.
  all: unfold lift in *;
    by destruct (_parse_classify_output _ _ _) as [[[? ?] ?]|?]; simplify_eq.
Qed.

Lemma usage_matches_same op day u :
  operation u = op → log_date u = day → usage_matches op day u = true.
Proof. intros <- <-. unfold usage_matches. by rewrite !bool_decide_eq_true_2. Qed.

(** Admission below the limit: what it leaves for its key. *)
Lemma admission_row cfg today op t s :
  limit_of cfg (pending s) op ≠ 0 →
  (length (usage_of op today (pending s)) ≤ 1)%nat →
  count_of op today (pending s) < limit_of cfg (pending s) op →
  ∃ s1 u1,
    check_and_increment cfg today op t s = (Return tt, s1) ∧
    committed s1 = pending s1 ∧
    usage_of op today (pending s1) = [u1] ∧
    request_count u1 = count_of op today (pending s) + 1 ∧
    total_tokens u1 = tokens_of op today (pending s) + t.
Proof.
  unfold count_of, tokens_of, usage_of.
  destruct (select_usage op today (usage_log (pending s)))
    as [|[pk u] [|p2 ps]] eqn:Hsel; simpl; intros HL Hlen Hlt; [| |lia].
  - eexists _, _. split; [apply check_and_increment_first; [lia|done]|].
    simpl. split; [done|].
    rewrite select_usage_snoc by (done || apply usage_matches_new). simpl. done.
  - eexists _, _. split; [by apply (check_and_increment_again _ _ _ _ _ pk u)|].
    simpl. split; [done|].
    destruct (select_usage_found_keys _ _ _ _ _ Hsel) as (_ & Hop & Hday).
    erewrite select_usage_insert; [|done|by apply usage_matches_same].
    done.
Qed.

(** Token accounting: what it leaves for its key. *)
Lemma accounting_row today op t s :
  (length (usage_of op today (pending s)) ≤ 1)%nat →
  - 2 ^ 63 ≤ tokens_of op today (pending s) + t < 2 ^ 63 →
  ∃ s2 u2,
    record_tokens today op t s = (Return tt, s2) ∧
    committed s2 = pending s2 ∧
    usage_of op today (pending s2) = [u2] ∧
    request_count u2 = count_of op today (pending s) ∧
    total_tokens u2 = tokens_of op today (pending s) + t.
Proof.
  unfold count_of, tokens_of, usage_of.
  destruct (select_usage op today (usage_log (pending s)))
    as [|[pk u] [|p2 ps]] eqn:Hsel; simpl; intros Hlen Hfit%sqlite_integer_true;
    [| |lia].
  - eexists _, _. split; [rewrite record_tokens_new by done; by rewrite Hfit|].
    simpl. split; [done|].
    rewrite select_usage_snoc by (done || apply usage_matches_new). simpl. done.
  - eexists _, _.
    split; [rewrite (record_tokens_found _ _ _ _ pk u) by done; by rewrite Hfit|].
    simpl. split; [done|].
    destruct (select_usage_found_keys _ _ _ _ _ Hsel) as (_ & Hop & Hday).
    erewrite select_usage_insert; [|done|by apply usage_matches_same].
    done.
Qed.

(** Token accounting past the range of the column: nothing is made
    durable. *)
Lemma accounting_overflow today op t s :
  (length (usage_of op today (pending s)) ≤ 1)%nat →
  ¬ (- 2 ^ 63 ≤ tokens_of op today (pending s) + t < 2 ^ 63) →
  ∃ s2,
    record_tokens today op t s = (Raise OverflowError, s2) ∧
    committed s2 = committed s.
Proof.
  unfold tokens_of, usage_of.
  destruct (select_usage op today (usage_log (pending s)))
    as [|[pk u] [|p2 ps]] eqn:Hsel; simpl; intros Hlen Hfit%sqlite_integer_false;
    [| |lia].
  - eexists. split; [rewrite record_tokens_new by done; by rewrite Hfit|done].
  - eexists.
    split; [rewrite (record_tokens_found _ _ _ _ pk u) by done; by rewrite Hfit|done].
Qed.

Lemma operation_route_eq cfg py be clock body db reg out w' :
  handle cfg py be clock body {| session := open_session db; model_registry := reg |}
    = (out, w') →
  operation_route cfg py be clock body db reg =
  (match out with
   | Return r => (200, Some r)
   | Raise exc => (_handle_operation_errors exc, None)
   end, committed (session w'), model_registry w').
Proof. intros H. unfold operation_route. by rewrite H. Qed.

(** X13.  A loader failure is not an orchestration error.  When a
    request has passed the length check and admission and the folder of
    its operation is not resident, an exception of the loader leaves the
    pipeline as it is: the route answers the status of that exception,
    500 unless the loader raised one of the two service exceptions; the
    database is left as admission left it, so the request has used
    quota; and the registry holds the handles it held. *)
Theorem loader_failure_after_admission cfg py be clock body db reg s1 f e :
  _validate_input_length cfg (operation_of body) (text_of body) = Return tt →
  check_and_increment cfg (admission_day clock) (operation_of body) 0 (open_session db)
    = (Return tt, s1) →
  _get_model_folder cfg (operation_of body) = Return f →
  _registry reg !! f = None →
  load be f = Raise e →
  ∃ reg1,
    operation_route cfg py be clock body db reg =
    ((_handle_operation_errors e, None), committed s1, reg1) ∧
    _registry reg1 = _registry reg.
Proof.
  intros Hv Hadm Hf Hmiss Hload.
  destruct (get_or_load be f reg) as [r reg1] eqn:Hget.
  pose proof (get_or_load_miss be f reg Hmiss) as Heq. rewrite Hload, Hget in Heq.
  injection Heq as -> ->.
  exists (_get_lock f reg).2. split; [|apply get_lock_registry].
  erewrite operation_route_eq;
    [|apply handle_raise; by eapply steps_loader_raises].
  done.
Qed.

Lemma loader_failure_after_admission_witness :
  let host := {| transformers_installed := true; model_dirs := ∅;
                 cuda_available := false;
                 tokenizer_from_pretrained := λ _, Return 1%nat;
                 model_from_pretrained := λ _ _, Return 2%nat |} in
  let be := backend_of host (λ _ _ _, Return ("Done.", 3)) in
  let body := summarize_request (repeat_char "a" 60) in
  let db := {| operation_limits := {["summarize" := 5]}; usage_log := [] |} in
  ∃ reg1,
    operation_route settings cpython be (same_day 20000) body db
      {| _registry := ∅; _locks := ∅ |} =
    ((500, None),
     {| operation_limits := {["summarize" := 5]};
        usage_log := [{| operation := "summarize"; log_date := 20000;
                         request_count := 1; total_tokens := 0 |}] |},
     reg1) ∧
    _registry reg1 = ∅.
Proof.
  intros host be body db.
  apply (loader_failure_after_admission settings cpython be (same_day 20000) body db
           {| _registry := ∅; _locks := ∅ |}
           (durable {| operation_limits := {["summarize" := 5]};
                       usage_log := [{| operation := "summarize"; log_date := 20000;
                                        request_count := 1; total_tokens := 0 |}] |})
           "qwen-summarize" FileNotFoundError).
  - reflexivity.
  - reflexivity.
  - reflexivity.
  - reflexivity.
  - reflexivity.
Defined.

(** X14.  An exception of text generation is answered as an
    orchestration error: the route answers 422 whatever was raised, the
    database is left as admission left it (the request is counted, no
    tokens are recorded), and the model stays in the registry. *)
Theorem inference_failure_is_unprocessable cfg py be clock body db reg s1 f loaded reg1 m e :
  _validate_input_length cfg (operation_of body) (text_of body) = Return tt →
  check_and_increment cfg (admission_day clock) (operation_of body) 0 (open_session db)
    = (Return tt, s1) →
  _get_model_folder cfg (operation_of body) = Return f →
  get_or_load be f reg = (Return loaded, reg1) →
  getitem (MAX_OUTPUT_TOKENS cfg) (operation_of body) = Return m →
  generate be loaded (prompt_of body) m = Raise e →
  operation_route cfg py be clock body db reg = ((422, None), committed s1, reg1) ∧
  handle cfg py be clock body {| session := open_session db; model_registry := reg |} =
  (Raise (OrchestrationError (InferenceFailed e)),
   {| session := s1; model_registry := reg1 |}).
Proof.
  intros Hv Hadm Hf Hget Hm Hgen.
  assert (handle cfg py be clock body
            {| session := open_session db; model_registry := reg |} =
          (Raise (OrchestrationError (InferenceFailed e)),
           {| session := s1; model_registry := reg1 |})) as Hh.
  { apply handle_raise.
    apply (steps_inference_raises _ _ _ _ _ _ f loaded _ m); try done.
    unfold run_inference. by rewrite Hgen. }
  split; [|done]. by rewrite (operation_route_eq _ _ _ _ _ _ _ _ _ Hh).
Qed.

Lemma inference_failure_is_unprocessable_witness :
  let be := {| load := λ _, Return (1%nat, 2%nat, "cpu");
               generate := λ _ _ _, Raise RuntimeError |} in
  let body := summarize_request (repeat_char "a" 60) in
  let db := {| operation_limits := {["summarize" := 5]}; usage_log := [] |} in
  (operation_route settings cpython be (same_day 20000) body db
     {| _registry := ∅; _locks := ∅ |}).1 =
  ((422, None),
   {| operation_limits := {["summarize" := 5]};
      usage_log := [{| operation := "summarize"; log_date := 20000;
                       request_count := 1; total_tokens := 0 |}] |}).
Proof.
  intros be body db.
  destruct (inference_failure_is_unprocessable settings cpython be (same_day 20000)
              body db {| _registry := ∅; _locks := ∅ |}
              (durable {| operation_limits := {["summarize" := 5]};
                          usage_log := [{| operation := "summarize"; log_date := 20000;
                                           request_count := 1; total_tokens := 0 |}] |})
              "qwen-summarize"
              {| folder := "qwen-summarize"; tokenizer := 1%nat; model := 2%nat;
                 device := "cpu" |}
              (get_or_load be "qwen-summarize" {| _registry := ∅; _locks := ∅ |}).2
              512 RuntimeError) as [Hroute _].
  - reflexivity.
  - reflexivity.
  - reflexivity.
  - reflexivity.
  - reflexivity.
  - reflexivity.
  - by rewrite Hroute.
Defined.

Lemma count_of_singleton op day db u :
  usage_of op day db = [u] →
  count_of op day db = request_count u ∧ tokens_of op day db = total_tokens u.
Proof. intros H. unfold count_of, tokens_of. by rewrite H. Qed.

(** X15.  A request that is served is counted once, on the day read at
    admission, and its tokens are added on the day read at accounting.
    Given a limit other than 0 that is not reached, at most one usage
    row for each of the two days, and a new token total of the accounting
    day that fits a 64-bit signed INTEGER column, the route leaves
    exactly one row for each day: the count of the admission day is one more, the tokens of
    the accounting day are [n] more, and when the two days differ (a
    request served across midnight) the tokens of the first day and the
    count of the second are what they were.  The limits are untouched,
    the model is resident, and the answer is 200 with the assembled
    response, or the status of what the assembly raised. *)
Theorem served_request_accounting cfg py be clock body db reg f loaded reg1 m text n :
  _validate_input_length cfg (operation_of body) (text_of body) = Return tt →
  limit_of cfg db (operation_of body) ≠ 0 →
  (length (usage_of (operation_of body) (admission_day clock) db) ≤ 1)%nat →
  (length (usage_of (operation_of body) (accounting_day clock) db) ≤ 1)%nat →
  count_of (operation_of body) (admission_day clock) db
    < limit_of cfg db (operation_of body) →
  _get_model_folder cfg (operation_of body) = Return f →
  get_or_load be f reg = (Return loaded, reg1) →
  getitem (MAX_OUTPUT_TOKENS cfg) (operation_of body) = Return m →
  generate be loaded (prompt_of body) m = Return (text, n) →
  - 2 ^ 63 ≤ tokens_of (operation_of body) (accounting_day clock) db + n < 2 ^ 63 →
  ∃ db',
    operation_route cfg py be clock body db reg =
    (match assemble py body f text n with
     | Return r => (200, Some r)
     | Raise exc => (_handle_operation_errors exc, None)
     end, db', reg1) ∧
    operation_limits db' = operation_limits db ∧
    length (usage_of (operation_of body) (admission_day clock) db') = 1%nat ∧
    length (usage_of (operation_of body) (accounting_day clock) db') = 1%nat ∧
    count_of (operation_of body) (admission_day clock) db'
      = count_of (operation_of body) (admission_day clock) db + 1 ∧
    tokens_of (operation_of body) (accounting_day clock) db'
      = tokens_of (operation_of body) (accounting_day clock) db + n ∧
    (admission_day clock ≠ accounting_day clock →
     tokens_of (operation_of body) (admission_day clock) db'
       = tokens_of (operation_of body) (admission_day clock) db ∧
     count_of (operation_of body) (accounting_day clock) db'
       = count_of (operation_of body) (accounting_day clock) db).
Proof.
  set (op := operation_of body). set (d1 := admission_day clock).
  set (d2 := accounting_day clock).
  intros Hv HL Hlen1 Hlen2 Hlt Hf Hget Hm Hgen Hfit.
  destruct (admission_row cfg d1 op 0 (open_session db) HL Hlen1 Hlt)
    as (s1 & u1 & Hadm & Hc1 & Hu1 & Hcnt1 & Htok1).
  simpl in Hcnt1, Htok1.
  pose proof (check_and_increment_log_step cfg d1 op 0 (open_session db)) as [Hstep1 Hlim1].
  rewrite Hadm in Hstep1, Hlim1. simpl in Hstep1, Hlim1.
  assert ((length (usage_of op d2 (pending s1)) ≤ 1)%nat) as Hlen2'.
  { destruct (decide (d1 = d2)) as [<-|Hd]; [by rewrite Hu1|].
    unfold usage_of. rewrite (log_step_other _ _ _ _ _ _ Hstep1); [done|]. congruence. }
  assert (tokens_of op d2 (pending s1) = tokens_of op d2 db) as Htoks.
  { destruct (decide (d1 = d2)) as [<-|Hd].
    - destruct (count_of_singleton _ _ _ _ Hu1) as [_ ->]. lia.
    - unfold tokens_of, usage_of.
      rewrite (log_step_other _ _ _ _ _ _ Hstep1); [done|]. congruence. }
  destruct (accounting_row d2 op n s1 Hlen2' ltac:(by rewrite Htoks))
    as (s2 & u2 & Hrec & Hc2 & Hu2 & Hcnt2 & Htok2).
  pose proof (record_tokens_log_step d2 op n s1) as [Hstep2 Hlim2].
  rewrite Hrec in Hstep2, Hlim2. simpl in Hstep2, Hlim2.
  assert (handle cfg py be clock body
            {| session := open_session db; model_registry := reg |} =
          (assemble py body f text n, {| session := s2; model_registry := reg1 |})) as Hh.
  { apply handle_return.
    apply (steps_return _ _ _ _ _ s1 f loaded _ m); try done.
    unfold run_inference. fold op. by rewrite Hgen. }
  exists (pending s2). rewrite (operation_route_eq _ _ _ _ _ _ _ _ _ Hh). simpl.
  rewrite Hc2. split; [by destruct (assemble py body f text n)|].
  split; [congruence|].
  destruct (decide (d1 = d2)) as [Heq|Hd].
  - rewrite <- Heq in *. rewrite Hu2. simpl.
    destruct (count_of_singleton _ _ _ _ Hu1) as [Hc Ht].
    destruct (count_of_singleton _ _ _ _ Hu2) as [Hc' Ht'].
    repeat split; try done; lia.
  - assert (usage_of op d1 (pending s2) = [u1]) as Hu1'.
    { rewrite <- Hu1. unfold usage_of.
      rewrite (log_step_other _ _ _ _ _ _ Hstep2); [done|]. congruence. }
    assert (usage_of op d2 (pending s1) = usage_of op d2 db) as Hsame.
    { unfold usage_of. rewrite (log_step_other _ _ _ _ _ _ Hstep1); [done|]. congruence. }
    rewrite Hu1', Hu2. simpl.
    destruct (count_of_singleton _ _ _ _ Hu1') as [Hc Ht].
    destruct (count_of_singleton _ _ _ _ Hu2) as [Hc' Ht'].
    unfold count_of, tokens_of in Hcnt2, Htok2. rewrite Hsame in Hcnt2, Htok2.
    fold (count_of op d2 db) in Hcnt2. fold (tokens_of op d2 db) in Htok2.
    repeat split; try done; lia.
Qed.

Lemma served_request_accounting_witness :
  let clock := {| admission_day := 20000; accounting_day := 20001 |} in
  let body := summarize_request (repeat_char "a" 60) in
  let db := {| operation_limits := {["summarize" := 5]}; usage_log := [] |} in
  ∃ db',
    (operation_route settings cpython (canned_backend "Done." 3) clock body db
       {| _registry := ∅; _locks := ∅ |}).1.2 = db' ∧
    count_of "summarize" 20000 db' = 1 ∧ tokens_of "summarize" 20000 db' = 0 ∧
    count_of "summarize" 20001 db' = 0 ∧ tokens_of "summarize" 20001 db' = 3.
Proof.
  intros clock body db.
  destruct (served_request_accounting settings cpython (canned_backend "Done." 3) clock
              body db {| _registry := ∅; _locks := ∅ |}
              "qwen-summarize"
              {| folder := "qwen-summarize"; tokenizer := 1%nat; model := 2%nat;
                 device := "cpu" |}
              (get_or_load (canned_backend "Done." 3) "qwen-summarize"
                 {| _registry := ∅; _locks := ∅ |}).2
              512 "Done." 3)
    as (db' & Hroute & _ & _ & _ & Hc1 & Ht2 & Hother).
  - reflexivity.
  - vm_compute. discriminate.
  - vm_compute. lia.
  - vm_compute. lia.
  - vm_compute. reflexivity.
  - reflexivity.
  - reflexivity.
  - reflexivity.
  - reflexivity.
  - vm_compute. split; [discriminate|reflexivity].
  - exists db'. rewrite Hroute. split; [reflexivity|].
    destruct Hother as [Ht1 Hc2]; [simpl; lia|].
    split; [exact Hc1|]. split; [exact Ht1|]. split; [exact Hc2|exact Ht2].
Defined.

(** ** Requests that are refused *)

Lemma check_and_increment_raises cfg today op t s e :
  (check_and_increment cfg today op t s).1 = Raise e →
  committed (check_and_increment cfg today op t s).2 = committed s ∧
  (e = MultipleResultsFound ∨
   ∃ used, e = LimitExceededError op used (limit_of cfg (pending s) op)).
Proof.
  destruct (decide (limit_of cfg (pending s) op = 0)) as [H0|H0].
  { by rewrite check_and_increment_unlimited. }
  destruct (select_usage op today (usage_log (pending s)))
    as [|[pk u] [|p2 ps]] eqn:Hsel.
  - destruct (decide (0 < limit_of cfg (pending s) op)) as [Hpos|Hneg].
    + by rewrite check_and_increment_first.
    + rewrite check_and_increment_refused_new by (done || lia). simpl.
      intros [= <-]. eauto.
  - destruct (decide (request_count u < limit_of cfg (pending s) op)) as [Hlt|Hge].
    + by rewrite (check_and_increment_again _ _ _ _ _ pk u).
    + rewrite (check_and_increment_exceeded _ _ _ _ _ pk u) by (done || lia). simpl.
      intros [= <-]. eauto.
  - rewrite (check_and_increment_many _ _ _ _ _ _ _ _ H0 Hsel). simpl.
    intros [= <-]. eauto.
Qed.

Lemma steps_refused cfg be clock rq w e s1 :
  _validate_input_length cfg (operation_of rq) (text_of rq) = Return tt →
  check_and_increment cfg (admission_day clock) (operation_of rq) 0 (session w)
    = (Raise e, s1) →
  steps_of cfg be clock rq w =
  (Raise e, {| session := s1; model_registry := model_registry w |}).
Proof.
  intros Hv Hadm. unfold steps_of, run_operation.
  rewrite bind_eq. unfold lift at 1. rewrite Hv. cbv beta iota.
  by rewrite bind_eq, (in_session_eq _ _ _ _ Hadm).
Qed.

(** X16.  A request that is refused changes nothing.  When the length
    check raises, or passes and admission raises, the route answers the
    status of that exception with no response, and the database and the
    registry are exactly what they were: 422 for the length check, and
    for admission 429 unless it raised because the database holds
    several usage rows for the key. *)
Theorem refused_request_changes_nothing cfg py be clock body db reg e :
  _validate_input_length cfg (operation_of body) (text_of body) = Raise e ∨
  (_validate_input_length cfg (operation_of body) (text_of body) = Return tt ∧
   (check_and_increment cfg (admission_day clock) (operation_of body) 0
      (open_session db)).1 = Raise e) →
  operation_route cfg py be clock body db reg =
    ((_handle_operation_errors e, None), db, reg) ∧
  (_validate_input_length cfg (operation_of body) (text_of body) = Raise e →
   _handle_operation_errors e = 422) ∧
  (_validate_input_length cfg (operation_of body) (text_of body) = Return tt →
   e = MultipleResultsFound ∨ _handle_operation_errors e = 429).
Proof.
  intros Hcase. split; [|split].
  - destruct Hcase as [Hv|[Hv Hadm]].
    + erewrite operation_route_eq;
        [|apply handle_raise; by apply steps_rejected].
      done.
    + destruct (check_and_increment_raises _ _ _ _ _ _ Hadm) as [Hcommitted _].
      destruct (check_and_increment cfg (admission_day clock) (operation_of body) 0
                  (open_session db)) as [r s1] eqn:Hrun.
      simpl in Hadm, Hcommitted. subst r.
      erewrite operation_route_eq;
        [|apply handle_raise; by apply (steps_refused _ _ _ _ _ _ s1)].
      simpl. by rewrite Hcommitted.
  - unfold _validate_input_length. case_match; [|done]. by intros [= <-].
  - intros Hv. destruct Hcase as [Hv'|[_ Hadm]]; [congruence|].
    destruct (check_and_increment_raises _ _ _ _ _ _ Hadm) as [_ [->|[used ->]]];
      [by left|by right].
Qed.

Lemma refused_request_changes_nothing_witness :
  operation_route settings cpython (canned_backend "Done." 3) (same_day 20000)
    (summarize_request (repeat_char "a" 60)) ledger_at_limit
    {| _registry := ∅; _locks := ∅ |} =
  ((429, None), ledger_at_limit, {| _registry := ∅; _locks := ∅ |}).
Proof.
  apply (refused_request_changes_nothing settings cpython (canned_backend "Done." 3)
           (same_day 20000) (summarize_request (repeat_char "a" 60)) ledger_at_limit
           {| _registry := ∅; _locks := ∅ |} (LimitExceededError "summarize" 5 5)).
  right. split; reflexivity.
Defined.

(** ** Validation of the request bodies *)

Lemma lstrip_with_length p s :
  (String.length (lstrip_with p s) ≤ String.length s)%nat.
Proof. induction s as [|c s IH]; simpl; [done|]. destruct (p c); simpl; lia. Qed.

Lemma rev_app_length s acc :
  String.length (String.rev_app s acc) = (String.length s + String.length acc)%nat.
Proof.
  revert acc. induction s as [|c s IH]; intros acc; simpl; [done|].
  rewrite IH. simpl. lia.
Qed.

Lemma rev_length s : String.length (String.rev s) = String.length s.
Proof. unfold String.rev. rewrite rev_app_length. simpl. lia. Qed.

Lemma strip_with_length p s :
  (String.length (strip_with p s) ≤ String.length s)%nat.
Proof.
  unfold strip_with. rewrite rev_length.
  etrans; [apply lstrip_with_length|]. rewrite rev_length. apply lstrip_with_length.
Qed.

Lemma py_strip_len s : py_len (py_strip s) ≤ py_len s.
Proof. unfold py_len, py_strip. pose proof (strip_with_length py_isspace s). lia. Qed.

Lemma py_len_pos s : s ≠ EmptyString → 1 ≤ py_len s.
Proof. destruct s; [done|]. unfold py_len. simpl. lia. Qed.

Lemma text_field_Return min_length max_length value v :
  text_field min_length max_length value = Return v →
  v = py_strip value ∧ v ≠ EmptyString ∧
  min_length ≤ py_len value ≤ max_length ∧ 1 ≤ py_len v ≤ max_length.
Proof.
  unfold text_field, str_field, text_must_not_be_whitespace_only.
  case_bool_decide as Hlen; [|done]. simpl.
  case_bool_decide as Hempty; [done|]. intros [= <-].
  pose proof (py_strip_len value). pose proof (py_len_pos _ Hempty).
  repeat split; try done; lia.
Qed.

(** X17.  A text that the schema of a request has accepted is the
    stripped text of the body, is not empty and is no longer than the
    maximum of its field.  The maxima of the three schemas are the hard
    caps of the source configuration, so the length check of the
    orchestrator passes for every validated request.  The minimum is
    checked before the text is stripped: a validated summarize text can
    be a single character. *)
Theorem validated_text_passes_length_check min_length max_length value v :
  text_field min_length max_length value = Return v →
  v = py_strip value ∧ 1 ≤ py_len v ≤ max_length ∧
  ((min_length, max_length) = (50, 8000) →
   _validate_input_length settings "summarize" v = Return tt) ∧
  ((min_length, max_length) = (1, 4000) →
   _validate_input_length settings "translate" v = Return tt) ∧
  ((min_length, max_length) = (1, 2000) →
   _validate_input_length settings "classify" v = Return tt) ∧
  text_field 50 8000 (repeat_char " " 49 +:+ "a") = Return "a".
Proof.
  intros (-> & _ & _ & Hlen)%text_field_Return.
  split; [done|]. split; [done|].
  split; [|split; [|split]].
  - intros [= -> ->]. unfold _validate_input_length.
    assert (MAX_INPUT_CHARS settings !! "summarize" = Some 8000) as -> by reflexivity.
    simpl. rewrite (bool_decide_eq_false_2 (8000 < _)) by lia. done.
  - intros [= -> ->]. unfold _validate_input_length.
    assert (MAX_INPUT_CHARS settings !! "translate" = Some 4000) as -> by reflexivity.
    simpl. rewrite (bool_decide_eq_false_2 (4000 < _)) by lia. done.
  - intros [= -> ->]. unfold _validate_input_length.
    assert (MAX_INPUT_CHARS settings !! "classify" = Some 2000) as -> by reflexivity.
    simpl. rewrite (bool_decide_eq_false_2 (2000 < _)) by lia. done.
  - vm_compute. reflexivity.
Qed.

Lemma validated_text_passes_length_check_witness :
  _validate_input_length settings "translate" "Guten Tag" = Return tt.
Proof.
  destruct (validated_text_passes_length_check 1 4000 "  Guten Tag " "Guten Tag")
    as (_ & _ & _ & Htranslate & _).
  - vm_compute. reflexivity.
  - apply Htranslate. reflexivity.
Defined.

Lemma size_list_to_set_le (l : list string) :
  (size (list_to_set l : gset string) ≤ length l)%nat.
Proof.
  induction l as [|x l IH].
  - by rewrite list_to_set_nil, size_empty.
  - rewrite list_to_set_cons, size_union_alt, size_singleton. cbn [length].
    pose proof (subseteq_size (list_to_set l ∖ {[x]}) (list_to_set l : gset string)) as Hs.
    specialize (Hs (subseteq_difference_l _ _ _ (reflexivity _))). lia.
Qed.

Lemma size_list_to_set_NoDup (l : list string) :
  size (list_to_set l : gset string) = length l → NoDup l.
Proof.
  induction l as [|x l IH]; [constructor|].
  rewrite list_to_set_cons. cbn [length]. intros Hsize.
  destruct (decide (x ∈ l)) as [Hin|Hnotin].
  - assert (({[x]} ∪ list_to_set l : gset string) = list_to_set l) as Heq.
    { apply set_eq. intros y. rewrite elem_of_union, elem_of_singleton, elem_of_list_to_set.
      split; [intros [->|?]; done|auto]. }
    rewrite Heq in Hsize. pose proof (size_list_to_set_le l). lia.
  - rewrite size_union, size_singleton in Hsize.
    + constructor; [done|]. apply IH. lia.
    + intros y Hy%elem_of_singleton Hy'%elem_of_list_to_set. by subst.
Qed.

Lemma categories_must_be_unique_and_non_empty_Return values cats :
  categories_must_be_unique_and_non_empty values = Return cats →
  cats = py_strip <$> filter (λ c, py_strip c ≠ EmptyString) values ∧
  (2 ≤ length cats ≤ length values)%nat ∧
  NoDup (py_lower <$> cats).
Proof.
  unfold categories_must_be_unique_and_non_empty.
  case_bool_decide as Hshort; [done|]. case_bool_decide as Hdup; [done|].
  intros [= <-]. split; [done|]. split.
  - split; [lia|]. rewrite length_fmap. apply length_filter.
  - apply size_list_to_set_NoDup. by rewrite length_fmap.
Qed.

(** X18.  The category list of a validated classify request is what
    the parser needs.  When the [categories] field accepts a list, what
    it yields has from 2 to 20 labels, each of them the stripped form of
    a label of the body and not empty, and no two of them equal up to
    case.  For such a list every result of [_parse_classify_output],
    whatever the model wrote, has its label in the list, matched by no
    other label up to case, and float scores whose sum differs from 1 by
    at most 20 * 2^-54. *)
Theorem validated_categories_fit_parser values cats :
  categories_field values = Return cats →
  (2 ≤ length cats ≤ 20)%nat ∧
  NoDup (py_lower <$> cats) ∧
  (∀ c, c ∈ cats → c ≠ EmptyString ∧ ∃ v, v ∈ values ∧ c = py_strip v) ∧
  ∀ py raw label confidence scores,
    _parse_classify_output py raw cats = Return (label, confidence, scores) →
    label ∈ cats ∧
    (∀ c, c ∈ cats → py_lower c = py_lower label → c = label) ∧
    (Qabs (scores_total scores - 1) <= 20 * (1 # Z.to_pos (2 ^ 54)))%Q.
Proof.
  unfold categories_field. case_bool_decide as Hlen; [|done].
  intros (Hcats & Hbounds & Hnodup)%categories_must_be_unique_and_non_empty_Return.
  split; [lia|]. split; [done|]. split.
  - intros c Hc. rewrite Hcats in Hc.
    apply list_elem_of_fmap in Hc as (v & -> & Hv).
    apply list_elem_of_filter in Hv as [Hne Hv]. split; [done|]. by exists v.
  - intros py raw label confidence scores. unfold _parse_classify_output.
    destruct (guarded_parse py raw cats) as [[label' confidence']|e] eqn:Hparse; [|done].
    simpl. intros [= -> -> <-].
    pose proof (guarded_parse_elem py _ _ _ _ Hparse) as Hin.
    pose proof (guarded_parse_confidence py _ _ _ _ Hparse) as Hrange.
    split; [done|]. split.
    + intros c Hc Heq. symmetry. by apply (lower_map_unique cats c label).
    + assert (Z.of_nat (length cats) ≤ 20) as H20 by lia.
      eapply Qle_trans.
      * apply build_scores_near_one;
          [by apply (NoDup_fmap_1 py_lower)|lia|done|done|lia].
      * apply Qmult_le_compat_r; [|done].
        change 20%Q with (inject_Z 20). by rewrite <-Zle_Qle.
Qed.

Lemma validated_categories_fit_parser_witness :
  ∃ scores,
    _parse_classify_output cpython scenario_output ["Positive"; "negative"] =
      Return ("Positive", round_float (8 # 10), scores) ∧
    (Qabs (scores_total scores - 1) <= 20 * (1 # Z.to_pos (2 ^ 54)))%Q.
Proof.
  destruct (validated_categories_fit_parser [" Positive"; "  "; "negative "]
              ["Positive"; "negative"]) as (_ & _ & _ & Hparser).
  - vm_compute. reflexivity.
  - eexists. split; [vm_compute; reflexivity|].
    eapply (Hparser cpython scenario_output "Positive" (round_float (8 # 10))).
    vm_compute. reflexivity.
Defined.

(** X19.  A validated translate request names two supported languages
    that differ, carries the stripped text of the body, of 1 to 4000
    characters, and the request id of the body; a body whose source and
    target language are the same is refused whatever else it holds. *)
Theorem validated_translation_languages id text source target :
  (∀ r, TranslateRequest_validate id text source target = Return r →
        TranslateRequest.source_language r = source ∧
        TranslateRequest.target_language r = target ∧
        source ∈ SUPPORTED_LANGUAGES ∧ target ∈ SUPPORTED_LANGUAGES ∧
        source ≠ target ∧
        TranslateRequest.text r = py_strip text ∧
        1 ≤ py_len (TranslateRequest.text r) ≤ 4000 ∧
        TranslateRequest.request_id r = id) ∧
  (source = target →
   TranslateRequest_validate id text source target = Raise ValueError).
Proof.
  assert (∀ r, TranslateRequest_validate id text source target = Return r →
            TranslateRequest.source_language r = source ∧
            TranslateRequest.target_language r = target ∧
            source ∈ SUPPORTED_LANGUAGES ∧ target ∈ SUPPORTED_LANGUAGES ∧
            source ≠ target ∧
            TranslateRequest.text r = py_strip text ∧
            1 ≤ py_len (TranslateRequest.text r) ≤ 4000 ∧
            TranslateRequest.request_id r = id) as Hforward.
  { intros r. unfold TranslateRequest_validate.
    destruct (request_id_field id) as [id'|] eqn:Hid; [|done].
    destruct (text_field 1 4000 text) as [text'|] eqn:Htext; [|done].
    unfold language_must_be_supported.
    case_bool_decide as Hsource; [|done]. case_bool_decide as Htarget; [|done].
    simpl. unfold languages_must_differ. rewrite lookup_singleton_eq.
    destruct (bool_decide (source ≠ EmptyString) && bool_decide (source = target))
      eqn:Hsame; [done|].
    intros [= <-]. simpl.
    apply text_field_Return in Htext as (-> & _ & _ & Hlen).
    assert (source ≠ EmptyString) as Hne.
    { intros ->. vm_compute in Hsource. discriminate Hsource. }
    rewrite (bool_decide_eq_true_2 _ Hne) in Hsame. simpl in Hsame.
    apply bool_decide_eq_false_1 in Hsame.
    assert (id' = id) as ->.
    { unfold request_id_field in Hid. destruct id as [i|]; [|by simplify_eq].
      case_bool_decide; by simplify_eq. }
    done. }
  split; [done|]. intros Heq.
  destruct (TranslateRequest_validate id text source target) as [r|e] eqn:Hv.
  - destruct (Hforward r eq_refl) as (_ & _ & _ & _ & Hne & _). done.
  - revert Hv. unfold TranslateRequest_validate.
    repeat case_match; by intros [= <-].
Qed.

(** ** Updating a limit through the API *)

Lemma limits_report_eq cfg s :
  limits_report cfg s =
  (λ row : string * Z,
     {| limit_operation := row.1; limit_daily_limit := row.2;
        max_input_chars := default 0 (MAX_INPUT_CHARS cfg !! row.1);
        max_output_tokens := default 0 (MAX_OUTPUT_TOKENS cfg !! row.1) |})
  <$> map_to_list (operation_limits (pending s)).
Proof. reflexivity. Qed.

Lemma alter_present (m : gmap string Z) k v :
  is_Some (m !! k) → alter (λ _, v) k m = <[k := v]> m.
Proof.
  intros [old Hold]. apply map_eq. intros j. rewrite lookup_alter, lookup_insert.
  destruct (decide (k = j)); [|done]. by rewrite Hold.
Qed.

(** X20.  After start-up an accepted limit update takes effect and
    keeps the limits in range.  For a body the schema accepts, an
    operation that is configured, and a database whose limits and default
    lie between 0 and 100000, [PUT /limits] on the initialised database
    sets the limit of that operation to the new value and no other,
    leaves the usage rows alone, reports the new value, and every limit
    still lies between 0 and 100000: the API cannot make a limit
    negative. *)
Theorem accepted_update_after_startup cfg operation daily_limit body db :
  UpdateLimitRequest_validate operation daily_limit = Return body →
  is_Some (OPERATION_MODEL_MAP cfg !! operation) →
  0 ≤ DEFAULT_DAILY_LIMIT cfg ≤ 100000 →
  (∀ op n, operation_limits db !! op = Some n → 0 ≤ n ≤ 100000) →
  operation_limits (routes_limits.update_limit cfg body (init_db cfg db)).2 =
    <[operation := daily_limit]> (operation_limits (init_db cfg db)) ∧
  usage_log (routes_limits.update_limit cfg body (init_db cfg db)).2 = usage_log db ∧
  (∀ op n,
     operation_limits (routes_limits.update_limit cfg body (init_db cfg db)).2 !! op
       = Some n → 0 ≤ n ≤ 100000) ∧
  limits_nonneg cfg (routes_limits.update_limit cfg body (init_db cfg db)).2 ∧
  (∃ e, e ∈ (routes_limits.update_limit cfg body (init_db cfg db)).1 ∧
        limit_operation e = operation ∧ limit_daily_limit e = daily_limit).
Proof.
  unfold UpdateLimitRequest_validate.
  destruct (bool_decide (operation ∈ ["summarize"; "translate"; "classify"])); [|done].
  case_bool_decide as Hrange; [|done]. simpl. intros [= <-] [f Hf] Hdefault Hdb.
  assert (is_Some (operation_limits (init_db cfg db) !! operation)) as Hrow.
  { rewrite init_db_limits. destruct (operation_limits db !! operation); [done|].
    by rewrite Hf. }
  assert (∀ op n, operation_limits (init_db cfg db) !! op = Some n → 0 ≤ n ≤ 100000)
    as Hdb0.
  { intros op n. rewrite init_db_limits.
    destruct (operation_limits db !! op) as [k|] eqn:Hk.
    - intros [= <-]. by apply (Hdb op).
    - destruct (OPERATION_MODEL_MAP cfg !! op); simpl; [|done]. by intros [= <-]. }
  unfold routes_limits.update_limit. simpl.
  rewrite (alter_present _ _ _ Hrow).
  assert (∀ op n,
            <[operation := daily_limit]> (operation_limits (init_db cfg db)) !! op = Some n →
            0 ≤ n ≤ 100000) as Hrange'.
  { intros op n. rewrite lookup_insert. destruct (decide (operation = op)).
    - by intros [= <-].
    - apply Hdb0. }
  split; [done|]. split; [apply init_db_usage|]. split; [done|]. split.
  - split; [lia|]. intros op n Hop. by apply (proj1 (Hrange' op n Hop)).
  - exists {| limit_operation := operation; limit_daily_limit := daily_limit;
              max_input_chars := default 0 (MAX_INPUT_CHARS cfg !! operation);
              max_output_tokens := default 0 (MAX_OUTPUT_TOKENS cfg !! operation) |}.
    split; [|done]. rewrite limits_report_eq. simpl.
    apply list_elem_of_fmap. exists (operation, daily_limit). split; [done|].
    apply elem_of_map_to_list. by rewrite lookup_insert_eq.
Qed.

Lemma accepted_update_after_startup_witness :
  let body := {| UpdateLimitRequest.operation := "translate";
                 UpdateLimitRequest.daily_limit := 25 |} in
  let db := {| operation_limits := ∅; usage_log := [] |} in
  operation_limits (routes_limits.update_limit settings body (init_db settings db)).2 =
  <["translate" := 25]> (operation_limits (init_db settings db)).
Proof.
  intros body db.
  apply (accepted_update_after_startup settings "translate" 25 body db).
  - reflexivity.
  - vm_compute. eauto.
  - vm_compute. split; discriminate.
  - intros op n Hop. vm_compute in Hop. discriminate Hop.
Defined.

(** ** The range of the classification scores *)

(** X21.  Whatever the model wrote, a result of [_parse_classify_output]
    has a confidence between 0 and 1, which is what the response schema
    demands of it, a score for every category and for nothing else, and
    every score between 0 and 1. *)
Theorem parser_scores_in_unit_interval py raw cats label confidence scores :
  _parse_classify_output py raw cats = Return (label, confidence, scores) →
  (0 <= confidence <= 1)%Q ∧
  (∀ c, is_Some (scores !! c) ↔ c ∈ cats) ∧
  (∀ c v, scores !! c = Some v → (0 <= v <= 1)%Q).
Proof.
  unfold _parse_classify_output.
  destruct (guarded_parse py raw cats) as [[label' confidence']|e] eqn:Hparse; [|done].
  simpl. intros [= -> -> <-].
  pose proof (guarded_parse_confidence _ _ _ _ _ Hparse) as Hrange.
  pose proof (guarded_parse_elem py _ _ _ _ Hparse) as Hin.
  split; [done|]. unfold build_scores. split.
  - intros c. rewrite lookup_insert. destruct (decide (label = c)) as [<-|Hne].
    + split; [done|by eexists].
    + split.
      * intros [v Hv]. apply dict_of_lookup_Some, list_elem_of_fmap in Hv
          as (c' & [= -> _] & Hc'). done.
      * intros Hc. rewrite (constant_dict_lookup _ _ _ Hc). by eexists.
  - intros c v. rewrite lookup_insert. destruct (decide (label = c)) as [<-|Hne].
    + by intros [= <-].
    + intros Hv. apply dict_of_lookup_Some, list_elem_of_fmap in Hv
        as (c' & [= _ ->] & _). by apply remainder_share_range.
Qed.

Lemma parser_scores_in_unit_interval_witness :
  ∃ scores,
    _parse_classify_output cpython scenario_output ["positive"; "negative"] =
      Return ("positive", round_float (8 # 10), scores) ∧
    ∀ c v, scores !! c = Some v → (0 <= v <= 1)%Q.
Proof.
  eexists. split; [vm_compute; reflexivity|].
  eapply (parser_scores_in_unit_interval cpython scenario_output
            ["positive"; "negative"] "positive" (round_float (8 # 10))).
  vm_compute. reflexivity.
Defined.

(** ** Code fences around the model output *)

Lemma append_cons x (a b : string) : String x a +:+ b = String x (a +:+ b).
Proof. reflexivity. Qed.

Lemma append_nil_l (a : string) : EmptyString +:+ a = a.
Proof. reflexivity. Qed.

Lemma append_assoc (a b c : string) : (a +:+ b) +:+ c = a +:+ (b +:+ c).
Proof. induction a as [|x a IH]; [done|]. by rewrite !append_cons, IH. Qed.

Lemma append_nil_r (a : string) : a +:+ EmptyString = a.
Proof. induction a as [|x a IH]; [done|]. by rewrite append_cons, IH. Qed.

Lemma rev_app_eq s acc : String.rev_app s acc = String.rev s +:+ acc.
Proof.
  unfold String.rev. revert acc. induction s as [|c s IH]; intros acc; [done|].
  cbn [String.rev_app]. rewrite (IH (String c acc)), (IH (String c EmptyString)).
  by rewrite append_assoc.
Qed.

Lemma rev_cons c s : String.rev (String c s) = String.rev s +:+ String c EmptyString.
Proof. unfold String.rev at 1. cbn [String.rev_app]. apply rev_app_eq. Qed.

Lemma rev_append a b : String.rev (a +:+ b) = String.rev b +:+ String.rev a.
Proof.
  induction a as [|x a IH].
  - change (EmptyString +:+ b) with b. change (String.rev EmptyString) with EmptyString.
    by rewrite append_nil_r.
  - by rewrite append_cons, !rev_cons, IH, append_assoc.
Qed.

Lemma rev_involutive s : String.rev (String.rev s) = s.
Proof.
  induction s as [|c s IH]; [done|].
  rewrite rev_cons, rev_append, IH. done.
Qed.

Lemma lstrip_with_prefix p pre s :
  all_chars p pre = true → lstrip_with p (pre +:+ s) = lstrip_with p s.
Proof.
  induction pre as [|c pre IH]; [done|]. cbn [all_chars].
  intros [Hc Hpre]%andb_true_iff. rewrite append_cons. cbn [lstrip_with].
  rewrite Hc. by apply IH.
Qed.

Lemma strip_with_core p s pre c m d post :
  s = pre +:+ String c (m +:+ String d post) →
  all_chars p pre = true → all_chars p (String.rev post) = true →
  p c = false → p d = false →
  strip_with p s = String c (m +:+ String d EmptyString).
Proof.
  intros -> Hpre Hpost Hc Hd. unfold strip_with.
  rewrite lstrip_with_prefix by done. cbn [lstrip_with]. rewrite Hc.
  rewrite rev_cons, rev_append, rev_cons, !append_assoc.
  rewrite lstrip_with_prefix by done. rewrite append_cons. cbn [lstrip_with]. rewrite Hd.
  rewrite append_nil_l, rev_cons, rev_append, rev_involutive.
  change (String.rev (String c EmptyString)) with (String c EmptyString).
  by rewrite append_assoc.
Qed.

Ltac normalize_append :=
  repeat (rewrite append_cons || rewrite append_assoc || rewrite append_nil_l).

Lemma strip_fences_braced_in pre post lang mid :
  all_chars py_isspace pre = true → all_chars py_isspace (String.rev post) = true →
  lang = "json" ∨ lang = EmptyString →
  strip_fences (pre +:+ fenced lang (braced mid) +:+ post) = braced mid.
Proof.
  intros Hpre Hpost Hlang. unfold strip_fences, py_strip, py_strip_chars.
  set (inner := String (ascii_of_N 10)
                  (String "{" mid +:+ String "}" (String (ascii_of_N 10) EmptyString))).
  assert (strip_with py_isspace (pre +:+ fenced lang (braced mid) +:+ post) =
          "```" +:+ lang +:+ inner +:+ "```") as ->.
  { destruct Hlang as [-> | ->].
    - rewrite (strip_with_core _ _ pre "`"
                 ("``json" +:+ inner +:+ "``") "`" post); try done;
        unfold fenced, braced, nl, inner; by normalize_append.
    - rewrite (strip_with_core _ _ pre "`" ("``" +:+ inner +:+ "``") "`" post);
        try done; unfold fenced, braced, nl, inner; by normalize_append. }
  assert (strip_with (λ c, char_in c "```json") ("```" +:+ lang +:+ inner +:+ "```")
          = inner) as ->.
  { rewrite (strip_with_core _ _ ("```" +:+ lang) (ascii_of_N 10)
               (String "{" mid +:+ "}") (ascii_of_N 10) "```"); try done.
    - unfold inner. by normalize_append.
    - unfold inner. by normalize_append.
    - by destruct Hlang as [-> | ->]. }
  assert (strip_with (λ c, char_in c "```") inner = inner) as ->.
  { rewrite (strip_with_core _ _ EmptyString (ascii_of_N 10)
               (String "{" mid +:+ "}") (ascii_of_N 10) EmptyString); try done;
      unfold inner; by normalize_append. }
  unfold braced.
  rewrite (strip_with_core _ inner (String (ascii_of_N 10) EmptyString) "{" mid "}"
           (String (ascii_of_N 10) EmptyString)); done.
Qed.

Lemma all_chars_append p a b :
  all_chars p (a +:+ b) = all_chars p a && all_chars p b.
Proof.
  induction a as [|x a IH]; [done|].
  rewrite append_cons. cbn [all_chars]. by rewrite IH, andb_assoc.
Qed.

Lemma all_chars_rev p s : all_chars p (String.rev s) = all_chars p s.
Proof.
  induction s as [|c s IH]; [done|].
  rewrite rev_cons, all_chars_append, IH. cbn [all_chars].
  by rewrite andb_true_r, andb_comm.
Qed.

Lemma strip_fences_braced pre post mid :
  all_chars py_isspace pre = true → all_chars py_isspace (String.rev post) = true →
  strip_fences (pre +:+ braced mid +:+ post) = braced mid.
Proof.
  intros Hpre Hpost. unfold strip_fences, py_strip, py_strip_chars.
  assert (∀ p pre' post',
            all_chars p pre' = true → all_chars p (String.rev post') = true →
            p "{"%char = false → p "}"%char = false →
            strip_with p (pre' +:+ braced mid +:+ post') = braced mid) as Hstep.
  { intros p pre' post' Hpre' Hpost' Ho Hc.
    rewrite (strip_with_core p _ pre' "{" mid "}" post'); try done.
    unfold braced. by normalize_append. }
  rewrite (Hstep _ pre post) by done.
  rewrite <-(append_nil_r (braced mid)) at 1.
  rewrite (Hstep _ EmptyString EmptyString) by done.
  rewrite <-(append_nil_r (braced mid)) at 1.
  rewrite (Hstep _ EmptyString EmptyString) by done.
  rewrite <-(append_nil_r (braced mid)) at 1.
  by rewrite (Hstep _ EmptyString EmptyString).
Qed.

(** X22.  Code fences are removed.  For a JSON object in braces,
    inside a fence with the tag json or with no tag, or bare, with any
    white space around it, [strip_fences] yields the object itself; so
    [_parse_classify_output] answers for the fenced output what it
    answers for the object. *)
Theorem fenced_output_is_unwrapped py cats pre post lang mid :
  all_chars py_isspace pre = true → all_chars py_isspace post = true →
  lang = "json" ∨ lang = EmptyString →
  strip_fences (pre +:+ fenced lang (braced mid) +:+ post) = braced mid ∧
  strip_fences (pre +:+ braced mid +:+ post) = braced mid ∧
  _parse_classify_output py (pre +:+ fenced lang (braced mid) +:+ post) cats =
  _parse_classify_output py (braced mid) cats.
Proof.
  intros Hpre Hpost Hlang. rewrite <-(all_chars_rev _ post) in Hpost.
  pose proof (strip_fences_braced_in pre post lang mid Hpre Hpost Hlang) as Hfenced.
  pose proof (strip_fences_braced pre post mid Hpre Hpost) as Hbare.
  pose proof (strip_fences_braced EmptyString EmptyString mid eq_refl eq_refl) as Hself.
  rewrite append_nil_l, append_nil_r in Hself.
  split; [done|]. split; [done|].
  unfold _parse_classify_output, guarded_parse, parse_label.
  by rewrite Hfenced, Hself.
Qed.

Lemma fenced_output_is_unwrapped_witness :
  strip_fences (" " +:+ fenced "json" (braced (quoted "label" +:+ ":1")) +:+ nl) =
  braced (quoted "label" +:+ ":1").
Proof.
  apply (fenced_output_is_unwrapped cpython [] " " nl "json" (quoted "label" +:+ ":1")).
  - reflexivity.
  - reflexivity.
  - left. reflexivity.
Defined.

(** ** The registry over the loader *)

(** X23.  What the registry holds was built from an existing folder.
    With the loader of [model_loader.py] as backend and a folder that is
    not resident: without the model library every call raises
    RuntimeError, with it a folder missing on disk raises
    FileNotFoundError, and neither registers anything; a call that
    returns has found the library and the folder, and its handle carries
    that folder, the tokenizer and the model the library built for it,
    on the GPU in half precision when there is one and on the CPU in
    single precision otherwise. *)
Theorem registry_loads_existing_folders host generate f reg :
  _registry reg !! f = None →
  (transformers_installed host = false →
   (get_or_load (backend_of host generate) f reg).1 = Raise RuntimeError) ∧
  (transformers_installed host = true → f ∉ model_dirs host →
   (get_or_load (backend_of host generate) f reg).1 = Raise FileNotFoundError) ∧
  (∀ e, (get_or_load (backend_of host generate) f reg).1 = Raise e →
        _registry (get_or_load (backend_of host generate) f reg).2 = _registry reg) ∧
  (∀ loaded,
     (get_or_load (backend_of host generate) f reg).1 = Return loaded →
     transformers_installed host = true ∧ f ∈ model_dirs host ∧
     folder loaded = f ∧
     device loaded = (if cuda_available host then "cuda" else "cpu") ∧
     tokenizer_from_pretrained host f = Return (tokenizer loaded) ∧
     model_from_pretrained host f
       (if cuda_available host then "float16" else "float32") = Return (model loaded) ∧
     _registry (get_or_load (backend_of host generate) f reg).2 !! f = Some loaded).
Proof.
  intros Hmiss. rewrite get_or_load_miss by done. simpl.
  destruct (get_lock_registry f reg) as (_ & Hreg & _).
  unfold ModelLoader_load, _resolve_model_path, _select_device, and_then.
  destruct (transformers_installed host); simpl.
  2: { split; [done|]. split; [done|]. split; [by intros e _|done]. }
  split; [done|].
  case_bool_decide as Hdir; simpl.
  2: { split; [done|]. split; [by intros e _|done]. }
  split; [done|].
  destruct (tokenizer_from_pretrained host f) as [t|e1] eqn:Ht; simpl.
  2: { split; [by intros e _|done]. }
  destruct (cuda_available host); simpl;
    destruct (model_from_pretrained host f _) as [m|e2] eqn:Hm; simpl;
    (split; [by intros e|]); try done;
    intros loaded [= <-]; simpl; by rewrite lookup_insert_eq.
Qed.

Lemma registry_loads_existing_folders_witness :
  let host := {| transformers_installed := true; model_dirs := {["qwen-classify"]};
                 cuda_available := false;
                 tokenizer_from_pretrained := λ _, Return 1%nat;
                 model_from_pretrained := λ _ _, Return 2%nat |} in
  (get_or_load (backend_of host (λ _ _ _, Return ("Done.", 3))) "qwen-summarize"
     {| _registry := ∅; _locks := ∅ |}).1 = Raise FileNotFoundError.
Proof.
  intros host.
  destruct (registry_loads_existing_folders host (λ _ _ _, Return ("Done.", 3))
              "qwen-summarize" {| _registry := ∅; _locks := ∅ |})
    as (_ & Hmissing & _).
  - reflexivity.
  - apply Hmissing; [reflexivity|]. vm_compute. discriminate.
Defined.

(** ** The daily limit, request after request *)

Lemma steps_no_token_cap cfg be clock rq w s1 f loaded reg1 e :
  _validate_input_length cfg (operation_of rq) (text_of rq) = Return tt →
  check_and_increment cfg (admission_day clock) (operation_of rq) 0 (session w)
    = (Return tt, s1) →
  _get_model_folder cfg (operation_of rq) = Return f →
  get_or_load be f (model_registry w) = (Return loaded, reg1) →
  getitem (MAX_OUTPUT_TOKENS cfg) (operation_of rq) = Raise e →
  steps_of cfg be clock rq w =
  (Raise e, {| session := s1; model_registry := reg1 |}).
Proof.
  intros Hv Hadm Hf Hload Hm. unfold steps_of, run_operation.
  rewrite bind_eq. unfold lift at 1. rewrite Hv. cbv beta iota.
  rewrite bind_eq, (in_session_eq _ _ _ _ Hadm). cbv beta iota.
  rewrite bind_eq. unfold lift at 1. rewrite Hf. cbv beta iota.
  rewrite bind_eq. erewrite in_registry_eq by (simpl; exact Hload). cbv beta iota.
  rewrite bind_eq. unfold lift at 1. by rewrite Hm.
Qed.

(** A request that is admitted leaves, whatever happens to it later, one
    usage row for its key with one request more, durably. *)
Lemma handle_admitted cfg py be day rq db reg :
  _validate_input_length cfg (operation_of rq) (text_of rq) = Return tt →
  limit_of cfg db (operation_of rq) ≠ 0 →
  (length (usage_of (operation_of rq) day db) ≤ 1)%nat →
  count_of (operation_of rq) day db < limit_of cfg db (operation_of rq) →
  ∃ out w',
    handle cfg py be (same_day day) rq
      {| session := open_session db; model_registry := reg |} = (out, w') ∧
    operation_limits (committed (session w')) = operation_limits db ∧
    length (usage_of (operation_of rq) day (committed (session w'))) = 1%nat ∧
    count_of (operation_of rq) day (committed (session w'))
      = count_of (operation_of rq) day db + 1.
Proof.
  set (op := operation_of rq). intros Hv HL Hlen Hlt.
  destruct (admission_row cfg day op 0 (open_session db) HL Hlen Hlt)
    as (s1 & u1 & Hadm & Hc1 & Hu1 & Hcnt1 & _).
  simpl in Hcnt1.
  pose proof (check_and_increment_log_step cfg day op 0 (open_session db)) as [_ Hlim1].
  rewrite Hadm in Hlim1. simpl in Hlim1.
  assert (operation_limits (committed s1) = operation_limits db ∧
          length (usage_of op day (committed s1)) = 1%nat ∧
          count_of op day (committed s1) = count_of op day db + 1) as Hs1.
  { rewrite Hc1, Hu1. split; [done|]. split; [done|].
    by destruct (count_of_singleton _ _ _ _ Hu1) as [-> _]. }
  set (w := {| session := open_session db; model_registry := reg |}).
  assert (∀ e reg1 s2,
            committed s2 = committed s1 →
            steps_of cfg be (same_day day) rq w =
              (Raise e, {| session := s2; model_registry := reg1 |}) →
            ∃ out w', handle cfg py be (same_day day) rq w = (out, w') ∧
              operation_limits (committed (session w')) = operation_limits db ∧
              length (usage_of op day (committed (session w'))) = 1%nat ∧
              count_of op day (committed (session w')) = count_of op day db + 1)
    as Hraise.
  { intros e reg1 s2 Hs2 Hsteps. eexists _, _. split; [by apply handle_raise|].
    simpl. by rewrite Hs2. }
  destruct (_get_model_folder cfg op) as [f|e] eqn:Hf.
  2: { apply (Hraise e reg s1 eq_refl). by apply steps_without_model. }
  destruct (get_or_load be f reg) as [[loaded|e] reg1] eqn:Hget.
  2: { apply (Hraise e reg1 s1 eq_refl). by apply (steps_loader_raises _ _ _ _ _ _ f). }
  destruct (getitem (MAX_OUTPUT_TOKENS cfg) op) as [m|e] eqn:Hm.
  2: { apply (Hraise e reg1 s1 eq_refl).
       by apply (steps_no_token_cap _ _ _ _ _ _ f loaded). }
  destruct (run_inference be loaded (prompt_of rq) m) as [[text n]|e] eqn:Hinf.
  2: { apply (Hraise e reg1 s1 eq_refl).
       by apply (steps_inference_raises _ _ _ _ _ _ f loaded _ m). }
  assert ((length (usage_of op day (pending s1)) ≤ 1)%nat) as Hlen1 by (by rewrite Hu1).
  destruct (decide (- 2 ^ 63 ≤ tokens_of op day (pending s1) + n < 2 ^ 63))
    as [Hfit|Hover].
  2: { destruct (accounting_overflow day op n s1 Hlen1 Hover) as (s2 & Hrec & Hs2).
       apply (Hraise OverflowError reg1 s2 Hs2).
       by apply (steps_accounting_raises _ _ _ _ _ s1 f loaded _ m text n). }
  destruct (accounting_row day op n s1 Hlen1 Hfit)
    as (s2 & u2 & Hrec & Hc2 & Hu2 & Hcnt2 & _).
  pose proof (record_tokens_log_step day op n s1) as [_ Hlim2].
  rewrite Hrec in Hlim2. simpl in Hlim2.
  exists (assemble py rq f text n), {| session := s2; model_registry := reg1 |}.
  split.
  - apply handle_return. by apply (steps_return _ _ _ _ _ s1 f loaded _ m).
  - simpl. rewrite Hc2, Hu2. split; [congruence|]. split; [done|].
    destruct (count_of_singleton _ _ _ _ Hu2) as [-> _].
    destruct (count_of_singleton _ _ _ _ Hu1) as [Hc _]. lia.
Qed.

(** A request at or above the limit is refused and changes nothing. *)
Lemma handle_refused cfg py be day rq db reg :
  _validate_input_length cfg (operation_of rq) (text_of rq) = Return tt →
  0 < limit_of cfg db (operation_of rq) →
  (length (usage_of (operation_of rq) day db) ≤ 1)%nat →
  limit_of cfg db (operation_of rq) ≤ count_of (operation_of rq) day db →
  handle cfg py be (same_day day) rq
    {| session := open_session db; model_registry := reg |} =
  (Raise (LimitExceededError (operation_of rq) (count_of (operation_of rq) day db)
            (limit_of cfg db (operation_of rq))),
   {| session := open_session db; model_registry := reg |}).
Proof.
  intros Hv HL Hlen Hge. apply handle_raise.
  apply (steps_refused cfg be (same_day day) rq
           {| session := open_session db; model_registry := reg |} _ (open_session db));
    [done|]. simpl.
  revert Hlen Hge. unfold count_of, usage_of.
  destruct (select_usage (operation_of rq) day (usage_log db))
    as [|[pk u] [|p2 ps]] eqn:Hsel; simpl; intros Hlen Hge; [lia| |lia].
  apply (check_and_increment_exceeded cfg day (operation_of rq) 0 (open_session db) pk u);
    simpl; [lia|done|done].
Qed.

Lemma serve_cons cfg py be clock rq rqs db reg out w' :
  handle cfg py be clock rq {| session := open_session db; model_registry := reg |}
    = (out, w') →
  serve cfg py be clock (rq :: rqs) db reg =
  (out :: (serve cfg py be clock rqs (committed (session w')) (model_registry w')).1.1,
   (serve cfg py be clock rqs (committed (session w')) (model_registry w')).1.2,
   (serve cfg py be clock rqs (committed (session w')) (model_registry w')).2).
Proof.
  intros H. simpl. rewrite H. unfold close_session.
  by destruct (serve cfg py be clock rqs _ _) as [[outs db'] reg'].
Qed.

(** X24.  The daily limit holds request after request, whatever the
    backend does.  Requests of one operation, each within the hard cap,
    are served one after the other on one day, with a limit above 0 and
    at most one usage row for the day to begin with.  Then every request
    that arrives when the count has reached the limit is refused with
    the limit error, and at the end the count is the limit or the
    initial count plus the number of requests, whichever is less (and
    the initial count if that was higher): a request is counted when it
    is admitted, also when loading or generation fails afterwards, and
    never more than the limit allows. *)
Theorem daily_limit_caps_served_requests cfg py be day op rqs db reg :
  0 < limit_of cfg db op →
  (length (usage_of op day db) ≤ 1)%nat →
  (∀ rq, rq ∈ rqs →
         operation_of rq = op ∧
         _validate_input_length cfg op (text_of rq) = Return tt) →
  (∀ k, (k < length rqs)%nat →
        limit_of cfg db op ≤ count_of op day db + Z.of_nat k →
        (serve cfg py be (same_day day) rqs db reg).1.1 !! k =
        Some (Raise (LimitExceededError op
                       (Z.max (count_of op day db) (limit_of cfg db op))
                       (limit_of cfg db op)))) ∧
  count_of op day (serve cfg py be (same_day day) rqs db reg).1.2 =
    Z.max (count_of op day db)
      (Z.min (count_of op day db + Z.of_nat (length rqs)) (limit_of cfg db op)) ∧
  operation_limits (serve cfg py be (same_day day) rqs db reg).1.2 = operation_limits db.
Proof.
  revert db reg. induction rqs as [|rq rqs IH]; intros db reg HL Hlen Hrqs.
  { simpl. split; [intros k Hk; lia|]. split; [lia|done]. }
  destruct (Hrqs rq) as [Hop Hv]; [apply list_elem_of_here|].
  assert (∀ rq', rq' ∈ rqs →
            operation_of rq' = op ∧
            _validate_input_length cfg op (text_of rq') = Return tt) as Hrqs'.
  { intros rq' Hin. apply Hrqs. by apply list_elem_of_further. }
  destruct (decide (count_of op day db < limit_of cfg db op)) as [Hlt|Hge].
  - destruct (handle_admitted cfg py be day rq db reg) as (out & w' & Hh & Hlim & Hlen' & Hcnt);
      rewrite ?Hop; try done; try lia.
    rewrite Hop in Hlen', Hcnt.
    assert (limit_of cfg (committed (session w')) op = limit_of cfg db op) as Hsame.
    { unfold limit_of. by rewrite Hlim. }
    destruct (IH (committed (session w')) (model_registry w')) as (Hks & Hfinal & Hlims);
      [by rewrite Hsame|lia|done|].
    rewrite (serve_cons _ _ _ _ _ _ _ _ _ _ Hh). simpl.
    split; [|split].
    + intros [|k] Hk Hreach; [lia|]. simpl.
      rewrite Hks by (rewrite ?Hsame, ?Hcnt; lia).
      rewrite Hsame, Hcnt. do 3 f_equal. lia.
    + rewrite Hfinal, Hsame, Hcnt. lia.
    + by rewrite Hlims.
  - pose proof (handle_refused cfg py be day rq db reg) as Hh.
    rewrite Hop in Hh. specialize (Hh Hv HL Hlen ltac:(lia)).
    destruct (IH db reg) as (Hks & Hfinal & Hlims); [done..|].
    rewrite (serve_cons _ _ _ _ _ _ _ _ _ _ Hh). simpl.
    split; [|split].
    + intros [|k] Hk Hreach; simpl.
      * do 3 f_equal. lia.
      * apply Hks; lia.
    + rewrite Hfinal. lia.
    + done.
Qed.

Lemma daily_limit_caps_served_requests_witness :
  let rq := classify_request "I liked it a lot" ["positive"; "negative"] in
  let db := {| operation_limits := {["classify" := 2]}; usage_log := [] |} in
  (serve settings cpython (canned_backend scenario_output 12) (same_day 20000)
     [rq; rq; rq] db {| _registry := ∅; _locks := ∅ |}).1.1 !! 2%nat =
  Some (Raise (LimitExceededError "classify" 2 2)).
Proof.
  intros rq db.
  destruct (daily_limit_caps_served_requests settings cpython
              (canned_backend scenario_output 12) 20000 "classify" [rq; rq; rq] db
              {| _registry := ∅; _locks := ∅ |}) as (Hks & _ & _).
  - vm_compute. reflexivity.
  - vm_compute. lia.
  - intros rq' Hin.
    repeat (apply elem_of_cons in Hin as [->|Hin]; [split; reflexivity|]).
    by apply elem_of_nil in Hin.
  - apply (Hks 2%nat).
    + simpl. lia.
    + vm_compute. discriminate.
Defined.

(** ** Concurrent callers of one key when loads may fail *)

Lemma failures_insert ts t s s' :
  ts !! t = Some s →
  (failures (<[t := s']> ts) + failed s = failures ts + failed s')%nat.
Proof.
  revert t. induction ts as [|s0 ts IH]; intros [|t] Ht; simplify_eq/=; [lia|].
  specialize (IH _ Ht). unfold failures in *. lia.
Qed.

Lemma failures_wake ws ts : failures (wake_up_first ws ts) = failures ts.
Proof.
  unfold wake_up_first. destruct ws as [|w rest]; [done|].
  destruct (ts !! w) as [[| | | | |]|] eqn:Hw; try done.
  pose proof (failures_insert ts w Waiting Woken Hw) as H. simpl in H. lia.
Qed.

Lemma failures_start n : failures (replicate n Start) = 0%nat.
Proof. induction n as [|n IH]; simpl; [done|]. unfold failures in *. lia. Qed.

Lemma retry_invariant_initial n : retry_invariant (concurrent_calls n).
Proof.
  assert (∀ t s, replicate n Start !! t = Some s → s = Start) as Hstart.
  { intros t s [-> _]%lookup_replicate. done. }
  split; simpl; try done.
  - intros t id Ht. by apply Hstart in Ht.
  - intros t1 t2 id1 id2 Ht. by apply Hstart in Ht.
  - intros t h Ht. by apply Hstart in Ht.
  - intros t Ht. by apply Hstart in Ht.
  - intros t Ht. by apply Hstart in Ht.
  - intros t Ht. by apply elem_of_nil in Ht.
  - apply NoDup_nil_2.
  - by rewrite failures_start.
Qed.

Lemma retry_invariant_fast_path k t h :
  retry_invariant k → callers k !! t = Some Start → resident k = Some h →
  retry_invariant {| resident := resident k; locked := locked k;
                     waiters := waiters k; invocations := invocations k;
                     callers := <[t := Done h]> (callers k) |}.
Proof.
  intros Hinv Ht Hres. destruct Hinv. split; simpl.
  - intros t' id H. split_lookup H. eauto.
  - intros Hl. destruct (lock_has_loader0 Hl) as (t' & id & H).
    exists t', id. by eapply lookup_insert_other.
  - intros t1 t2 id1 id2 H1 H2. split_lookup H1. split_lookup H2. eauto.
  - intros t' h' H. split_lookup H; eauto.
  - intros t' H. split_lookup H. eauto.
  - intros t' H. split_lookup H. eauto.
  - intros t' Hin. destruct (queue_is_waiting0 _ Hin) as [H|H]; [left|right];
      by eapply lookup_insert_other.
  - done.
  - intros Hne. destruct (queue_moves0 Hne) as [H|(t' & H)];
      [by left|right; exists t']; by eapply lookup_insert_other.
  - pose proof (failures_insert _ _ _ (Done h) Ht) as H. simpl in H. lia.
Qed.

Lemma retry_invariant_queue k t :
  retry_invariant k → callers k !! t = Some Start → resident k = None →
  negb (locked k) && bool_decide (waiters k = []) = false →
  retry_invariant {| resident := resident k; locked := locked k;
                     waiters := waiters k ++ [t]; invocations := invocations k;
                     callers := <[t := Waiting]> (callers k) |}.
Proof.
  intros Hinv Ht Hres Hbusy. destruct Hinv. split; simpl.
  - intros t' id H. split_lookup H. eauto.
  - intros Hl. destruct (lock_has_loader0 Hl) as (t' & id & H).
    exists t', id. by eapply lookup_insert_other.
  - intros t1 t2 id1 id2 H1 H2. split_lookup H1. split_lookup H2. eauto.
  - intros t' h' H. split_lookup H; eauto.
  - intros t' H. split_lookup H. destruct (woken_has_turn0 _ H) as [Hl [rest ->]].
    split; [done|]. by exists (rest ++ [t]).
  - intros t' H. apply elem_of_app. split_lookup H.
    + right. by apply list_elem_of_singleton.
    + left. eauto.
  - intros t' [Hin | ->%list_elem_of_singleton]%elem_of_app.
    + destruct (queue_is_waiting0 _ Hin) as [H|H]; [left|right];
        by eapply lookup_insert_other.
    + left. apply list_lookup_insert_eq. by eapply lookup_lt_Some.
  - apply NoDup_app. split; [done|]. split; [|apply NoDup_singleton].
    intros t' Hin ->%list_elem_of_singleton.
    destruct (queue_is_waiting0 _ Hin); congruence.
  - intros _. destruct (locked k) eqn:Hl; [by left|].
    destruct queue_moves0 as [?|(t' & H)]; [|done|].
    + intros Hnil. simpl in Hbusy. by rewrite bool_decide_eq_true_2 in Hbusy.
    + right. exists t'. by eapply lookup_insert_other.
  - pose proof (failures_insert _ _ _ Waiting Ht) as H. simpl in H. lia.
Qed.

(** Taking the lock with nothing in the registry: the load is submitted. *)
Lemma retry_invariant_submit k t s rest :
  retry_invariant k → callers k !! t = Some s → failed s = 0%nat →
  resident k = None → locked k = false →
  (∀ t', t' ≠ t → callers k !! t' ≠ Some Woken) →
  (∀ t', t' ≠ t → callers k !! t' = Some Waiting → t' ∈ rest) →
  (∀ t', t' ∈ rest → t' ≠ t ∧ callers k !! t' = Some Waiting) →
  NoDup rest →
  retry_invariant {| resident := None; locked := true; waiters := rest;
                     invocations := S (invocations k);
                     callers := <[t := Loading (invocations k)]> (callers k) |}.
Proof.
  intros Hinv Ht Hs Hres Hfree Hwoken Hqueued Hrest Hnd. destruct Hinv.
  assert (∀ t' id, callers k !! t' ≠ Some (Loading id)) as Hnone.
  { intros t' id H. apply loader_holds_lock0 in H as [? _]. congruence. }
  split; simpl.
  - intros t' id H. split_lookup H; [done|by destruct (Hnone t' id)].
  - intros _. exists t, (invocations k).
    apply list_lookup_insert_eq. by eapply lookup_lt_Some.
  - intros t1 t2 id1 id2 H1 H2.
    split_lookup H1; [|by destruct (Hnone t1 id1)].
    split_lookup H2; [done|by destruct (Hnone t2 id2)].
  - intros t' h H. split_lookup H. apply returned_resident0 in H. congruence.
  - intros t' H. split_lookup H. by destruct (Hwoken t').
  - intros t' H. split_lookup H. eauto.
  - intros t' Hin. destruct (Hrest _ Hin) as [Hne H]. left.
    by rewrite list_lookup_insert_ne.
  - done.
  - intros _. by left.
  - pose proof (failures_insert _ _ _ (Loading (invocations k)) Ht) as H.
    simpl in H. rewrite Hres, Hfree in loads_accounted0.
    simpl in loads_accounted0. simpl. lia.
Qed.

(** Releasing the lock: the caller has its outcome and the first waiter
    is woken. *)
Lemma retry_invariant_release k t s s' r rest :
  callers k !! t = Some s →
  (s' = Failed ∨ ∃ h, s' = Done h ∧ r = Some h) →
  (∀ t' id, t' ≠ t → callers k !! t' ≠ Some (Loading id)) →
  (∀ t', t' ≠ t → callers k !! t' ≠ Some Woken) →
  (∀ t' h', t' ≠ t → callers k !! t' = Some (Done h') → r = Some h') →
  (∀ t', t' ≠ t → callers k !! t' = Some Waiting → t' ∈ rest) →
  (∀ t', t' ∈ rest → t' ≠ t ∧ callers k !! t' = Some Waiting) →
  NoDup rest →
  invocations k =
    (failures (<[t := s']> (callers k)) + registered r)%nat →
  retry_invariant {| resident := r; locked := false; waiters := rest;
                     invocations := invocations k;
                     callers := wake_up_first rest (<[t := s']> (callers k)) |}.
Proof.
  intros Ht Hs' Hload Hwoken Hdone Hqueued Hrest Hnd Hcount.
  set (ts1 := <[t := s']> (callers k)).
  assert (∀ t' s'', ts1 !! t' = Some s'' →
            (t' = t ∧ s'' = s') ∨ (t' ≠ t ∧ callers k !! t' = Some s'')) as Hts1.
  { intros t' s'' H. subst ts1. split_lookup H; eauto. }
  assert (∀ t', t' ∈ rest → ts1 !! t' = Some Waiting) as Hrest1.
  { intros t' Hin. destruct (Hrest _ Hin) as [Hne Hw].
    subst ts1. by rewrite list_lookup_insert_ne. }
  split; simpl.
  - intros t' id [H|(? & _)]%wake_up_first_lookup; [|done].
    apply Hts1 in H as [[_ <-]|[Hne H]]; [|by destruct (Hload t' id)].
    by destruct Hs' as [?|(? & ? & _)].
  - done.
  - intros t1 t2 id1 id2 [H|(? & _)]%wake_up_first_lookup; [|done].
    apply Hts1 in H as [[_ <-]|[Hne H]]; [|by destruct (Hload t1 id1)].
    by destruct Hs' as [?|(? & ? & _)].
  - intros t' h' [H|(? & _)]%wake_up_first_lookup; [|done].
    apply Hts1 in H as [[_ <-]|[Hne H]]; [|by eapply Hdone].
    destruct Hs' as [?|(h & ? & ?)]; [done|]. by simplify_eq.
  - intros t' [H|(_ & _ & Hhead)]%wake_up_first_lookup; [|done].
    apply Hts1 in H as [[_ <-]|[Hne H]]; [|by destruct (Hwoken t')].
    by destruct Hs' as [?|(? & ? & _)].
  - intros t' [H|(? & _)]%wake_up_first_lookup; [|done].
    apply Hts1 in H as [[_ <-]|[Hne H]]; [|by eauto].
    by destruct Hs' as [?|(? & ? & _)].
  - intros t' Hin. destruct rest as [|w rest']; [by apply elem_of_nil in Hin|].
    destruct (decide (t' = w)) as [->|Hne].
    + right. apply wake_up_first_head. apply Hrest1, list_elem_of_here.
    + left. rewrite wake_up_first_other by done. by apply Hrest1.
  - done.
  - intros Hne. right. destruct rest as [|w rest']; [done|].
    exists w. apply wake_up_first_head. apply Hrest1, list_elem_of_here.
  - rewrite failures_wake. subst ts1. lia.
Qed.

Lemma retry_invariant_woken k t :
  retry_invariant k → callers k !! t = Some Woken →
  retry_invariant (locked_section t (remove_first t (waiters k)) k).
Proof.
  intros Hinv Ht. pose proof Hinv as Hinv'. destruct Hinv.
  destruct (woken_has_turn0 _ Ht) as [Hfree [rest Hws]].
  rewrite Hws. simpl. rewrite bool_decide_eq_true_2 by done.
  rewrite Hws in queue_no_dup0. apply NoDup_cons in queue_no_dup0 as [Hnotin Hnd].
  assert (∀ t', t' ≠ t → callers k !! t' ≠ Some Woken) as Hwoken.
  { intros t' Hne H. destruct (woken_has_turn0 _ H) as [_ [rest' Hws']].
    rewrite Hws in Hws'. congruence. }
  assert (∀ t', t' ≠ t → callers k !! t' = Some Waiting → t' ∈ rest) as Hqueued.
  { intros t' Hne H. apply waiting_in_queue0 in H. rewrite Hws in H.
    by apply elem_of_cons in H as [?|?]. }
  assert (∀ t', t' ∈ rest → t' ≠ t ∧ callers k !! t' = Some Waiting) as Hrest.
  { intros t' Hin. assert (t' ≠ t) as Hne by (intros ->; done).
    split; [done|].
    destruct (queue_is_waiting0 t') as [H|H];
      [rewrite Hws; by apply list_elem_of_further|done|].
    by destruct (Hwoken t'). }
  unfold locked_section. destruct (resident k) as [h|] eqn:Hres.
  - apply (retry_invariant_release k t Woken); try done.
    + right. by exists h.
    + intros t' id _ H. apply loader_holds_lock0 in H as (? & _). congruence.
    + intros t' h' _ H. apply returned_resident0 in H. congruence.
    + pose proof (failures_insert _ _ _ (Done h) Ht) as H. simpl in H.
      rewrite Hfree in loads_accounted0. lia.
  - by apply (retry_invariant_submit k t Woken).
Qed.

Lemma retry_invariant_load_done k t id (ok : bool) :
  retry_invariant k → callers k !! t = Some (Loading id) →
  retry_invariant {| resident := if ok then Some id else resident k;
                     locked := false; waiters := waiters k;
                     invocations := invocations k;
                     callers := wake_up_first (waiters k)
                                  (<[t := if ok then Done id else Failed]> (callers k)) |}.
Proof.
  intros Hinv Ht. pose proof Hinv as Hinv'. destruct Hinv.
  destruct (loader_holds_lock0 _ _ Ht) as (Hl & Hres & Hone).
  assert (∀ t', callers k !! t' ≠ Some Woken) as Hnowoken.
  { intros t' H. apply woken_has_turn0 in H as [? _]. congruence. }
  apply (retry_invariant_release k t (Loading id)); try done.
  - destruct ok; [right; by exists id|by left].
  - intros t' id' Hne H. by destruct (Hne (single_loader0 _ _ _ _ H Ht)).
  - intros t' h' _ H. apply returned_resident0 in H. congruence.
  - intros t' _. apply waiting_in_queue0.
  - intros t' Hin. destruct (queue_is_waiting0 _ Hin) as [H|H].
    + split; [|done]. intros ->. congruence.
    + by destruct (Hnowoken t').
  - rewrite Hl, Hres in loads_accounted0.
    pose proof (failures_insert _ _ _ (if ok then Done id else Failed) Ht) as H.
    rewrite Hres. simpl in loads_accounted0. destruct ok; simpl in H; simpl; lia.
Qed.

Lemma retry_invariant_step e k k' :
  retry_invariant k → step e k = Some k' → retry_invariant k'.
Proof.
  intros Hinv Hstep. destruct e as [t|t ok]; simpl in Hstep.
  - destruct (callers k !! t) as [[| | | | |]|] eqn:Ht; try done.
    + destruct (resident k) as [h|] eqn:Hres.
      * injection Hstep as <-. rewrite <-Hres at 1. by apply retry_invariant_fast_path.
      * destruct (negb (locked k) && bool_decide (waiters k = [])) eqn:Hfree.
        -- injection Hstep as <-. unfold locked_section. rewrite Hres.
           apply andb_true_iff in Hfree as [Hl Hnil].
           apply bool_decide_eq_true_1 in Hnil.
           apply (retry_invariant_submit k t Start); try done.
           ++ by destruct (locked k).
           ++ intros t' _ H. destruct Hinv. apply woken_has_turn0 in H as [_ [rest H]].
              congruence.
           ++ intros t' _ H. destruct Hinv. by apply waiting_in_queue0.
           ++ intros t' Hin. rewrite Hnil in Hin. by apply elem_of_nil in Hin.
           ++ by destruct Hinv.
        -- injection Hstep as <-. rewrite <-Hres. by apply retry_invariant_queue.
    + injection Hstep as <-. by apply retry_invariant_woken.
  - destruct (callers k !! t) as [[| | |id| |]|] eqn:Ht; try done.
    injection Hstep as <-. by apply retry_invariant_load_done.
Qed.

Lemma retry_invariant_run schedule k k' :
  retry_invariant k → run schedule k = Some k' → retry_invariant k'.
Proof.
  revert k. induction schedule as [|e schedule IH]; intros k Hinv; simpl.
  - by intros [= <-].
  - destruct (step e k) as [k1|] eqn:Hstep; [|done].
    apply IH. by eapply retry_invariant_step.
Qed.

Lemma unfinished_caller (ts : list caller_state) :
  (∀ t s, ts !! t = Some s → s = Failed ∨ ∃ h, s = Done h) ∨
  (∃ t s, ts !! t = Some s ∧ s ≠ Failed ∧ ∀ h, s ≠ Done h).
Proof.
  induction ts as [|s ts [IH|(t & s' & Ht & Hs)]].
  - left. intros t s Ht. by rewrite lookup_nil in Ht.
  - destruct s as [| | |id|h|];
      try (right; exists 0%nat; eexists; split; [reflexivity|done]).
    + left. intros [|t] s'; simpl; [intros [= <-]; eauto|apply IH].
    + left. intros [|t] s'; simpl; [intros [= <-]; eauto|apply IH].
  - right. exists (S t), s'. done.
Qed.

(** X25.  Concurrent [get_or_load] calls for one key when loads may
    fail.  Under every interleaving the event loop allows, whatever the
    loader answers: two loads never run at once; the callers that have
    returned hold the same handle, the one in the registry; the loader
    has run once for every caller whose own load failed, once more if a
    load is running and once more if a handle is registered, so a
    failure is retried by the next caller in the queue and by nobody
    else; no interleaving is longer than 3 n steps; and as long as a
    caller has neither returned nor raised, some step is enabled. *)
Theorem concurrent_calls_with_failures (n : nat) (schedule : list event) (k : KeyState) :
  run schedule (concurrent_calls n) = Some k →
  (∀ t1 t2 id1 id2,
     callers k !! t1 = Some (Loading id1) → callers k !! t2 = Some (Loading id2) →
     t1 = t2) ∧
  (∀ t h, callers k !! t = Some (Done h) → resident k = Some h) ∧
  (∀ t1 t2 h1 h2,
     callers k !! t1 = Some (Done h1) → callers k !! t2 = Some (Done h2) → h1 = h2) ∧
  invocations k =
    (failures (callers k) + (if locked k then 1 else 0)
     + registered (resident k))%nat ∧
  (length schedule ≤ 3 * n)%nat ∧
  (all_finished k ∨ ∃ e, enabled e k).
Proof.
  intros Hrun.
  assert (retry_invariant k) as Hinv.
  { eapply retry_invariant_run; [apply retry_invariant_initial|done]. }
  split; [by destruct Hinv|]. split; [by destruct Hinv|].
  split; [|split; [by destruct Hinv|split]].
  - intros t1 t2 h1 h2 H1 H2. destruct Hinv.
    apply returned_resident0 in H1, H2. congruence.
  - pose proof (run_length _ _ _ Hrun) as Hlen. simpl in Hlen.
    rewrite total_weight_start in Hlen. lia.
  - destruct (unfinished_caller (callers k)) as [Hall|(t & s & Ht & Hf & Hd)];
      [by left|].
    right. destruct Hinv.
    assert (∀ t', callers k !! t' = Some Start ∨ callers k !! t' = Some Woken →
              enabled (Resume t') k) as Hresume.
    { intros t' Ht'. unfold enabled. simpl. destruct Ht' as [-> | ->]; [|done].
      destruct (resident k); [done|by destruct (negb _ && _)]. }
    assert (∀ t' id, callers k !! t' = Some (Loading id) →
              enabled (LoadDone t' true) k) as Hload.
    { intros t' id Ht'. unfold enabled. simpl. by rewrite Ht'. }
    destruct s as [| | |id|h|].
    + exists (Resume t). auto.
    + assert (waiters k ≠ []) as Hne.
      { intros Hnil. apply waiting_in_queue0 in Ht.
        rewrite Hnil in Ht. by apply elem_of_nil in Ht. }
      destruct (queue_moves0 Hne) as [Hl|(t' & H)].
      * destruct (lock_has_loader0 Hl) as (t' & id & H).
        exists (LoadDone t' true). eauto.
      * exists (Resume t'). auto.
    + exists (Resume t). auto.
    + exists (LoadDone t true). eauto.
    + by destruct (Hd h).
    + done.
Qed.

Lemma concurrent_calls_with_failures_witness :
  run [Resume 0; Resume 1; LoadDone 0 false; Resume 1; LoadDone 1 true]
    (concurrent_calls 2) =
  Some {| resident := Some 1%nat; locked := false; waiters := []; invocations := 2;
          callers := [Failed; Done 1] |} ∧
  (2 = failures [Failed; Done 1] + 0 + 1)%nat.
Proof.
  assert (run [Resume 0; Resume 1; LoadDone 0 false; Resume 1; LoadDone 1 true]
            (concurrent_calls 2) =
          Some {| resident := Some 1%nat; locked := false; waiters := [];
                  invocations := 2; callers := [Failed; Done 1] |}) as Hrun
    by (vm_compute; reflexivity).
  destruct (concurrent_calls_with_failures 2 _ _ Hrun) as (_ & _ & _ & Hcount & _).
  split; [exact Hrun|exact Hcount].
Defined.
